(** * Dahua camera events to MQTT: a shallow embedding of [dahua_mqtt.py]

    The development follows the source file top to bottom.

    - Python [str] values are lists of Unicode code points ([text]); the
      bytes handed to the write callback are [list byte].
    - The built-in string operations the program calls ([split], [strip],
      [startswith], [lower], [bytes.decode], [json.dumps]) are written out
      as list functions.
    - Methods that log, publish, raise or mutate [self] are computations in
      a small state/error/writer monad [M].
    - The worker thread [thread_process] is a step function on a world that
      holds the class-level objects of [DahuaMQTT], the instance
      dictionaries and the wall clock. *)

From Stdlib Require Import Strings.String Strings.Ascii Strings.Byte.
From Stdlib Require Import List Bool NArith ZArith QArith Lia Lqa.
From Stdlib Require Import Qpower Qabs Qreduction.
From Equations.Prop Require Import Equations Logic.
Import ListNotations.

Local Open Scope N_scope.
Local Open Scope list_scope.

(* ===================================================================== *)
(** ** Python strings                                                      *)
(* ===================================================================== *)

(** A Python [str] is a sequence of code points. *)
Definition char := N.
Definition text := list char.

(** Literals of the source are written [txt "..."]. *)
Definition txt (s : string) : text :=
  List.map N_of_ascii (list_ascii_of_string s).

(** [a == b] on strings. *)
Fixpoint text_eqb (a b : text) : bool :=
  match a, b with
  | [], [] => true
  | x :: a', y :: b' => N.eqb x y && text_eqb a' b'
  | _, _ => false
  end.

(** [x in xs] for a list of strings. *)
Definition text_in (x : text) (xs : list text) : bool :=
  existsb (text_eqb x) xs.

(** [s.startswith(p)], and the rest of [s] after the prefix [p]. *)
Fixpoint strip_prefix (p s : text) : option text :=
  match p, s with
  | [], _ => Some s
  | _ :: _, [] => None
  | x :: p', y :: s' => if N.eqb x y then strip_prefix p' s' else None
  end.

Definition startswith (s p : text) : bool :=
  match strip_prefix p s with Some _ => true | None => false end.

(** Put [c] in front of the first piece of a split. *)
Definition cons_head (c : char) (ps : list text) : list text :=
  match ps with
  | [] => [[c]]
  | p :: ps' => (c :: p) :: ps'
  end.

(** [s.split(sep)]: the pieces between the non-overlapping occurrences of
    [sep], found left to right.  Python raises [ValueError] on an empty
    separator; every call in the source passes a literal, non-empty one, and
    the model returns [[s]] there. *)
Equations? split (sep s : text) : list text by wf (length s) lt :=
  split [] s := [s];
  split (d :: sep') [] := [[]];
  split (d :: sep') (c :: s') with inspect (strip_prefix (d :: sep') (c :: s')) := {
    | exist _ (Some rest) _ := [] :: split (d :: sep') rest;
    | exist _ None _ := cons_head c (split (d :: sep') s') }.
Proof.
  assert (shorter : forall (p : text) (d0 : char) (s r : text),
             strip_prefix (d0 :: p) s = Some r -> (length r < length s)%nat).
  { induction p as [|x p IH]; intros d0 s r.
    - destruct s as [|y s]; simpl; [discriminate|].
      destruct (N.eqb d0 y); [|discriminate]. intros [= <-]. lia.
    - destruct s as [|y s]; [discriminate|].
      cbn [strip_prefix]. destruct (N.eqb d0 y); [|discriminate].
      intros H. apply IH in H. simpl. lia. }
  exact (shorter sep' d (c :: s') rest e).
Qed.

(** [s.lstrip(chars)], [s.rstrip(chars)] and [s.strip(chars)]: drop the
    leading, trailing, or both runs of characters that occur in [chars]. *)
Definition char_in (c : char) (chars : text) : bool := existsb (N.eqb c) chars.

Fixpoint lstrip (chars s : text) : text :=
  match s with
  | [] => []
  | c :: s' => if char_in c chars then lstrip chars s' else s
  end.

Definition rstrip (chars s : text) : text := rev (lstrip chars (rev s)).

Definition strip (chars s : text) : text := rstrip chars (lstrip chars s).

(** [sep.join(parts)]. *)
Fixpoint join (sep : text) (parts : list text) : text :=
  match parts with
  | [] => []
  | [p] => p
  | p :: ps => p ++ sep ++ join sep ps
  end.

(** [s.lower()].  On a string of ASCII code points it maps [A-Z] to [a-z]
    and nothing else.  On other strings Python applies the Unicode
    lower-casing algorithm, whose tables are not part of this program: it is
    the parameter [unicode_lower] of the model. *)
Definition is_ascii (s : text) : bool := forallb (fun c => c <? 128) s.

Definition ascii_lower_char (c : char) : char :=
  if (65 <=? c) && (c <=? 90) then c + 32 else c.

Definition lower (unicode_lower : text -> text) (s : text) : text :=
  if is_ascii s then List.map ascii_lower_char s else unicode_lower s.

(** *** [bytes.decode("utf-8", errors="ignore")]

    CPython's decoder reads one code point at a time.  A byte that cannot
    start a sequence is dropped; a sequence broken by a byte that cannot
    continue it loses the bytes read so far and decoding resumes at the
    offending byte; a sequence cut short by the end of the input is dropped
    whole.  Over-long forms, surrogates and code points above [0x10FFFF] are
    rejected at the second byte. *)
Definition is_cont (b : N) : bool := (0x80 <=? b) && (b <=? 0xBF).

(** Second byte of a three-byte sequence led by [b0]. *)
Definition second3_ok (b0 b1 : N) : bool :=
  is_cont b1 &&
  negb ((b0 =? 0xE0) && (b1 <? 0xA0)) &&
  negb ((b0 =? 0xED) && (0xA0 <=? b1)).

(** Second byte of a four-byte sequence led by [b0]. *)
Definition second4_ok (b0 b1 : N) : bool :=
  is_cont b1 &&
  negb ((b0 =? 0xF0) && (b1 <? 0x90)) &&
  negb ((b0 =? 0xF4) && (0x90 <=? b1)).

Fixpoint decode_utf8_ignore (data : list byte) : text :=
  match data with
  | [] => []
  | x0 :: r1 =>
    let b0 := Byte.to_N x0 in
    if b0 <? 0x80 then b0 :: decode_utf8_ignore r1
    else if b0 <? 0xC2 then decode_utf8_ignore r1
    else if b0 <? 0xE0 then
      match r1 with
      | [] => []
      | x1 :: r2 =>
        let b1 := Byte.to_N x1 in
        if is_cont b1
        then ((b0 - 0xC0) * 64 + (b1 - 0x80)) :: decode_utf8_ignore r2
        else decode_utf8_ignore r1
      end
    else if b0 <? 0xF0 then
      match r1 with
      | [] => []
      | x1 :: r2 =>
        let b1 := Byte.to_N x1 in
        if second3_ok b0 b1 then
          match r2 with
          | [] => []
          | x2 :: r3 =>
            let b2 := Byte.to_N x2 in
            if is_cont b2
            then ((b0 - 0xE0) * 4096 + (b1 - 0x80) * 64 + (b2 - 0x80))
                   :: decode_utf8_ignore r3
            else decode_utf8_ignore r2
          end
        else decode_utf8_ignore r1
      end
    else if b0 <? 0xF5 then
      match r1 with
      | [] => []
      | x1 :: r2 =>
        let b1 := Byte.to_N x1 in
        if second4_ok b0 b1 then
          match r2 with
          | [] => []
          | x2 :: r3 =>
            let b2 := Byte.to_N x2 in
            if is_cont b2 then
              match r3 with
              | [] => []
              | x3 :: r4 =>
                let b3 := Byte.to_N x3 in
                if is_cont b3
                then ((b0 - 0xF0) * 262144 + (b1 - 0x80) * 4096
                      + (b2 - 0x80) * 64 + (b3 - 0x80))
                       :: decode_utf8_ignore r4
                else decode_utf8_ignore r3
              end
            else decode_utf8_ignore r2
          end
        else decode_utf8_ignore r1
      end
    else decode_utf8_ignore r1
  end.

(** The bytes of an ASCII literal, for writing chunks down. *)
Definition bytes (s : string) : list byte := list_byte_of_string s.

(** *** [json.dumps] on a dict of strings

    Default options: [ensure_ascii=True], item separator [", "], key
    separator [": "], keys in insertion order. *)
Definition hex_digit (d : N) : char := if d <? 10 then 48 + d else 87 + d.

Definition u_escape (c : N) : text :=
  [92; 117; hex_digit (c / 4096 mod 16); hex_digit (c / 256 mod 16);
   hex_digit (c / 16 mod 16); hex_digit (c mod 16)].

Definition json_escape_char (c : char) : text :=
  if c =? 34 then [92; 34]
  else if c =? 92 then [92; 92]
  else if c =? 10 then [92; 110]
  else if c =? 13 then [92; 114]
  else if c =? 9 then [92; 116]
  else if c =? 12 then [92; 102]
  else if c =? 8 then [92; 98]
  else if (32 <=? c) && (c <=? 126) then [c]
  else if c <? 0x10000 then u_escape c
  else
    let v := c - 0x10000 in
    u_escape (0xD800 + (v / 1024) mod 1024) ++ u_escape (0xDC00 + v mod 1024).

Definition json_string (s : text) : text :=
  [34] ++ flat_map json_escape_char s ++ [34].

(** A Python dict of strings: the items in insertion order, keys unique. *)
Definition dict := list (text * text).

Definition json_dumps (d : dict) : text :=
  txt "{"
  ++ join (txt ", ")
       (List.map (fun kv => json_string (fst kv) ++ txt ": " ++ json_string (snd kv)) d)
  ++ txt "}".

(** [d[k]] and [d[k] = v].  Assigning to a key that is present replaces the
    value and keeps the key's position; a new key goes last. *)
Fixpoint dict_get (d : dict) (k : text) : option text :=
  match d with
  | [] => None
  | (k', v) :: d' => if text_eqb k' k then Some v else dict_get d' k
  end.

Fixpoint dict_set (d : dict) (k v : text) : dict :=
  match d with
  | [] => [(k, v)]
  | (k', v') :: d' =>
    if text_eqb k' k then (k', v) :: d' else (k', v') :: dict_set d' k v
  end.

(** A quoted JSON string without escapes, for writing expected payloads. *)
Definition quoted (s : string) : text := [34] ++ txt s ++ [34].

(* ===================================================================== *)
(** ** Effects                                                             *)
(* ===================================================================== *)

(** A [pycurl.Curl] object is known by its identity. *)
Definition handle := nat.

(** The exceptions the program can meet. *)
Inductive exn : Type :=
| ValueError (expected got : nat)      (* tuple unpacking of the wrong length *)
| KeyError (key : text)
| StopIteration
| AttributeError (name : string)
| TypeError
| PycurlError (msg : string).

(** The argument of [on_disconnect]: ["Success {0}".format(error)] or
    ["{0} ({1})".format(errorstr, errorno)]. *)
Inductive disconnect_reason : Type :=
| ReasonSuccess (error : list (handle * Z * text))
| ReasonError (errorstr : text) (errorno : Z).

(** The lines handed to [hass.log]. *)
Inductive log_msg : Type :=
| LogStartingThread
| LogKillingThread
| LogThreadExited
| LogPublishing (host topic payload : text)
| LogOnConnect (host : text)
| LogOnDisconnect (host : text) (reason : disconnect_reason)
| LogFailedToParse (ex : exn).

(** What the app does to the outside: [hass.log(...)],
    [hass.call_service("mqtt/publish", topic=..., payload=...)], the
    (re-)registration calls [curl_multiobj.remove_handle(h)] and
    [curl_multiobj.add_handle(h)], and a call of a method that the framework
    base class provides. *)
Inductive effect : Type :=
| Log (m : log_msg)
| Publish (topic payload : text)
| RemoveHandle (h : handle)
| AddHandle (h : handle)
| CallInherited (name : string).

(** A computation over a mutable state [S]: it returns the effects issued,
    the state it leaves and either a value or the exception raised.  The
    state and the effects issued before an exception are kept, as in
    Python. *)
Record result (S A : Type) : Type := Result {
  effects : list effect;
  state_of : S;
  value : exn + A
}.
Arguments Result {S A} _ _ _.
Arguments effects {S A} _.
Arguments state_of {S A} _.
Arguments value {S A} _.

Definition M (S A : Type) : Type := S -> result S A.

Definition ret {S A} (a : A) : M S A := fun s => Result [] s (inr a).

Definition raise {S A} (e : exn) : M S A := fun s => Result [] s (inl e).

Definition bind {S A B} (m : M S A) (k : A -> M S B) : M S B :=
  fun s =>
    match m s with
    | Result es s1 (inl e) => Result es s1 (inl e)
    | Result es s1 (inr a) =>
      match k a s1 with
      | Result es' s2 v => Result (es ++ es') s2 v
      end
    end.

Definition emit {S} (e : effect) : M S unit := fun s => Result [e] s (inr tt).

Definition get {S} : M S S := fun s => Result [] s (inr s).

Definition put {S} (s : S) : M S unit := fun _ => Result [] s (inr tt).

Declare Scope monad_scope.
Delimit Scope monad_scope with monad.
Notation "x <- m ;; k" := (bind m (fun x => k))
  (at level 61, m at next level, right associativity) : monad_scope.
Notation "m ;; k" := (bind m (fun _ => k))
  (at level 61, right associativity) : monad_scope.
Local Open Scope monad_scope.

(** [for x in xs: body(x)]. *)
Fixpoint for_each {S A} (xs : list A) (body : A -> M S unit) : M S unit :=
  match xs with
  | [] => ret tt
  | x :: xs' => body x ;; for_each xs' body
  end.

(** [try: m  except Exception as ex: handler(ex)]. *)
Definition try_except {S A} (m : M S A) (handler : exn -> M S A) : M S A :=
  fun s =>
    match m s with
    | Result es s1 (inl e) =>
      match handler e s1 with
      | Result es' s2 v => Result (es ++ es') s2 v
      end
    | r => r
    end.

(** [d[k]] as an expression: [KeyError] when the key is missing. *)
Definition getitem {S} (d : dict) (k : text) : M S text :=
  match dict_get d k with
  | Some v => ret v
  | None => raise (KeyError k)
  end.

(** The publish calls among a list of effects. *)
Fixpoint publishes (es : list effect) : list (text * text) :=
  match es with
  | [] => []
  | Publish t p :: es' => (t, p) :: publishes es'
  | _ :: es' => publishes es'
  end.

(* ===================================================================== *)
(** ** class DahuaCamera                                                   *)
(* ===================================================================== *)

(** One entry of [args["cameras"]]. *)
Record CameraConfig : Type := {
  host : text;
  port : text;
  user : text;
  pass : text;
  topic : text;
  events : text
}.

(** The attributes set by [__init__].  [hass] is the owner the effects go
    to; [alarm] is set to [None] and never used again. *)
Record DahuaCamera : Type := {
  camera : CameraConfig;
  curlobj : option handle;
  connected : option bool;
  reconnect : option Q
}.

Definition DahuaCamera_init (cfg : CameraConfig) : DahuaCamera :=
  {| camera := cfg; curlobj := None; connected := None; reconnect := None |}.

Definition set_curlobj (c : DahuaCamera) (h : option handle) : DahuaCamera :=
  {| camera := camera c; curlobj := h;
     connected := connected c; reconnect := reconnect c |}.

Definition set_connected (c : DahuaCamera) (b : option bool) : DahuaCamera :=
  {| camera := camera c; curlobj := curlobj c;
     connected := b; reconnect := reconnect c |}.

Definition set_reconnect (c : DahuaCamera) (r : option Q) : DahuaCamera :=
  {| camera := camera c; curlobj := curlobj c;
     connected := connected c; reconnect := r |}.

Definition crlf : text := [13; 10].

Section Camera.

(** Python's lower-casing of strings that are not pure ASCII. *)
Variable unicode_lower : text -> text.

Definition on_alarm (state : dict) : M DahuaCamera unit :=
  self <- get ;;
  let k1 := topic (camera self) in
  let v1 := json_dumps state in
  code <- getitem state (txt "code") ;;
  let k2 := topic (camera self) ++ code in
  action <- getitem state (txt "action") ;;
  let mqtt_data := dict_set (dict_set [] k1 v1) k2 action in
  for_each mqtt_data (fun item =>
    let topic := strip (txt "/") (fst item) in
    let payload := snd item in
    emit (Log (LogPublishing (host (camera self)) topic payload)) ;;
    emit (Publish topic payload)).

Definition on_connect : M DahuaCamera unit :=
  self <- get ;;
  emit (Log (LogOnConnect (host (camera self)))) ;;
  put (set_connected self (Some true)).

Definition on_disconnect (reason : disconnect_reason) : M DahuaCamera unit :=
  self <- get ;;
  emit (Log (LogOnDisconnect (host (camera self)) reason)) ;;
  put (set_connected self (Some false)).

Definition parse_event (alarm : dict) : M DahuaCamera unit :=
  self <- get ;;
  code <- getitem alarm (txt "code") ;;
  if negb (text_in code (split (txt ",") (events (camera self))))
  then ret tt
  else on_alarm alarm.

(** The loop [for keyval in line.split(';')] of [on_receive], filling
    [alarm]. *)
Fixpoint parse_pairs {S} (keyvals : list text) (alarm : dict) : M S dict :=
  match keyvals with
  | [] => ret alarm
  | keyval :: rest =>
    match split (txt "=") keyval with
    | [key; val] => parse_pairs rest (dict_set alarm (lower unicode_lower key) val)
    | parts => raise (ValueError 2 (length parts))
    end
  end.

(** The body of [for line in decoded_data.split("\r\n")]. *)
Definition receive_line (line : text) : M DahuaCamera unit :=
  (if text_eqb line (txt "HTTP/1.1 200 OK") then on_connect else ret tt) ;;
  if negb (startswith line (txt "Code=")) then ret tt
  else
    try_except
      (alarm <- parse_pairs (split (txt ";") line) [] ;;
       parse_event alarm)
      (fun ex => emit (Log (LogFailedToParse ex))).

Definition on_receive (data : list byte) : M DahuaCamera unit :=
  let decoded_data := decode_utf8_ignore data in
  for_each (split crlf decoded_data) receive_line.

(** The write callback called on each chunk of a list, in order. *)
Definition deliver (chunks : list (list byte)) : M DahuaCamera unit :=
  for_each chunks on_receive.

End Camera.

(* ===================================================================== *)
(** ** class DahuaMQTT                                                     *)
(* ===================================================================== *)

Definition E_CALL_MULTI_PERFORM : Z := (-1)%Z.

(** The options [initialize] sets on a [pycurl.Curl] that depend on the
    camera.  The others are constants: connect timeout 30, TCP keep-alive
    on, idle 30, interval 15, digest authentication, and the write callback,
    which is [on_receive] of the camera the handle was made for. *)
Record Curl : Type := {
  opt_url : text;
  opt_userpwd : text
}.

(** [URL_TEMPLATE], formatted with the entries of a camera. *)
Definition URL_TEMPLATE (camera : CameraConfig) : text :=
  txt "http://" ++ host camera ++ txt ":" ++ port camera
  ++ txt "/cgi-bin/eventManager.cgi?action=attach&codes=%5B"
  ++ events camera ++ txt "%5D".

(** Where the worker thread stands: at the head of the first loop
    ([perform] until it settles), of the outer loop ([select]) or of the
    inner loop ([perform], reconcile, sweep). *)
Inductive pc : Type := AtStartup | AtSelect | AtPerform.

(** A [Thread] object: running, or finished, normally or by an exception. *)
Inductive thread_state : Type :=
| Running (at_ : pc)
| Finished (died : option exn).

(** The instance dictionary of a [DahuaMQTT] object.  An attribute read
    [self.x] finds the instance's entry when there is one and the class
    attribute otherwise; an assignment [self.x = v] always writes the
    instance's entry.  [args_cameras] is [self.args["cameras"]]. *)
Record DahuaMQTT : Type := {
  args_cameras : list CameraConfig;
  proc_attr : option thread_state;
  num_curlobj_attr : option Z;
  kill_thread_attr : option bool
}.

(** The class attributes that are plain values: [proc = None],
    [num_curlobj = 0], [kill_thread = False]. *)
Definition class_num_curlobj : Z := 0%Z.
Definition class_kill_thread : bool := false.

Definition proc (self : DahuaMQTT) : option thread_state := proc_attr self.

Definition num_curlobj (self : DahuaMQTT) : Z :=
  match num_curlobj_attr self with Some n => n | None => class_num_curlobj end.

Definition kill_thread (self : DahuaMQTT) : bool :=
  match kill_thread_attr self with Some b => b | None => class_kill_thread end.

Definition set_proc (self : DahuaMQTT) (p : thread_state) : DahuaMQTT :=
  {| args_cameras := args_cameras self; proc_attr := Some p;
     num_curlobj_attr := num_curlobj_attr self;
     kill_thread_attr := kill_thread_attr self |}.

Definition set_num_curlobj (self : DahuaMQTT) (n : Z) : DahuaMQTT :=
  {| args_cameras := args_cameras self; proc_attr := proc_attr self;
     num_curlobj_attr := Some n;
     kill_thread_attr := kill_thread_attr self |}.

Definition set_kill_thread (self : DahuaMQTT) (b : bool) : DahuaMQTT :=
  {| args_cameras := args_cameras self; proc_attr := proc_attr self;
     num_curlobj_attr := num_curlobj_attr self;
     kill_thread_attr := Some b |}.

(** The objects of the program.  [cameras] and [curl_multiobj] are the list
    and the [CurlMulti] bound to the class attributes of those names: there
    is one of each, whatever the number of instances.  [curl_objects] holds
    every [pycurl.Curl()] made so far, a handle being its position.  [clock]
    gives the successive values of [time.time()] and [ticks] counts the
    calls made.  [objs] gives the instance dictionary of each [DahuaMQTT]
    object. *)
Record World : Type := {
  cameras : list DahuaCamera;
  curl_multiobj : list handle;
  curl_objects : list Curl;
  clock : nat -> Q;
  ticks : nat;
  objs : nat -> DahuaMQTT
}.

Definition with_cameras (w : World) (cs : list DahuaCamera) : World :=
  {| cameras := cs; curl_multiobj := curl_multiobj w;
     curl_objects := curl_objects w; clock := clock w; ticks := ticks w;
     objs := objs w |}.

Definition with_multi (w : World) (m : list handle) : World :=
  {| cameras := cameras w; curl_multiobj := m;
     curl_objects := curl_objects w; clock := clock w; ticks := ticks w;
     objs := objs w |}.

Definition with_curl_objects (w : World) (cs : list Curl) : World :=
  {| cameras := cameras w; curl_multiobj := curl_multiobj w;
     curl_objects := cs; clock := clock w; ticks := ticks w;
     objs := objs w |}.

Definition with_ticks (w : World) (n : nat) : World :=
  {| cameras := cameras w; curl_multiobj := curl_multiobj w;
     curl_objects := curl_objects w; clock := clock w; ticks := n;
     objs := objs w |}.

Definition with_obj (w : World) (i : nat) (o : DahuaMQTT) : World :=
  {| cameras := cameras w; curl_multiobj := curl_multiobj w;
     curl_objects := curl_objects w; clock := clock w; ticks := ticks w;
     objs := fun j => if Nat.eqb j i then o else objs w j |}.

(** *** Primitive operations on the world *)

Fixpoint list_set {A} (l : list A) (i : nat) (x : A) : list A :=
  match l, i with
  | [], _ => []
  | _ :: l', O => x :: l'
  | y :: l', S i' => y :: list_set l' i' x
  end.

(** Position and value of the first element that satisfies [p]. *)
Fixpoint find_first {A} (p : A -> bool) (l : list A) : option (nat * A) :=
  match l with
  | [] => None
  | x :: l' =>
    if p x then Some (O, x)
    else match find_first p l' with
         | Some (i, y) => Some (S i, y)
         | None => None
         end
  end.

(** [x.curlobj == curlobj]: identity of the handle. *)
Definition curlobj_is (h : handle) (x : DahuaCamera) : bool :=
  match curlobj x with
  | Some h' => Nat.eqb h' h
  | None => false
  end.

(** [next(filter(lambda x: x.curlobj == curlobj, self.cameras))]. *)
Definition next_camera (h : handle) : M World (nat * DahuaCamera) :=
  w <- get ;;
  match find_first (curlobj_is h) (cameras w) with
  | Some ic => ret ic
  | None => raise StopIteration
  end.

(** Run a method of the camera at position [i] of [self.cameras]. *)
Definition on_camera (i : nat) (m : M DahuaCamera unit) : M World unit :=
  fun w =>
    match nth_error (cameras w) i with
    | None => Result [] w (inr tt)
    | Some c =>
      match m c with
      | Result es c' v => Result es (with_cameras w (list_set (cameras w) i c')) v
      end
    end.

Definition update_camera (i : nat) (f : DahuaCamera -> DahuaCamera) : M World unit :=
  on_camera i (c <- get ;; put (f c)).

Definition get_obj (i : nat) : M World DahuaMQTT :=
  w <- get ;; ret (objs w i).

Definition set_obj (i : nat) (o : DahuaMQTT) : M World unit :=
  w <- get ;; put (with_obj w i o).

(** [time.time()]. *)
Definition time_time : M World Q :=
  fun w => Result [] (with_ticks w (S (ticks w))) (inr (clock w (ticks w))).

(** Truth value of [camera.reconnect]: [None] and [0.0] are false. *)
Definition truthy (r : option Q) : bool :=
  match r with
  | Some d => negb (Qeq_bool d 0)
  | None => false
  end.

Definition Qltb (x y : Q) : bool := negb (Qle_bool y x).

(** *** Sums of Python floats

    [time.time()] gives a double and [camera.reconnect] holds one; the model
    keeps both as the rationals they are, so that [<] and the truth value
    are exact.  The sum of two doubles is the double nearest to the exact
    sum, the one with the even significand when two are equally near.
    [round_binary64] is that rounding, to a significand of 53 bits.  It
    leaves the range of the exponents open: the one sum of the program adds
    5 to a clock reading, and that sum neither overflows (5 is less than
    half the spacing of the largest doubles) nor falls among the subnormal
    numbers (a sum below 1 in magnitude is a multiple of [2^-50], and
    exact). *)

(** The integer nearest to [y], the even one of two that are equally near. *)
Definition round_half_even (y : Q) : Z :=
  let q := (Qnum y / Zpos (Qden y))%Z in
  let r := (Qnum y mod Zpos (Qden y))%Z in
  match (2 * r ?= Zpos (Qden y))%Z with
  | Lt => q
  | Gt => (q + 1)%Z
  | Eq => if Z.even q then q else (q + 1)%Z
  end.

(** For [x > 0], the exponent [e] with [2^e <= x < 2^(e+1)]. *)
Definition binade (x : Q) : Z :=
  let e := (Z.log2 (Qnum x) - Z.log2 (Zpos (Qden x)))%Z in
  if Qle_bool (2 ^ e)%Q x then e else (e - 1)%Z.

(** The double nearest to [x]: a multiple of the unit in the last of the 53
    places of the binade of [x]. *)
Definition round_binary64 (x : Q) : Q :=
  if Qeq_bool x 0 then 0%Q
  else
    let ulp := (2 ^ (binade (Qabs x) - 52))%Q in
    Qred (inject_Z (round_half_even (x / ulp)%Q) * ulp)%Q.

(** [x + y] on doubles. *)
Definition float_add (x y : Q) : Q := round_binary64 (x + y)%Q.

Definition handle_in (h : handle) (m : list handle) : bool :=
  existsb (Nat.eqb h) m.

(** [curl_multiobj.add_handle(c)]: pycurl refuses a handle that is already
    on the stack. *)
Definition add_handle (c : option handle) : M World unit :=
  match c with
  | None => raise TypeError
  | Some h =>
    w <- get ;;
    if handle_in h (curl_multiobj w)
    then raise (PycurlError "curl object already on this multi-stack")
    else emit (AddHandle h) ;; put (with_multi w (curl_multiobj w ++ [h]))
  end.

(** [curl_multiobj.remove_handle(c)]: pycurl refuses a handle that is not on
    the stack. *)
Definition remove_handle (c : option handle) : M World unit :=
  match c with
  | None => raise TypeError
  | Some h =>
    w <- get ;;
    if handle_in h (curl_multiobj w)
    then emit (RemoveHandle h) ;;
         put (with_multi w (filter (fun h' => negb (Nat.eqb h h')) (curl_multiobj w)))
    else raise (PycurlError "curl object not on this multi-stack")
  end.

(** [pycurl.Curl()]. *)
Definition new_curl : M World handle :=
  w <- get ;;
  put (with_curl_objects w (curl_objects w ++ [{| opt_url := []; opt_userpwd := [] |}])) ;;
  ret (length (curl_objects w)).

Definition setopts (h : handle) (url userpwd : text) : M World unit :=
  w <- get ;;
  put (with_curl_objects w
         (list_set (curl_objects w) h {| opt_url := url; opt_userpwd := userpwd |})).

(** What libcurl hands back during one iteration of a loop of the worker:
    the chunks for which [perform()] calls the write callbacks, the two
    results of [perform()], the lists of [info_read()] and the result of
    [select(0.1)].  An iteration reads the parts it calls for. *)
Record curl_input : Type := {
  in_received : list (handle * list byte);
  in_ret : Z;
  in_num_handles : Z;
  in_success : list handle;
  in_error : list (handle * Z * text);
  in_select : Z
}.

Section App.

(** Python's lower-casing of strings that are not pure ASCII. *)
Variable unicode_lower : text -> text.

(** The names of the attributes that the base class [hass.Hass] gives to
    a [DahuaMQTT] object. *)
Variable hass_attrs : list string.

(** The body of [for camera in self.args["cameras"]] in [initialize]. *)
Definition initialize_camera (i : nat) (camera : CameraConfig) : M World unit :=
  let dahuacam := DahuaCamera_init camera in
  w <- get ;;
  let pos := length (cameras w) in
  put (with_cameras w (cameras w ++ [dahuacam])) ;;
  let url := URL_TEMPLATE camera in
  curlobj <- new_curl ;;
  update_camera pos (fun c => set_curlobj c (Some curlobj)) ;;
  setopts curlobj url (user camera ++ txt ":" ++ pass camera) ;;
  add_handle (Some curlobj) ;;
  self <- get_obj i ;;
  set_obj i (set_num_curlobj self (num_curlobj self + 1)%Z).

Definition initialize (i : nat) : M World unit :=
  self <- get_obj i ;;
  for_each (args_cameras self) (initialize_camera i) ;;
  emit (Log LogStartingThread) ;;
  self <- get_obj i ;;
  set_obj i (set_proc self (Running AtStartup)).

(** [proc.join()] waits for the worker; the waiting is the steps of the
    worker that follow in the run. *)
Definition terminate (i : nat) : M World unit :=
  self <- get_obj i ;;
  match proc self with
  | Some (Running _) =>
    emit (Log LogKillingThread) ;;
    set_obj i (set_kill_thread self true)
  | _ => ret tt
  end.

(** [curl_multiobj.perform()]: libcurl calls the write callback of every
    handle that has data, then reports [ret] and [num_handles].  The
    callback set on a handle is [on_receive] of the camera made together
    with it, the camera whose [curlobj] is that handle. *)
Definition perform (inp : curl_input) : M World (Z * Z) :=
  for_each (in_received inp) (fun hd =>
    w <- get ;;
    match find_first (curlobj_is (fst hd)) (cameras w) with
    | Some (pos, _) => on_camera pos (on_receive unicode_lower (snd hd))
    | None => ret tt
    end) ;;
  ret (in_ret inp, in_num_handles inp).

(** Lines 124-125 and 132-133: [camera.on_disconnect(reason)] and
    [camera.reconnect = time.time() + 5]. *)
Definition disconnect_camera (pos : nat) (reason : disconnect_reason) : M World unit :=
  on_camera pos (on_disconnect reason) ;;
  now <- time_time ;;
  update_camera pos (fun c => set_reconnect c (Some (float_add now 5%Q))).

(** The body of [for curlobj in success]. *)
Definition success_body (error : list (handle * Z * text)) (curlobj : handle)
  : M World unit :=
  ic <- next_camera curlobj ;;
  if truthy (reconnect (snd ic)) then ret tt
  else disconnect_camera (fst ic) (ReasonSuccess error).

(** The body of [for curlobj, errorno, errorstr in error]. *)
Definition error_body (item : handle * Z * text) : M World unit :=
  let '(curlobj, errorno, errorstr) := item in
  ic <- next_camera curlobj ;;
  if truthy (reconnect (snd ic)) then ret tt
  else disconnect_camera (fst ic) (ReasonError errorstr errorno).

(** The body of the last [for camera in self.cameras], for the camera at
    position [pos]. *)
Definition sweep_body (pos : nat) : M World unit :=
  w <- get ;;
  match nth_error (cameras w) pos with
  | None => ret tt
  | Some camera =>
    match reconnect camera with
    | Some deadline =>
      if truthy (Some deadline) then
        now <- time_time ;;
        if Qltb deadline now then
          remove_handle (curlobj camera) ;;
          add_handle (curlobj camera) ;;
          update_camera pos (fun c => set_reconnect c None)
        else ret tt
      else ret tt
    | None => ret tt
    end
  end.

(** Lines 119-133: the two loops over the handles that [info_read()]
    reports as finished. *)
Definition reconcile_finished (inp : curl_input) : M World unit :=
  for_each (in_success inp) (success_body (in_error inp)) ;;
  for_each (in_error inp) error_body.

(** Lines 135-139: the loop over all the cameras. *)
Definition sweep : M World unit :=
  w <- get ;;
  for_each (seq 0 (length (cameras w))) sweep_body.

(** Lines 117-139: what the inner loop does when [num_handles] differs
    from [self.num_curlobj]. *)
Definition reconcile (inp : curl_input) : M World unit :=
  reconcile_finished inp ;;
  sweep.

(** [self.on_timer()]: neither the instance nor the class [DahuaMQTT] has
    an attribute of that name, so the lookup goes on to the base class. *)
Definition call_on_timer : M World unit :=
  if existsb (String.eqb "on_timer") hass_attrs
  then emit (CallInherited "on_timer")
  else raise (AttributeError "on_timer").

(** One iteration of the loop of [thread_process] the worker of object
    [i] stands at; the value is where it stands next. *)
Definition thread_process (i : nat) (at_ : pc) (inp : curl_input)
  : M World thread_state :=
  self <- get_obj i ;;
  match at_ with
  | AtStartup =>
    if kill_thread self then ret (Running AtSelect)
    else
      rn <- perform inp ;;
      if negb (Z.eqb (fst rn) E_CALL_MULTI_PERFORM)
      then ret (Running AtSelect)
      else ret (Running AtStartup)
  | AtSelect =>
    if kill_thread self then
      emit (Log LogThreadExited) ;;
      ret (Finished None)
    else
      if Z.eqb (in_select inp) (-1)%Z then
        call_on_timer ;;
        ret (Running AtSelect)
      else ret (Running AtPerform)
  | AtPerform =>
    if kill_thread self then ret (Running AtSelect)
    else
      rn <- perform inp ;;
      (if negb (Z.eqb (snd rn) (num_curlobj self))
       then reconcile inp else ret tt) ;;
      if negb (Z.eqb (fst rn) E_CALL_MULTI_PERFORM)
      then ret (Running AtSelect)
      else ret (Running AtPerform)
  end.

(** *** Runs

    The framework calls [initialize] and [terminate]; the worker of an
    object takes a step when its thread runs.  Each of the three is taken
    as one indivisible event. *)
Inductive event : Type :=
| EvInitialize (i : nat)
| EvTerminate (i : nat)
| EvStep (i : nat) (inp : curl_input).

(** A step of the worker of object [i]: nothing when the object has no
    live thread; an exception that leaves [thread_process] ends the
    thread. *)
Definition worker_step (i : nat) (inp : curl_input) (w : World)
  : World * list effect :=
  match proc (objs w i) with
  | Some (Running at_) =>
    match thread_process i at_ inp w with
    | Result es w' v =>
      let next := match v with inl e => Finished (Some e) | inr t => t end in
      (with_obj w' i (set_proc (objs w' i) next), es)
    end
  | _ => (w, [])
  end.

Definition apply_event (ev : event) (w : World) : World * list effect :=
  match ev with
  | EvInitialize i =>
    match initialize i w with Result es w' _ => (w', es) end
  | EvTerminate i =>
    match terminate i w with Result es w' _ => (w', es) end
  | EvStep i inp => worker_step i inp w
  end.

Fixpoint run (evs : list event) (w : World) : World * list effect :=
  match evs with
  | [] => (w, [])
  | ev :: evs' =>
    let (w1, es1) := apply_event ev w in
    let (w2, es2) := run evs' w1 in
    (w2, es1 ++ es2)
  end.

End App.

(** The world before any [initialize]: empty class-level list and stack, no
    handle made, and objects that hold their configuration only. *)
Definition boot (clk : nat -> Q) (args : nat -> list CameraConfig) : World :=
  {| cameras := []; curl_multiobj := []; curl_objects := [];
     clock := clk; ticks := O;
     objs := fun i => {| args_cameras := args i; proc_attr := None;
                         num_curlobj_attr := None; kill_thread_attr := None |} |}.

(* ===================================================================== *)
(** ** Vocabulary of the statements and example worlds                     *)
(* ===================================================================== *)

(** In the closed examples the two parameters of the model are
    [fun s => s] for [unicode_lower] and [[]] for [hass_attrs]: every key of
    the examples is ASCII, so the former is never called, and the latter
    says that the base class provides no [on_timer]. *)

(** The module docstring promises the topics [cameras/1/<event>] and
    [cameras/1] for the configured topic [cameras/1]. *)
Definition docstring_camera : DahuaCamera :=
  DahuaCamera_init
    {| host := txt "192.168.0.1"; port := txt "80"; user := txt "user";
       pass := txt "pass"; topic := txt "cameras/1";
       events := txt "VideoMotion" |}.

(** The line terminator on the wire. *)
Definition crlf_bytes : list byte := [x0d; x0a].

(** A line has a malformed pair when one of its [';']-separated segments
    does not split into exactly two parts at ['=']: no ['='] at all, or more
    than one. *)
Definition malformed (line : text) : Prop :=
  exists seg, In seg (split (txt ";") line)
              /\ length (split (txt "=") seg) <> 2%nat.

(** The statement of the specification on partial lines: a line cut at
    offset [k] and handed over in two calls has the same outcome as the line
    handed over in one call. *)
Definition buffered_across_calls
  (unicode_lower : text -> text) (self : DahuaCamera)
  (line : list byte) (k : nat) : Prop :=
  deliver unicode_lower [firstn k line; skipn k line] self
  = deliver unicode_lower [line] self.

(** The configuration of one app, object 0, with the camera of the
    docstring. *)
Definition one_camera_args (i : nat) : list CameraConfig :=
  match i with
  | O => [camera docstring_camera]
  | _ => []
  end.

(** A clock that reads 100 at first and one more at each call. *)
Definition steady_clock (k : nat) : Q := (100 + inject_Z (Z.of_nat k))%Q.

(** libcurl has nothing to report and the one handle is running. *)
Definition quiet_input : curl_input :=
  {| in_received := []; in_ret := 0%Z; in_num_handles := 1%Z;
     in_success := []; in_error := []; in_select := 1%Z |}.

(** The same, with [select] returning [-1]. *)
Definition select_failed : curl_input :=
  {| in_received := []; in_ret := 0%Z; in_num_handles := 1%Z;
     in_success := []; in_error := []; in_select := (-1)%Z |}.

(** A world with one camera whose worker waits at [select]. *)
Definition waiting_world : World :=
  fst (run (fun s => s) [] [EvInitialize 0; EvStep 0 quiet_input]
           (boot steady_clock one_camera_args)).

(** The camera object [initialize] makes for a configuration entry, once
    its handle is set. *)
Definition registered (cfg : CameraConfig) (h : handle) : DahuaCamera :=
  set_curlobj (DahuaCamera_init cfg) (Some h).

(** The camera objects made for a list of entries, with handles from [h0]
    on. *)
Fixpoint registered_from (h0 : handle) (cfgs : list CameraConfig)
  : list DahuaCamera :=
  match cfgs with
  | [] => []
  | cfg :: rest => registered cfg h0 :: registered_from (S h0) rest
  end.

(** Every handle on the stack has been made by [pycurl.Curl()]. *)
Definition fresh_handles (w : World) : Prop :=
  Forall (fun h => (h < length (curl_objects w))%nat) (curl_multiobj w).

(** What the loop of [initialize] leaves, from a world with fresh handles. *)
Record initialized (i : nat) (cfgs : list CameraConfig) (w w' : World) : Prop := {
  init_cameras :
    cameras w' = cameras w ++ registered_from (length (curl_objects w)) cfgs;
  init_multi :
    curl_multiobj w' = curl_multiobj w ++ seq (length (curl_objects w)) (length cfgs);
  init_made :
    length (curl_objects w') = (length (curl_objects w) + length cfgs)%nat;
  init_clock : clock w' = clock w;
  init_ticks : ticks w' = ticks w;
  init_others : forall j, j <> i -> objs w' j = objs w j;
  init_counter :
    num_curlobj (objs w' i) = (num_curlobj (objs w i) + Z.of_nat (length cfgs))%Z;
  init_args : args_cameras (objs w' i) = args_cameras (objs w i);
  init_proc : proc_attr (objs w' i) = proc_attr (objs w i);
  init_kill : kill_thread_attr (objs w' i) = kill_thread_attr (objs w i);
  init_fresh : fresh_handles w'
}.

(** The reading of the claim for the stop flag: once [terminate] has set
    the flag of object [i], object [j] reads it as set too. *)
Definition kill_thread_is_shared (w : World) (i j : nat) : Prop :=
  let w' := state_of (terminate i w) in
  kill_thread (objs w' i) = true -> kill_thread (objs w' j) = true.

(** The configurations of two apps, objects 0 and 1, of one camera each. *)
Definition two_apps_args (i : nat) : list CameraConfig :=
  match i with
  | 0%nat => [camera docstring_camera]
  | 1%nat => [{| host := txt "192.168.0.2"; port := txt "80"; user := txt "user";
                 pass := txt "pass"; topic := txt "cameras/2";
                 events := txt "VideoMotion" |}]
  | _ => []
  end.

(** Both apps have run [initialize]. *)
Definition two_apps_world : World :=
  fst (run (fun s => s) [] [EvInitialize 0; EvInitialize 1]
           (boot steady_clock two_apps_args)).

(** A camera right after lines 124-125 or 132-133 at clock reading [t]. *)
Definition lost (c : DahuaCamera) (t : Q) : DahuaCamera :=
  set_reconnect (set_connected c (Some false)) (Some (float_add t 5%Q)).

(** The world after one more call of [time.time()]. *)
Definition ticked (w : World) : World := with_ticks w (S (ticks w)).

(** The stack after [remove_handle(h)] and [add_handle(h)]. *)
Definition readded (h : handle) (m : list handle) : list handle :=
  filter (fun h' => negb (Nat.eqb h h')) m ++ [h].

(** The reading of the claim for the boundary: a sweep whose clock reading
    has reached the deadline arms the camera again. *)
Definition rearmed_when_deadline_reached (w : World) (pos : nat) : Prop :=
  forall c d,
    nth_error (cameras w) pos = Some c ->
    reconnect c = Some d ->
    (d <= clock w (ticks w))%Q ->
    exists c',
      nth_error (cameras (state_of (sweep_body pos w))) pos = Some c'
      /\ reconnect c' = None.

(** [info_read()] reports handle 0 with error 7 and no handle is running. *)
Definition connect_failed : curl_input :=
  {| in_received := []; in_ret := 0%Z; in_num_handles := 0%Z;
     in_success := [];
     in_error := [(0%nat, 7%Z, txt "Couldn't connect to server")];
     in_select := 1%Z |}.

(** No handle is running and [info_read()] has nothing new. *)
Definition still_down : curl_input :=
  {| in_received := []; in_ret := 0%Z; in_num_handles := 0%Z;
     in_success := []; in_error := []; in_select := 1%Z |}.

(** One camera.  Its connection fails at clock reading 100; the sweeps of
    that iteration and of the next three read 101 to 104; the next reading
    is 105, the deadline. *)
Definition at_deadline_world : World :=
  fst (run (fun s => s) []
         [EvInitialize 0; EvStep 0 quiet_input; EvStep 0 quiet_input;
          EvStep 0 connect_failed;
          EvStep 0 still_down; EvStep 0 still_down;
          EvStep 0 still_down; EvStep 0 still_down;
          EvStep 0 still_down; EvStep 0 still_down]
         (boot steady_clock one_camera_args)).

(** The camera of [at_deadline_world] at the moment its connection fails. *)
Definition before_failure_world : World :=
  fst (run (fun s => s) []
         [EvInitialize 0; EvStep 0 quiet_input; EvStep 0 quiet_input]
         (boot steady_clock one_camera_args)).

(** [respects R m]: whatever [m] does, and whether or not it raises, the
    state it leaves is related by [R] to the state it started from. *)
Definition respects {S A} (R : S -> S -> Prop) (m : M S A) : Prop :=
  forall s, R s (state_of (m s)).

(** Two states of a camera that differ in [connected] at most. *)
Definition same_but_connected (s s' : DahuaCamera) : Prop :=
  camera s' = camera s /\ curlobj s' = curlobj s /\ reconnect s' = reconnect s.

(** The cameras of the list have the handles they had, in the same order. *)
Definition same_handles (w w' : World) : Prop :=
  List.map curlobj (cameras w') = List.map curlobj (cameras w).

(** The handle [h] is the handle of a camera of the list. *)
Definition knows (w : World) (h : handle) : Prop :=
  In (Some h) (List.map curlobj (cameras w)).

(** The camera [B] at position [j] is as it was, the stack is as it was, and
    no camera has changed its configuration or its handle. *)
Definition keeps_camera (j : nat) (B : DahuaCamera) (w w' : World) : Prop :=
  nth_error (cameras w) j = Some B ->
  nth_error (cameras w') j = Some B
  /\ curl_multiobj w' = curl_multiobj w
  /\ List.map camera (cameras w') = List.map camera (cameras w)
  /\ List.map curlobj (cameras w') = List.map curlobj (cameras w).

(** The configuration of one app, object 0, with two cameras. *)
Definition two_cameras_args (i : nat) : list CameraConfig :=
  match i with
  | 0%nat => two_apps_args 0 ++ two_apps_args 1
  | _ => []
  end.

(** Both cameras of the app have received the status line and stream. *)
Definition two_cameras_world : World :=
  fst (run (fun s => s) []
         [EvInitialize 0;
          EvStep 0 {| in_received := [(0%nat, bytes "HTTP/1.1 200 OK");
                                      (1%nat, bytes "HTTP/1.1 200 OK")];
                      in_ret := 0%Z; in_num_handles := 2%Z;
                      in_success := []; in_error := []; in_select := 1%Z |};
          EvStep 0 quiet_input]
         (boot steady_clock two_cameras_args)).

(** The phases of the specification.  The code keeps no phase: it keeps
    [connected] and [reconnect], and tests the truth value of [reconnect] to
    tell a waiting camera.  Between two iterations of the worker a camera
    with a true deadline is waiting to reconnect, one that has seen the
    status line since it was last armed is streaming, and any other one is
    connecting; [Disconnected] is passed through inside one iteration. *)
Inductive phase : Type := Connecting | Streaming | Disconnected | PendingReconnect.

(** The phase of a camera between two iterations of the worker. *)
Definition phase_of (c : DahuaCamera) : phase :=
  if truthy (reconnect c) then PendingReconnect
  else match connected c with
       | Some true => Streaming
       | _ => Connecting
       end.

(** The handle of the camera is on the stack. *)
Definition registered_handle (w : World) (c : DahuaCamera) : Prop :=
  exists h, curlobj c = Some h /\ In h (curl_multiobj w).

(** The state invariant as the specification has it. *)
Definition state_invariant_claim (w : World) (c : DahuaCamera) : Prop :=
  (reconnect c <> None <-> phase_of c = PendingReconnect)
  /\ (registered_handle w c <-> (phase_of c = Connecting \/ phase_of c = Streaming)).

(** What the code does keep for each camera: a handle that is on the stack,
    and a deadline that, when set, is positive. *)
Definition camera_ok (w : World) (c : DahuaCamera) : Prop :=
  registered_handle w c /\ (forall d, reconnect c = Some d -> (0 < d)%Q).

(** Every camera is in order, every handle on the stack has been made, and
    the clock is never negative. *)
Definition world_ok (w : World) : Prop :=
  Forall (camera_ok w) (cameras w)
  /\ fresh_handles w
  /\ (forall k, (0 <= clock w k)%Q).

(** [world_ok] goes from the first world to the second. *)
Definition ok_step (w w' : World) : Prop := world_ok w -> world_ok w'.

(** Every handle on the stack is the handle of a camera of the list. *)
Definition stack_known (w : World) : Prop :=
  Forall (knows w) (curl_multiobj w).

(** [stack_known] goes from the first world to the second. *)
Definition known_step (w w' : World) : Prop := stack_known w -> stack_known w'.

(** The reading of the claim for the accepted events: a record whose code
    is whitelisted and not empty is published twice. *)
Definition published_twice_when_accepted
  (self : DahuaCamera) (state : dict) : Prop :=
  forall code,
    dict_get state (txt "code") = Some code ->
    text_in code (split (txt ",") (events (camera self))) = true ->
    code <> [] ->
    length (publishes (effects (on_alarm state self))) = 2%nat.

(** The stop flag of object [j], once it reads as set, still does. *)
Definition flag_stays (j : nat) (w w' : World) : Prop :=
  kill_thread (objs w j) = true -> kill_thread (objs w' j) = true.

(** The line that [on_receive] takes for the sign of a successful attach. *)
Definition status_line : text := txt "HTTP/1.1 200 OK".

(** [keyval.split('=')] gives exactly the key and the value of [p]. *)
Definition splits_as (keyval : text) (p : text * text) : Prop :=
  split (txt "=") keyval = [fst p; snd p].

(** The record that the loop over the pairs of a line builds, from the
    record [alarm], when the pairs are [pairs] in this order. *)
Definition build_alarm (unicode_lower : text -> text)
  (pairs : list (text * text)) (alarm : dict) : dict :=
  fold_left (fun d p => dict_set d (lower unicode_lower (fst p)) (snd p))
            pairs alarm.

(** The value of the last pair of [pairs] whose key, lower-cased, is [k]. *)
Definition last_value (unicode_lower : text -> text)
  (k : text) (pairs : list (text * text)) : option text :=
  fold_left (fun acc p =>
               if text_eqb (lower unicode_lower (fst p)) k
               then Some (snd p) else acc)
            pairs None.

(** What the loop over [mqtt_data] emits for the items [items]: for each
    item, the log line and then the publish call. *)
Definition publish_effects (cfg : CameraConfig) (items : dict) : list effect :=
  flat_map (fun item =>
              [Log (LogPublishing (host cfg) (strip (txt "/") (fst item)) (snd item));
               Publish (strip (txt "/") (fst item)) (snd item)])
           items.

(** The outcome of [parse_event] for a camera configured by [cfg], in closed
    form: the effects, and the exception or the return. *)
Definition parse_event_outcome (cfg : CameraConfig) (alarm : dict)
  : list effect * (exn + unit) :=
  match dict_get alarm (txt "code") with
  | None => ([], inl (KeyError (txt "code")))
  | Some code =>
    if text_in code (split (txt ",") (events cfg)) then
      match dict_get alarm (txt "action") with
      | None => ([], inl (KeyError (txt "action")))
      | Some action =>
        (publish_effects cfg
           (dict_set (dict_set [] (topic cfg) (json_dumps alarm))
                     (topic cfg ++ code) action),
         inr tt)
      end
    else ([], inr tt)
  end.

(** The effects of the [try] block of [on_receive] on one event line, in
    closed form. *)
Definition event_line_effects (unicode_lower : text -> text)
  (cfg : CameraConfig) (line : text) : list effect :=
  match value (parse_pairs unicode_lower (split (txt ";") line) [] tt) with
  | inl ex => [Log (LogFailedToParse ex)]
  | inr alarm =>
    match parse_event_outcome cfg alarm with
    | (es, inl ex) => es ++ [Log (LogFailedToParse ex)]
    | (es, inr _) => es
    end
  end.

(** The effects of the body of the loop over the lines, in closed form. *)
Definition line_effects (unicode_lower : text -> text)
  (cfg : CameraConfig) (line : text) : list effect :=
  (if text_eqb line status_line then [Log (LogOnConnect (host cfg))] else [])
  ++ (if startswith line (txt "Code=")
      then event_line_effects unicode_lower cfg line else []).

(** The topic [t] is one that the camera [cfg] may publish to: its own
    topic, or its own topic followed by a code of its whitelist, with the
    slashes at both ends removed. *)
Definition own_topic (cfg : CameraConfig) (t : text) : Prop :=
  t = strip (txt "/") (topic cfg)
  \/ exists code, In code (split (txt ",") (events cfg))
                  /\ t = strip (txt "/") (topic cfg ++ code).


(** The options that [initialize] sets on the handle of a camera. *)
Definition curl_options (cfg : CameraConfig) : Curl :=
  {| opt_url := URL_TEMPLATE cfg;
     opt_userpwd := user cfg ++ txt ":" ++ pass cfg |}.

(** Every camera's handle carries the URL and the credentials of that
    camera's own configuration. *)
Definition options_of_own_camera (w : World) : Prop :=
  forall c h, In c (cameras w) -> curlobj c = Some h ->
    nth_error (curl_objects w) h = Some (curl_options (camera c)).

(** No handle is twice on the stack, no two cameras have the same handle,
    and every handle carries the options of its camera. *)
Definition wired (w : World) : Prop :=
  NoDup (curl_multiobj w)
  /\ NoDup (List.map curlobj (cameras w))
  /\ options_of_own_camera w.

(** [wired] goes from the first world to the second. *)
Definition wired_step (w w' : World) : Prop := wired w -> wired w'.

(** The handles on the stack are the handles of the cameras, each once. *)
Definition one_handle_per_camera (w : World) : Prop :=
  NoDup (curl_multiobj w)
  /\ NoDup (List.map curlobj (cameras w))
  /\ (forall h, In h (curl_multiobj w) <-> knows w h)
  /\ length (curl_multiobj w) = length (cameras w).


(** From the first world to the second no camera has changed but in
    [connected], the stack and the handles are as they were, and the clock
    has not been read. *)
Definition only_connected (w w' : World) : Prop :=
  Forall2 same_but_connected (cameras w) (cameras w')
  /\ curl_multiobj w' = curl_multiobj w
  /\ curl_objects w' = curl_objects w
  /\ ticks w' = ticks w.

(** From the first world to the second every camera is as it was, or it was
    waiting and has lost its deadline, and nothing else. *)
Definition only_rearmed (w w' : World) : Prop :=
  forall pos c,
    nth_error (cameras w) pos = Some c ->
    nth_error (cameras w') pos = Some c
    \/ (truthy (reconnect c) = true
        /\ nth_error (cameras w') pos = Some (set_reconnect c None)).

(** [info_read()] lists handle 0 as failed while [perform()] counts one
    running handle, as many as the app has made. *)
Definition failure_with_equal_count : curl_input :=
  {| in_received := []; in_ret := 0%Z; in_num_handles := 1%Z;
     in_success := [];
     in_error := [(0%nat, 7%Z, txt "Couldn't connect to server")];
     in_select := 1%Z |}.


(** [m] makes no publish call. *)
Definition quiet {S A} (m : M S A) : Prop :=
  forall s, publishes (effects (m s)) = [].

(** The publish call of payload [p] to topic [t] is one that a chunk of
    [inp] causes: the chunk [data] has come on the handle [h], the camera
    [c] of the list of [w] holds that handle, [on_receive] of [c] makes the
    call when it is given [data], and the topic is one of [c]'s own. *)
Definition published_for_receiver (unicode_lower : text -> text)
  (w : World) (inp : curl_input) (t p : text) : Prop :=
  exists h data c,
    In (h, data) (in_received inp)
    /\ In c (cameras w)
    /\ curlobj c = Some h
    /\ In (t, p) (publishes (effects (on_receive unicode_lower data c)))
    /\ own_topic (camera c) t.

(* ===================================================================== *)
(** ** The string functions on examples                                    *)
(* ===================================================================== *)

Example split_ex1 : split (txt ";") (txt "a;b;;c") = [txt "a"; txt "b"; txt ""; txt "c"].
Proof. reflexivity. Qed.

Example decode_ex1 :
  decode_utf8_ignore (bytes "Code=VideoMotion") = txt "Code=VideoMotion".
Proof. reflexivity. Qed.

(** U+00E9 is C3 A9 on the wire; a lone A9 or a truncated C3 is dropped. *)
Example decode_ex2 :
  decode_utf8_ignore [x63; xc3; xa9; x64] = [0x63; 0xE9; 0x64]
  /\ decode_utf8_ignore [x63; xa9; x64] = [0x63; 0x64]
  /\ decode_utf8_ignore [x63; xc3] = [0x63]
  /\ decode_utf8_ignore [xe2; x82; xac] = [0x20AC]
  /\ decode_utf8_ignore [xe2; x82; x0d; x0a] = [13; 10]
  /\ decode_utf8_ignore [xf0; x9f; x98; x80] = [0x1F600].
Proof. repeat split. Qed.

Example json_ex1 :
  json_dumps [(txt "code", txt "VideoMotion"); (txt "action", txt "Start")]
  = txt "{" ++ quoted "code" ++ txt ": " ++ quoted "VideoMotion" ++ txt ", "
    ++ quoted "action" ++ txt ": " ++ quoted "Start" ++ txt "}".
Proof. reflexivity. Qed.

(** Control characters, DEL and non-ASCII code points are escaped. *)
Example json_ex2 :
  json_string [0x41; 0x7F; 0xE9; 0x1F600; 10]
  = [34] ++ txt "A\u007f\u00e9\ud83d\ude00\n" ++ [34].
Proof. reflexivity. Qed.
(* ===================================================================== *)
(** ** Basic facts about the string functions                              *)
(* ===================================================================== *)

Lemma text_eqb_refl (a : text) : text_eqb a a = true.
Proof.
  induction a as [|x a IH]; simpl; [reflexivity|].
  rewrite N.eqb_refl. exact IH.
Qed.

Lemma text_eqb_eq (a b : text) : text_eqb a b = true <-> a = b.
Proof.
  split.
  - revert b. induction a as [|x a IH]; destruct b as [|y b]; simpl;
      try discriminate; [reflexivity|].
    intros H. apply andb_prop in H. destruct H as [Hx Hab].
    apply N.eqb_eq in Hx. apply IH in Hab. congruence.
  - intros <-. apply text_eqb_refl.
Qed.

Lemma text_eqb_neq (a b : text) : text_eqb a b = false <-> a <> b.
Proof.
  rewrite <- text_eqb_eq. destruct (text_eqb a b); split; congruence.
Qed.

Lemma text_in_In (x : text) (xs : list text) : text_in x xs = true <-> In x xs.
Proof.
  unfold text_in. rewrite existsb_exists. split.
  - intros (y & Hy & E). apply text_eqb_eq in E. subst. exact Hy.
  - intros H. exists x. split; [exact H | apply text_eqb_refl].
Qed.

Lemma text_in_not_In (x : text) (xs : list text) :
  text_in x xs = false <-> ~ In x xs.
Proof.
  rewrite <- text_in_In. destruct (text_in x xs); split; congruence.
Qed.

(** A key and the same key with something appended are equal only when
    nothing is appended. *)
Lemma text_eqb_app_self (t c : text) :
  text_eqb t (t ++ c) = match c with [] => true | _ :: _ => false end.
Proof.
  induction t as [|x t IH]; simpl.
  - destruct c; reflexivity.
  - rewrite N.eqb_refl. exact IH.
Qed.

(** ** Basic facts about the monad *)

Lemma bind_assoc {S A B C} (m : M S A) (f : A -> M S B) (g : B -> M S C) (s : S) :
  bind (bind m f) g s = bind m (fun a => bind (f a) g) s.
Proof.
  unfold bind. destruct (m s) as [es s1 [e|a]]; [reflexivity|].
  destruct (f a s1) as [es' s2 [e|b]]; [reflexivity|].
  destruct (g b s2) as [es'' s3 v]. rewrite app_assoc. reflexivity.
Qed.

Lemma bind_ret_l {S A B} (a : A) (f : A -> M S B) (s : S) :
  bind (ret a) f s = f a s.
Proof. unfold bind, ret. destruct (f a s); reflexivity. Qed.

Lemma bind_ret_r {S} (m : M S unit) (s : S) :
  bind m (fun _ => ret tt) s = m s.
Proof.
  unfold bind, ret. destruct (m s) as [es s1 [e|[]]]; [reflexivity|].
  rewrite app_nil_r. reflexivity.
Qed.

Lemma bind_ext {S A B} (m : M S A) (f g : A -> M S B) (s : S) :
  (forall a s', f a s' = g a s') -> bind m f s = bind m g s.
Proof.
  intros H. unfold bind. destruct (m s) as [es s1 [e|a]]; [reflexivity|].
  rewrite H. reflexivity.
Qed.

Lemma for_each_app {S A} (xs ys : list A) (body : A -> M S unit) (s : S) :
  for_each (xs ++ ys) body s = bind (for_each xs body) (fun _ => for_each ys body) s.
Proof.
  revert s. induction xs as [|x xs IH]; intros s; simpl.
  - rewrite bind_ret_l. reflexivity.
  - rewrite bind_assoc. apply bind_ext. intros _ s'. apply IH.
Qed.

(** A loop whose body never raises never raises, and its effects are those
    of the iterations, one after the other. *)
Lemma for_each_total {S A} (xs : list A) (body : A -> M S unit) :
  (forall x s, value (body x s) = inr tt) ->
  forall s, value (for_each xs body s) = inr tt.
Proof.
  intros Hb. induction xs as [|x xs IH]; intros s; simpl; [reflexivity|].
  unfold bind. specialize (Hb x s).
  destruct (body x s) as [es s1 v]. simpl in Hb. subst v.
  specialize (IH s1). destruct (for_each xs body s1) as [es' s2 v'].
  exact IH.
Qed.

Lemma bind_total {S A B} (m : M S A) (k : A -> M S B) (s : S) (a : A) :
  value (m s) = inr a ->
  bind m k s =
  Result (effects (m s) ++ effects (k a (state_of (m s))))
         (state_of (k a (state_of (m s))))
         (value (k a (state_of (m s)))).
Proof.
  unfold bind. destruct (m s) as [es s1 v]. simpl. intros ->.
  destruct (k a s1); reflexivity.
Qed.

(* ===================================================================== *)
(** ** The dispatcher: [on_alarm]                                          *)
(* ===================================================================== *)

(** The dict [mqtt_data]: one item when the two keys are the same string,
    two otherwise. *)
Lemma mqtt_data_items (k1 v1 code action : text) :
  dict_set (dict_set [] k1 v1) (k1 ++ code) action =
  match code with
  | [] => [(k1, action)]
  | _ :: _ => [(k1, v1); (k1 ++ code, action)]
  end.
Proof.
  simpl. rewrite text_eqb_app_self. destruct code; reflexivity.
Qed.

Lemma on_alarm_unfold (self : DahuaCamera) (state : dict) (code action : text) :
  dict_get state (txt "code") = Some code ->
  dict_get state (txt "action") = Some action ->
  on_alarm state self =
  for_each (dict_set (dict_set [] (topic (camera self)) (json_dumps state))
                     (topic (camera self) ++ code) action)
    (fun item =>
       emit (Log (LogPublishing (host (camera self))
                    (strip (txt "/") (fst item)) (snd item))) ;;
       emit (Publish (strip (txt "/") (fst item)) (snd item))) self.
Proof.
  intros Hc Ha. unfold on_alarm, getitem.
  unfold bind at 1. unfold get at 1. cbv beta iota.
  rewrite Hc. rewrite bind_ret_l. rewrite Ha. rewrite bind_ret_l.
  cbn [app].
  destruct (for_each _ _ self). reflexivity.
Qed.

(** The loop over [mqtt_data] leaves the camera as it is, does not raise
    and publishes one message for each item. *)
Lemma publish_loop_state (self : DahuaCamera) (items : dict) (s : DahuaCamera) :
  let r := for_each items
    (fun item =>
       emit (Log (LogPublishing (host (camera self))
                    (strip (txt "/") (fst item)) (snd item))) ;;
       emit (Publish (strip (txt "/") (fst item)) (snd item))) s in
  state_of r = s /\ value r = inr tt /\
  publishes (effects r) =
    List.map (fun item => (strip (txt "/") (fst item), snd item)) items.
Proof.
  induction items as [|item items IH]; cbn zeta in *.
  - repeat split.
  - cbn [for_each]. unfold bind, emit in *.
    destruct (for_each items _ s) as [es s1 v]. cbn [state_of value effects] in *.
    destruct IH as (-> & -> & IH). repeat split.
    cbn [app publishes List.map]. rewrite IH. reflexivity.
Qed.

(** An event without an [action] field reaches no publish call: the lookup
    raises before the loop. *)
Lemma on_alarm_without_action (self : DahuaCamera) (state : dict) (code : text) :
  dict_get state (txt "code") = Some code ->
  dict_get state (txt "action") = None ->
  on_alarm state self = Result [] self (inl (KeyError (txt "action"))).
Proof.
  intros Hc Ha. unfold on_alarm, getitem.
  unfold bind at 1. unfold get at 1. cbv beta iota.
  rewrite Hc. rewrite bind_ret_l. rewrite Ha. reflexivity.
Qed.

(** A whitelisted record without [action], as the line
    [Code=VideoMotion;index=0] gives, passes the filter and is published
    not at all: [on_alarm] raises before its loop. *)
Lemma accepted_event_without_action :
  ~ published_twice_when_accepted docstring_camera
      [(txt "code", txt "VideoMotion"); (txt "index", txt "0")].
Proof.
  intros H.
  assert (E : length (publishes (effects
                (on_alarm [(txt "code", txt "VideoMotion"); (txt "index", txt "0")]
                          docstring_camera))) = 2%nat).
  { apply (H (txt "VideoMotion")).
    - reflexivity.
    - vm_compute. reflexivity.
    - discriminate. }
  vm_compute in E. discriminate E.
Qed.

(** C10.  [on_alarm] builds its two topics as the keys of one dict, the
    camera topic and the camera topic followed by the code.  For a record
    with a [code] and an [action]: when the code is the empty string the
    keys are the same and one publish call is issued, carrying the action;
    when the code is not empty exactly two are issued.  For a record with a
    [code] and no [action], [on_alarm] raises [KeyError] while it builds the
    dict, and no publish call is issued. *)
Theorem on_alarm_topic_collision
  (self : DahuaCamera) (state : dict) (code : text) :
  dict_get state (txt "code") = Some code ->
  let r := on_alarm state self in
  let t := topic (camera self) in
  match dict_get state (txt "action") with
  | Some action =>
    value r = inr tt /\
    (code = [] ->
       publishes (effects r) = [(strip (txt "/") t, action)]) /\
    (code <> [] ->
       length (publishes (effects r)) = 2%nat /\
       publishes (effects r) =
         [(strip (txt "/") t, json_dumps state);
          (strip (txt "/") (t ++ code), action)])
  | None =>
    r = Result [] self (inl (KeyError (txt "action")))
  end.
Proof.
  intros Hc r t. subst r.
  destruct (dict_get state (txt "action")) as [action|] eqn:Ha.
  2:{ apply (on_alarm_without_action self state code Hc Ha). }
  rewrite (on_alarm_unfold self state code action Hc Ha), mqtt_data_items.
  destruct (publish_loop_state self
              (match code with
               | [] => [(topic (camera self), action)]
               | _ :: _ => [(topic (camera self), json_dumps state);
                            (topic (camera self) ++ code, action)]
               end) self) as (_ & Hv & Hp).
  split; [exact Hv|]. rewrite Hp. split.
  - intros ->. reflexivity.
  - intros Hne. destruct code as [|c code]; [congruence|]. split; reflexivity.
Qed.

(** An event with the empty code, which a whitelist with an empty entry
    accepts, is published once, with the action as payload. *)
Lemma on_alarm_topic_collision_witness :
  let self := DahuaCamera_init
    {| host := txt "192.168.0.1"; port := txt "80"; user := txt "user";
       pass := txt "pass"; topic := txt "cameras/1";
       events := txt "VideoMotion," |} in
  let state := [(txt "code", txt ""); (txt "action", txt "Start")] in
  publishes (effects (on_alarm state self)) = [(txt "cameras/1", txt "Start")].
Proof.
  intros self state.
  exact (proj1 (proj2 (on_alarm_topic_collision self state
                         (txt "") eq_refl)) eq_refl).
Defined.

(** C2.  On the example of the module docstring (topic [cameras/1], event
    [VideoMotion]) the two publish calls go to [cameras/1], with the record
    as JSON with lower-cased keys, and to [cameras/1VideoMotion], with the
    action: [on_alarm] appends the code to the topic without a separator, so
    the first topic of the docstring, [cameras/1/VideoMotion], is never
    used. *)
Theorem on_alarm_docstring_example (unicode_lower : text -> text) :
  publishes (effects (on_receive unicode_lower
                        (bytes "Code=VideoMotion;action=Start;index=0")
                        docstring_camera))
  = [ (txt "cameras/1",
       txt "{" ++ quoted "code" ++ txt ": " ++ quoted "VideoMotion" ++ txt ", "
       ++ quoted "action" ++ txt ": " ++ quoted "Start" ++ txt ", "
       ++ quoted "index" ++ txt ": " ++ quoted "0" ++ txt "}");
      (txt "cameras/1VideoMotion", txt "Start") ].
Proof. vm_compute. reflexivity. Qed.

(* ===================================================================== *)
(** ** The filter: [parse_event]                                           *)
(* ===================================================================== *)

Lemma bind_get {S B} (k : S -> M S B) (s : S) : bind get k s = k s s.
Proof. unfold bind, get. destruct (k s s); reflexivity. Qed.

(** With a [code] field, [on_alarm] either raises or logs and publishes: it
    is never silent. *)
Lemma on_alarm_not_silent (self : DahuaCamera) (state : dict) (code : text) :
  dict_get state (txt "code") = Some code ->
  on_alarm state self <> Result [] self (inr tt).
Proof.
  intros Hc. destruct (dict_get state (txt "action")) as [action|] eqn:Ha.
  - rewrite (on_alarm_unfold self state code action Hc Ha), mqtt_data_items.
    destruct code; cbn [for_each]; unfold bind, emit, ret; discriminate.
  - rewrite (on_alarm_without_action self state code Hc Ha). discriminate.
Qed.

Lemma parse_event_unfold (self : DahuaCamera) (alarm : dict) (code : text) :
  dict_get alarm (txt "code") = Some code ->
  parse_event alarm self =
  if text_in code (split (txt ",") (events (camera self)))
  then on_alarm alarm self
  else Result [] self (inr tt).
Proof.
  intros Hc. unfold parse_event, getitem. rewrite bind_get, Hc, bind_ret_l.
  destruct (text_in code _); reflexivity.
Qed.

(** C3.  A parsed candidate is handed to [on_alarm] if and only if its code
    is one of the entries of the camera's whitelist, compared as whole
    strings; a rejected candidate causes no publish call, no log line and no
    change of the camera. *)
Theorem parse_event_filter (self : DahuaCamera) (alarm : dict) (code : text) :
  dict_get alarm (txt "code") = Some code ->
  let whitelist := split (txt ",") (events (camera self)) in
  (In code whitelist <-> parse_event alarm self = on_alarm alarm self) /\
  (~ In code whitelist -> parse_event alarm self = Result [] self (inr tt)).
Proof.
  intros Hc whitelist. rewrite (parse_event_unfold self alarm code Hc).
  fold whitelist. destruct (text_in code whitelist) eqn:E.
  - apply text_in_In in E. split; [tauto|]. intros H. contradiction.
  - apply text_in_not_In in E. split; [|reflexivity].
    split; [intros H; contradiction|].
    intros H. symmetry in H.
    destruct (on_alarm_not_silent self alarm code Hc H).
Qed.

(** The example of the specification: [VideoMotion] against the whitelist
    [VideoBlind] is dropped without a trace. *)
Lemma parse_event_filter_witness :
  let self := DahuaCamera_init
    {| host := txt "192.168.0.1"; port := txt "80"; user := txt "user";
       pass := txt "pass"; topic := txt "cameras/1";
       events := txt "VideoBlind" |} in
  let alarm := [(txt "code", txt "VideoMotion"); (txt "action", txt "Start");
                (txt "index", txt "0")] in
  parse_event alarm self = Result [] self (inr tt).
Proof.
  intros self alarm.
  apply (proj2 (parse_event_filter self alarm (txt "VideoMotion") eq_refl)).
  intros H. apply text_in_In in H. vm_compute in H. discriminate H.
Defined.
(* ===================================================================== *)
(** ** The parser: [on_receive]                                            *)
(* ===================================================================== *)

(** *** Decoding and an ASCII byte

    An ASCII byte ends whatever sequence is open before it and is decoded
    as itself, so decoding goes through a concatenation at such a byte. *)
Section DecodeAscii.

Variable x : byte.
Hypothesis Hx : Byte.to_N x < 128.

Lemma ascii_lt : (Byte.to_N x <? 128) = true.
Proof. apply N.ltb_lt. exact Hx. Qed.

Lemma ascii_not_cont : is_cont (Byte.to_N x) = false.
Proof.
  unfold is_cont. apply andb_false_iff. left. apply N.leb_gt. exact Hx.
Qed.

Lemma ascii_not_second3 b0 : second3_ok b0 (Byte.to_N x) = false.
Proof. unfold second3_ok. rewrite ascii_not_cont. reflexivity. Qed.

Lemma ascii_not_second4 b0 : second4_ok b0 (Byte.to_N x) = false.
Proof. unfold second4_ok. rewrite ascii_not_cont. reflexivity. Qed.

Lemma decode_ascii_head b :
  decode_utf8_ignore (x :: b) = Byte.to_N x :: decode_utf8_ignore b.
Proof. cbn [decode_utf8_ignore]. cbv zeta. rewrite ascii_lt. reflexivity. Qed.

Lemma decode_ascii_app n : forall a b, (length a <= n)%nat ->
  decode_utf8_ignore (a ++ x :: b)
  = decode_utf8_ignore a ++ Byte.to_N x :: decode_utf8_ignore b.
Proof.
  induction n as [|n IH]; intros a b Hn.
  - destruct a; [|simpl in Hn; lia]. apply decode_ascii_head.
  - destruct a as [|x0 r1]; [apply decode_ascii_head|].
    simpl in Hn.
    assert (IH1 : forall a', (length a' <= n)%nat ->
               decode_utf8_ignore (a' ++ x :: b)
               = decode_utf8_ignore a' ++ Byte.to_N x :: decode_utf8_ignore b)
      by (intros; apply IH; assumption).
    clear IH.
    change ((x0 :: r1) ++ x :: b) with (x0 :: (r1 ++ x :: b)).
    cbn [decode_utf8_ignore]. cbv zeta.
    repeat
      (match goal with
       | |- context [match ?r ++ x :: b with _ => _ end] =>
         destruct r; cbn [app length] in *
       | |- context [if is_cont (Byte.to_N x) then _ else _] =>
         rewrite ascii_not_cont
       | |- context [if second3_ok _ (Byte.to_N x) then _ else _] =>
         rewrite ascii_not_second3
       | |- context [if second4_ok _ (Byte.to_N x) then _ else _] =>
         rewrite ascii_not_second4
       | |- context [if ?c then _ else _] => destruct c
       end);
      cbn [app];
      try (match goal with |- _ :: _ = _ :: _ => apply f_equal end);
      first
        [ apply decode_ascii_head
        | match goal with
          | |- _ = decode_utf8_ignore ?a ++ _ => apply (IH1 a); simpl in *; lia
          end ].
Qed.
End DecodeAscii.

Lemma decode_crlf_app (a b : list byte) :
  decode_utf8_ignore (a ++ crlf_bytes ++ b)
  = decode_utf8_ignore a ++ crlf ++ decode_utf8_ignore b.
Proof.
  unfold crlf_bytes. cbn [app].
  rewrite (decode_ascii_app x0d eq_refl (length a) a (x0a :: b) (le_n _)).
  rewrite (decode_ascii_head x0a eq_refl). reflexivity.
Qed.

Lemma decode_crlf_end (a : list byte) :
  decode_utf8_ignore (a ++ crlf_bytes) = decode_utf8_ignore a ++ crlf.
Proof.
  rewrite <- (app_nil_r (a ++ crlf_bytes)), <- app_assoc.
  rewrite decode_crlf_app. reflexivity.
Qed.

(** *** Splitting at line terminators *)

Lemma split_nil (d : char) (sep : text) : split (d :: sep) [] = [[]].
Proof. apply split_equation_2. Qed.

Lemma split_cons (d : char) (sep : text) (c : char) (s : text) :
  split (d :: sep) (c :: s) =
  match strip_prefix (d :: sep) (c :: s) with
  | Some rest => [] :: split (d :: sep) rest
  | None => cons_head c (split (d :: sep) s)
  end.
Proof.
  rewrite split_equation_3.
  destruct (inspect (strip_prefix (d :: sep) (c :: s))) as [[rest|] E].
  - rewrite split_clause_3_equation_1, E. reflexivity.
  - rewrite split_clause_3_equation_2, E. reflexivity.
Qed.

(** A split is never the empty list. *)
Lemma split_not_nil (sep s : text) : split sep s <> [].
Proof.
  destruct sep as [|d sep]; [rewrite split_equation_1; discriminate|].
  destruct s as [|c s]; [rewrite split_nil; discriminate|].
  rewrite split_cons. destruct (strip_prefix _ _); [discriminate|].
  destruct (split (d :: sep) s); discriminate.
Qed.

Lemma cons_head_app (c : char) (ps qs : list text) :
  ps <> [] -> cons_head c (ps ++ qs) = cons_head c ps ++ qs.
Proof. destruct ps; [congruence | reflexivity]. Qed.

Lemma strip_prefix_crlf_inv (s rest : text) :
  strip_prefix crlf s = Some rest -> s = crlf ++ rest.
Proof.
  unfold crlf. destruct s as [|c [|c' s]]; cbn [strip_prefix].
  - discriminate.
  - destruct (13 =? c); discriminate.
  - destruct (13 =? c) eqn:E1; [|discriminate].
    destruct (10 =? c') eqn:E2; [|discriminate].
    apply N.eqb_eq in E1, E2. subst. intros [= <-]. reflexivity.
Qed.

Lemma strip_prefix_crlf_hit (rest : text) :
  strip_prefix crlf (crlf ++ rest) = Some rest.
Proof. reflexivity. Qed.

(** Where a text does not begin with the terminator, neither does the text
    followed by a terminator and more. *)
Lemma strip_prefix_crlf_miss (c : char) (s t : text) :
  strip_prefix crlf (c :: s) = None ->
  strip_prefix crlf (c :: s ++ crlf ++ t) = None.
Proof.
  unfold crlf. cbn [strip_prefix]. destruct (13 =? c); [|reflexivity].
  destruct s as [|c' s]; cbn [app strip_prefix]; [reflexivity|].
  destruct (10 =? c'); [discriminate | reflexivity].
Qed.

Lemma split_crlf_nil : split crlf [] = [[]].
Proof. exact (split_nil 13 [10]). Qed.

Lemma split_crlf_cons (c : char) (s : text) :
  split crlf (c :: s) =
  match strip_prefix crlf (c :: s) with
  | Some rest => [] :: split crlf rest
  | None => cons_head c (split crlf s)
  end.
Proof. exact (split_cons 13 [10] c s). Qed.

Lemma split_crlf_hit (t : text) : split crlf (crlf ++ t) = [] :: split crlf t.
Proof.
  change (crlf ++ t) with (13 :: 10 :: t). rewrite split_crlf_cons.
  reflexivity.
Qed.

Lemma split_crlf_app_bounded (n : nat) : forall s t : text,
  (length s <= n)%nat ->
  split crlf (s ++ crlf ++ t) = split crlf s ++ split crlf t.
Proof.
  induction n as [|n IH]; intros s t Hn.
  - destruct s; [|simpl in Hn; lia].
    cbn [app]. rewrite split_crlf_hit, split_crlf_nil. reflexivity.
  - destruct s as [|c s].
    + cbn [app]. rewrite split_crlf_hit, split_crlf_nil. reflexivity.
    + destruct (strip_prefix crlf (c :: s)) as [rest|] eqn:E.
      * apply strip_prefix_crlf_inv in E. rewrite E.
        rewrite <- app_assoc, !split_crlf_hit.
        rewrite IH; [reflexivity|].
        apply (f_equal (@length _)) in E. simpl in E, Hn. lia.
      * change ((c :: s) ++ crlf ++ t) with (c :: s ++ crlf ++ t).
        rewrite !split_crlf_cons.
        rewrite (strip_prefix_crlf_miss c s t E), E.
        rewrite IH by (simpl in Hn; lia).
        apply cons_head_app, split_not_nil.
Qed.

(** The lines of a text with a terminator inside are the lines before it
    followed by the lines after it. *)
Lemma split_crlf_app (s t : text) :
  split crlf (s ++ crlf ++ t) = split crlf s ++ split crlf t.
Proof. apply (split_crlf_app_bounded (length s)). apply le_n. Qed.

(** *** One line at a time *)

Lemma bind_cong_l {S A B} (m m' : M S A) (k : A -> M S B) (s : S) :
  m s = m' s -> bind m k s = bind m' k s.
Proof. intros H. unfold bind. rewrite H. reflexivity. Qed.

Lemma bind_raise {S A B} (m : M S A) (k : A -> M S B) (s : S) (e : exn) :
  m s = Result [] s (inl e) -> bind m k s = Result [] s (inl e).
Proof. intros H. unfold bind. rewrite H. reflexivity. Qed.

Lemma bind_silent {S B} (m : M S unit) (k : unit -> M S B) (s : S) :
  m s = Result [] s (inr tt) -> bind m k s = k tt s.
Proof. intros H. unfold bind. rewrite H. destruct (k tt s); reflexivity. Qed.

(** A line that begins with the event marker is not the status line. *)
Lemma code_line_not_status (line : text) :
  startswith line (txt "Code=") = true ->
  text_eqb line (txt "HTTP/1.1 200 OK") = false.
Proof.
  intros H. destruct (text_eqb line (txt "HTTP/1.1 200 OK")) eqn:E; [|reflexivity].
  apply text_eqb_eq in E. subst line. vm_compute in H. discriminate H.
Qed.

Section Lines.

Variable unicode_lower : text -> text.

Lemma on_connect_total (s : DahuaCamera) : value (on_connect s) = inr tt.
Proof. reflexivity. Qed.

(** No exception leaves the body of the loop over the lines. *)
Lemma receive_line_total (line : text) (s : DahuaCamera) :
  value (receive_line unicode_lower line s) = inr tt.
Proof.
  unfold receive_line.
  destruct (text_eqb line (txt "HTTP/1.1 200 OK")).
  - rewrite (bind_total on_connect _ s tt (on_connect_total s)).
    cbn [value]. destruct (negb (startswith line (txt "Code="))); [reflexivity|].
    unfold try_except.
    match goal with |- context [bind ?m ?k ?s'] =>
      destruct (bind m k s') as [es s1 [e|[]]] end; reflexivity.
  - rewrite bind_ret_l.
    destruct (negb (startswith line (txt "Code="))); [reflexivity|].
    unfold try_except.
    match goal with |- context [bind ?m ?k ?s'] =>
      destruct (bind m k s') as [es s1 [e|[]]] end; reflexivity.
Qed.

Lemma receive_lines_total (lines : list text) (s : DahuaCamera) :
  value (for_each lines (receive_line unicode_lower) s) = inr tt.
Proof. apply for_each_total. apply receive_line_total. Qed.

(** An empty line does nothing. *)
Lemma receive_line_empty (s : DahuaCamera) :
  receive_line unicode_lower [] s = Result [] s (inr tt).
Proof. reflexivity. Qed.

Lemma receive_lines_skip_empty (l1 l2 : list text) (s : DahuaCamera) :
  for_each (l1 ++ [] :: l2) (receive_line unicode_lower) s
  = for_each (l1 ++ l2) (receive_line unicode_lower) s.
Proof.
  rewrite !for_each_app. apply bind_ext. intros _ s'.
  cbn [for_each]. apply bind_silent, receive_line_empty.
Qed.

(** A segment that does not split into exactly two parts at ['='] stops
    the loop over the pairs with a [ValueError]. *)
Lemma parse_pairs_malformed (keyvals : list text) :
  (exists seg, In seg keyvals /\ length (split (txt "=") seg) <> 2%nat) ->
  forall (alarm : dict) (s : DahuaCamera),
  exists n, n <> 2%nat /\
    parse_pairs unicode_lower keyvals alarm s = Result [] s (inl (ValueError 2 n)).
Proof.
  induction keyvals as [|keyval rest IH]; intros (seg & Hin & Hlen) alarm s.
  - destruct Hin.
  - cbn [parse_pairs].
    destruct (split (txt "=") keyval) as [|k [|v [|x more]]] eqn:E.
    + exists 0%nat. split; [discriminate | reflexivity].
    + exists 1%nat. split; [discriminate | reflexivity].
    + destruct Hin as [<- | Hin].
      * rewrite E in Hlen. contradiction Hlen. reflexivity.
      * apply IH. exists seg. split; assumption.
    + exists (length (k :: v :: x :: more)).
      split; [simpl; discriminate | reflexivity].
Qed.

End Lines.

Lemma receive_line_malformed
  (unicode_lower : text -> text) (line : text) (s : DahuaCamera) :
  startswith line (txt "Code=") = true ->
  malformed line ->
  exists n, n <> 2%nat /\
    receive_line unicode_lower line s
    = Result [Log (LogFailedToParse (ValueError 2 n))] s (inr tt).
Proof.
  intros Hs Hm.
  destruct (parse_pairs_malformed unicode_lower (split (txt ";") line) Hm [] s)
    as (n & Hn & Hp).
  exists n. split; [exact Hn|].
  unfold receive_line. rewrite (code_line_not_status line Hs), bind_ret_l, Hs.
  cbn [negb]. unfold try_except.
  rewrite (bind_raise _ _ s (ValueError 2 n) Hp). reflexivity.
Qed.

(** C4.  In any chunk, a line that begins with the event marker and has a
    malformed pair costs one logged parse error and nothing else: it yields
    no candidate and no publish call, the lines before it have had their
    effects, and the lines after it are processed as if it had not been
    there; [on_receive] returns normally. *)
Theorem bad_line_is_local
  (unicode_lower : text -> text) (self : DahuaCamera) (data : list byte)
  (before after : list text) (bad : text) :
  split crlf (decode_utf8_ignore data) = before ++ bad :: after ->
  startswith bad (txt "Code=") = true ->
  malformed bad ->
  let r1 := for_each before (receive_line unicode_lower) self in
  let r2 := for_each after (receive_line unicode_lower) (state_of r1) in
  exists n, n <> 2%nat /\
    on_receive unicode_lower data self =
    Result (effects r1 ++ [Log (LogFailedToParse (ValueError 2 n))] ++ effects r2)
           (state_of r2) (inr tt).
Proof.
  intros Hsplit Hs Hm r1 r2.
  destruct (receive_line_malformed unicode_lower bad (state_of r1) Hs Hm)
    as (n & Hn & Hbad).
  exists n. split; [exact Hn|].
  unfold on_receive. rewrite Hsplit, for_each_app.
  rewrite (bind_total _ _ self tt (receive_lines_total unicode_lower before self)).
  fold r1. cbn [for_each]. unfold bind at 1 2 3. rewrite Hbad.
  pose proof (receive_lines_total unicode_lower after (state_of r1)) as Ht.
  fold r2 in Ht. fold r2.
  destruct r2 as [es s2 v]. cbn [value effects state_of] in *. subst v.
  reflexivity.
Qed.

(** The example of the specification: [Code=Foo;badpair] followed in the
    same chunk by a valid line.  One parse error is logged and the valid
    line is published. *)
Lemma bad_line_is_local_witness :
  let data := bytes "Code=Foo;badpair" ++ crlf_bytes
              ++ bytes "Code=VideoMotion;action=Start;index=0" in
  exists n, n <> 2%nat /\
    on_receive (fun s => s) data docstring_camera =
    Result ([] ++ [Log (LogFailedToParse (ValueError 2 n))]
            ++ effects (for_each [txt "Code=VideoMotion;action=Start;index=0"]
                          (receive_line (fun s => s)) docstring_camera))
           docstring_camera (inr tt).
Proof.
  intros data.
  refine (bad_line_is_local (fun s => s) docstring_camera data
            [] [txt "Code=VideoMotion;action=Start;index=0"]
            (txt "Code=Foo;badpair") _ _ _).
  - vm_compute. reflexivity.
  - vm_compute. reflexivity.
  - exists (txt "badpair"). split.
    + vm_compute. right. left. reflexivity.
    + vm_compute. discriminate.
Defined.

(* ===================================================================== *)
(** ** Chunks and lines                                                    *)
(* ===================================================================== *)

(** [on_receive] keeps nothing between two calls.  The valid line of the
    specification, cut after [Code=VideoMotion;act], is published when it
    comes whole; cut, its first part is a parse error and its second part is
    not an event line. *)
Lemma partial_line_not_buffered :
  ~ buffered_across_calls (fun s => s) docstring_camera
      (bytes "Code=VideoMotion;action=Start;index=0") 20.
Proof.
  unfold buffered_across_calls. intros H.
  apply (f_equal (fun r => publishes (effects r))) in H.
  vm_compute in H. discriminate H.
Qed.

Lemma on_receive_lines
  (unicode_lower : text -> text) (data : list byte) (s : DahuaCamera) :
  on_receive unicode_lower data s
  = for_each (split crlf (decode_utf8_ignore data)) (receive_line unicode_lower) s.
Proof. reflexivity. Qed.

(** C1.  [on_receive] has no pending buffer: each chunk is decoded and cut
    into lines on its own.  A stream handed over in two chunks has the same
    outcome (effects, camera, result) as the stream handed over in one chunk
    when the cut falls right after or right before a line terminator. *)
Theorem chunk_boundary_at_terminator
  (unicode_lower : text -> text) (self : DahuaCamera) (a b : list byte) :
  deliver unicode_lower [a ++ crlf_bytes; b] self
  = deliver unicode_lower [a ++ crlf_bytes ++ b] self
  /\
  deliver unicode_lower [a; crlf_bytes ++ b] self
  = deliver unicode_lower [a ++ crlf_bytes ++ b] self.
Proof.
  set (rl := receive_line unicode_lower).
  set (la := split crlf (decode_utf8_ignore a)).
  set (lb := split crlf (decode_utf8_ignore b)).
  assert (Hwhole : deliver unicode_lower [a ++ crlf_bytes ++ b] self
                   = bind (for_each la rl) (fun _ => for_each lb rl) self).
  { unfold deliver. cbn [for_each]. rewrite bind_ret_r, on_receive_lines.
    rewrite decode_crlf_app, split_crlf_app. apply for_each_app. }
  rewrite Hwhole. unfold deliver. cbn [for_each]. split.
  - rewrite (bind_cong_l _ (for_each la rl) _ self).
    + apply bind_ext. intros _ s'. rewrite bind_ret_r. reflexivity.
    + rewrite on_receive_lines, decode_crlf_end.
      rewrite <- (app_nil_r (decode_utf8_ignore a ++ crlf)), <- app_assoc.
      rewrite split_crlf_app, split_crlf_nil. fold la. fold rl.
      unfold rl. rewrite receive_lines_skip_empty, app_nil_r. reflexivity.
  - apply bind_ext. intros _ s'. rewrite bind_ret_r, on_receive_lines.
    change (crlf_bytes ++ b) with ([] ++ crlf_bytes ++ b).
    rewrite decode_crlf_app. cbn [decode_utf8_ignore app].
    change (13 :: 10 :: decode_utf8_ignore b) with (crlf ++ decode_utf8_ignore b).
    rewrite split_crlf_hit. fold lb.
    apply (receive_lines_skip_empty unicode_lower [] lb s').
Qed.

(* ===================================================================== *)
(** ** The worker: the failing wait                                        *)
(* ===================================================================== *)

Lemma get_obj_bind {B} (i : nat) (k : DahuaMQTT -> M World B) (w : World) :
  bind (get_obj i) k w = k (objs w i) w.
Proof.
  unfold get_obj. rewrite bind_assoc, bind_get, bind_ret_l. reflexivity.
Qed.

Lemma with_obj_same (w : World) (i : nat) (o : DahuaMQTT) :
  objs (with_obj w i o) i = o.
Proof. cbn. rewrite Nat.eqb_refl. reflexivity. Qed.

Lemma with_obj_other (w : World) (i j : nat) (o : DahuaMQTT) :
  j <> i -> objs (with_obj w i o) j = objs w j.
Proof. intros H. cbn. apply Nat.eqb_neq in H. rewrite H. reflexivity. Qed.

Lemma not_in_existsb (name : string) (names : list string) :
  ~ In name names -> existsb (String.eqb name) names = false.
Proof.
  intros H. destruct (existsb (String.eqb name) names) eqn:E; [|reflexivity].
  apply existsb_exists in E. destruct E as (x & Hx & Heq).
  apply String.eqb_eq in Heq. subst x. contradiction.
Qed.

(** A worker that has finished takes no further step. *)
Lemma finished_worker_stays
  (unicode_lower : text -> text) (hass_attrs : list string)
  (w : World) (i : nat) (died : option exn) (inp : curl_input) :
  proc (objs w i) = Some (Finished died) ->
  worker_step unicode_lower hass_attrs i inp w = (w, []).
Proof. intros H. unfold worker_step. rewrite H. reflexivity. Qed.

(** C9.  When the framework base class provides no [on_timer], a worker
    that stands at [select] and is not asked to stop dies of
    [AttributeError] as soon as [select] returns [-1]: it logs nothing, not
    even [Thread exited], and takes no further step.  With any other result
    of [select] it goes on to the inner loop. *)
Theorem select_failure_kills_worker
  (unicode_lower : text -> text) (hass_attrs : list string)
  (w : World) (i : nat) (inp : curl_input) :
  ~ In "on_timer"%string hass_attrs ->
  proc (objs w i) = Some (Running AtSelect) ->
  kill_thread (objs w i) = false ->
  let r := worker_step unicode_lower hass_attrs i inp w in
  (in_select inp = (-1)%Z ->
     proc (objs (fst r) i) = Some (Finished (Some (AttributeError "on_timer")))
     /\ snd r = []
     /\ forall inp', worker_step unicode_lower hass_attrs i inp' (fst r)
                     = (fst r, []))
  /\
  (in_select inp <> (-1)%Z ->
     proc (objs (fst r) i) = Some (Running AtPerform)).
Proof.
  intros Hno Hproc Hkill r. subst r. split.
  - intros Hsel.
    assert (Hstep : worker_step unicode_lower hass_attrs i inp w
                    = (with_obj w i (set_proc (objs w i)
                         (Finished (Some (AttributeError "on_timer")))), [])).
    { unfold worker_step. rewrite Hproc.
      unfold thread_process. rewrite get_obj_bind, Hkill, Hsel.
      cbn [Z.eqb Pos.eqb].
      unfold call_on_timer. rewrite (not_in_existsb _ _ Hno).
      rewrite (bind_raise _ _ w (AttributeError "on_timer") eq_refl).
      reflexivity. }
    rewrite Hstep. cbn [fst snd]. rewrite with_obj_same.
    split; [reflexivity|]. split; [reflexivity|].
    intros inp'.
    apply (finished_worker_stays _ _ _ _ (Some (AttributeError "on_timer"))).
    rewrite with_obj_same. reflexivity.
  - intros Hsel. apply Z.eqb_neq in Hsel.
    unfold worker_step. rewrite Hproc.
    unfold thread_process. rewrite get_obj_bind, Hkill, Hsel.
    cbn [fst snd ret]. rewrite with_obj_same. reflexivity.
Qed.

Lemma select_failure_kills_worker_witness :
  proc (objs (fst (worker_step (fun s => s) [] 0 select_failed waiting_world)) 0)
  = Some (Finished (Some (AttributeError "on_timer"))).
Proof.
  refine (proj1 (proj1 (select_failure_kills_worker (fun s => s) [] waiting_world
                          0 select_failed _ _ _) eq_refl)).
  - intros H. destruct H.
  - vm_compute. reflexivity.
  - vm_compute. reflexivity.
Defined.

(* ===================================================================== *)
(** ** Class attributes and instance attributes                            *)
(* ===================================================================== *)

Lemma list_set_app_last {A} (l : list A) (x y : A) :
  list_set (l ++ [x]) (length l) y = l ++ [y].
Proof.
  induction l as [|z l IH]; simpl; [reflexivity|]. rewrite IH. reflexivity.
Qed.

Lemma nth_error_app_last {A} (l : list A) (x : A) :
  nth_error (l ++ [x]) (length l) = Some x.
Proof. induction l as [|z l IH]; simpl; [reflexivity|]. exact IH. Qed.

Lemma fresh_not_registered (w : World) :
  fresh_handles w ->
  handle_in (length (curl_objects w)) (curl_multiobj w) = false.
Proof.
  unfold fresh_handles, handle_in. intros H.
  destruct (existsb _ _) eqn:E; [|reflexivity].
  apply existsb_exists in E. destruct E as (h & Hin & Heq).
  apply Nat.eqb_eq in Heq. rewrite Forall_forall in H. apply H in Hin. lia.
Qed.

Lemma initialize_camera_fresh (i : nat) (cfg : CameraConfig) (w : World) :
  handle_in (length (curl_objects w)) (curl_multiobj w) = false ->
  initialize_camera i cfg w =
  Result [AddHandle (length (curl_objects w))]
    {| cameras := cameras w ++ [registered cfg (length (curl_objects w))];
       curl_multiobj := curl_multiobj w ++ [length (curl_objects w)];
       curl_objects := curl_objects w ++
         [{| opt_url := URL_TEMPLATE cfg;
             opt_userpwd := user cfg ++ txt ":" ++ pass cfg |}];
       clock := clock w; ticks := ticks w;
       objs := fun j => if Nat.eqb j i
                        then set_num_curlobj (objs w i) (num_curlobj (objs w i) + 1)%Z
                        else objs w j |}
    (inr tt).
Proof.
  intros H. unfold initialize_camera.
  unfold new_curl, update_camera, on_camera, setopts, add_handle, get_obj, set_obj.
  unfold bind, get, put, ret, emit. cbn -[txt URL_TEMPLATE].
  rewrite nth_error_app_last. cbn -[txt URL_TEMPLATE].
  unfold handle_in in H. rewrite H. cbn -[txt URL_TEMPLATE].
  rewrite !list_set_app_last. reflexivity.
Qed.

Lemma initialize_loop (i : nat) (cfgs : list CameraConfig) :
  forall w, fresh_handles w ->
  let r := for_each cfgs (initialize_camera i) w in
  value r = inr tt
  /\ effects r = List.map AddHandle (seq (length (curl_objects w)) (length cfgs))
  /\ initialized i cfgs w (state_of r).
Proof.
  induction cfgs as [|cfg cfgs IH]; intros w Hf; cbn zeta.
  - cbn [for_each ret value effects state_of length seq List.map].
    split; [reflexivity|]. split; [reflexivity|].
    constructor; cbn [registered_from length seq]; rewrite ?app_nil_r, ?Nat.add_0_r, ?Z.add_0_r;
      try reflexivity; exact Hf.
  - pose proof (initialize_camera_fresh i cfg w (fresh_not_registered w Hf)) as H1.
    set (w1 := {| cameras := _; curl_multiobj := _; curl_objects := _;
                  clock := _; ticks := _; objs := _ |}) in H1.
    assert (Hr : for_each (cfg :: cfgs) (initialize_camera i) w
                 = Result ([AddHandle (length (curl_objects w))]
                           ++ effects (for_each cfgs (initialize_camera i) w1))
                          (state_of (for_each cfgs (initialize_camera i) w1))
                          (value (for_each cfgs (initialize_camera i) w1))).
    { cbn [for_each]. unfold bind. rewrite H1.
      destruct (for_each cfgs (initialize_camera i) w1); reflexivity. }
    rewrite Hr. clear Hr H1.
    assert (Hf1 : fresh_handles w1).
    { unfold fresh_handles, w1. cbn [curl_multiobj curl_objects].
      rewrite length_app. cbn [length]. apply Forall_app. split.
      - eapply Forall_impl; [|exact Hf]. cbn beta. intros; lia.
      - constructor; [lia | constructor]. }
    specialize (IH w1 Hf1). cbn zeta in IH.
    destruct (for_each cfgs (initialize_camera i) w1) as [es w2 v].
    cbn [value effects state_of] in *.
    destruct IH as (-> & -> & Hi). destruct Hi.
    assert (Hlen : length (curl_objects w1) = S (length (curl_objects w))).
    { unfold w1. cbn [curl_objects]. rewrite length_app. cbn [length]. lia. }
    rewrite Hlen in *.
    split; [reflexivity|]. split; [reflexivity|].
    constructor; cbn [registered_from length seq].
    + rewrite init_cameras0. unfold w1. cbn [cameras].
      rewrite <- app_assoc. reflexivity.
    + rewrite init_multi0. unfold w1. cbn [curl_multiobj].
      rewrite <- app_assoc. reflexivity.
    + lia.
    + rewrite init_clock0. reflexivity.
    + rewrite init_ticks0. reflexivity.
    + intros j Hj. rewrite (init_others0 j Hj). unfold w1. cbn [objs].
      apply Nat.eqb_neq in Hj. rewrite Hj. reflexivity.
    + rewrite init_counter0. unfold w1. cbn [objs]. rewrite Nat.eqb_refl.
      cbn [num_curlobj set_num_curlobj num_curlobj_attr]. lia.
    + rewrite init_args0. unfold w1. cbn [objs]. rewrite Nat.eqb_refl. reflexivity.
    + rewrite init_proc0. unfold w1. cbn [objs]. rewrite Nat.eqb_refl. reflexivity.
    + rewrite init_kill0. unfold w1. cbn [objs]. rewrite Nat.eqb_refl. reflexivity.
    + exact init_fresh0.
Qed.

Lemma initialize_fresh (i : nat) (w : World) :
  fresh_handles w ->
  let cfgs := args_cameras (objs w i) in
  let r := initialize i w in
  value r = inr tt
  /\ effects r = List.map AddHandle (seq (length (curl_objects w)) (length cfgs))
                 ++ [Log LogStartingThread]
  /\ exists w1, initialized i cfgs w w1
       /\ state_of r = with_obj w1 i (set_proc (objs w1 i) (Running AtStartup)).
Proof.
  intros Hf cfgs r. subst r. unfold initialize. rewrite get_obj_bind. fold cfgs.
  destruct (initialize_loop i cfgs w Hf) as (Hv & He & Hi).
  rewrite (bind_total _ _ w tt Hv). rewrite He.
  set (w1 := state_of (for_each cfgs (initialize_camera i) w)) in *.
  unfold bind, emit, get_obj, set_obj, get, put, ret.
  cbn [effects state_of value app].
  split; [reflexivity|]. split; [reflexivity|].
  exists w1. split; [exact Hi | reflexivity].
Qed.

Lemma terminate_alive (i : nat) (w : World) (at_ : pc) :
  proc (objs w i) = Some (Running at_) ->
  terminate i w =
  Result [Log LogKillingThread] (with_obj w i (set_kill_thread (objs w i) true))
         (inr tt).
Proof.
  intros H. unfold terminate. rewrite get_obj_bind, H.
  unfold bind, emit, set_obj, get, put, ret. reflexivity.
Qed.

(** [self.kill_thread = True] writes the instance: the other app keeps
    reading the class attribute, [False].  The two counters are apart too:
    each app counts one handle while the stack holds two. *)
Lemma kill_thread_is_per_instance :
  ~ kill_thread_is_shared two_apps_world 0 1.
Proof.
  unfold kill_thread_is_shared. intros H.
  assert (E : kill_thread (objs (state_of (terminate 0 two_apps_world)) 1) = false)
    by (vm_compute; reflexivity).
  rewrite H in E; [discriminate E|]. vm_compute. reflexivity.
Qed.

Example num_curlobj_is_per_instance :
  num_curlobj (objs two_apps_world 0) = 1%Z
  /\ num_curlobj (objs two_apps_world 1) = 1%Z
  /\ curl_multiobj two_apps_world = [0%nat; 1%nat]
  /\ length (cameras two_apps_world) = 2%nat.
Proof. vm_compute. repeat split. Qed.

(** C8.  The list [cameras] and the [CurlMulti] are objects bound to the
    class and changed in place: [initialize] on one object appends its
    cameras to the list and adds its handles to the stack that every other
    object reads.  [num_curlobj] and [kill_thread] are class attributes only
    as initial values: [self.num_curlobj += 1] and [self.kill_thread = True]
    write the instance, so [initialize] counts the handles of its own object
    and [terminate] sets the flag of its own object, and the attributes of
    another object [j] stay as they are. *)
Theorem class_level_sharing (w : World) (i j : nat) :
  j <> i ->
  fresh_handles w ->
  let cfgs := args_cameras (objs w i) in
  let w1 := state_of (initialize i w) in
  let w2 := state_of (terminate i w1) in
  cameras w1 = cameras w ++ registered_from (length (curl_objects w)) cfgs
  /\ curl_multiobj w1
     = curl_multiobj w ++ seq (length (curl_objects w)) (length cfgs)
  /\ num_curlobj (objs w1 i)
     = (num_curlobj (objs w i) + Z.of_nat (length cfgs))%Z
  /\ objs w1 j = objs w j
  /\ kill_thread (objs w2 i) = true
  /\ objs w2 j = objs w1 j
  /\ cameras w2 = cameras w1
  /\ curl_multiobj w2 = curl_multiobj w1.
Proof.
  intros Hij Hf cfgs w1 w2.
  destruct (initialize_fresh i w Hf) as (_ & _ & w0 & Hi & Hs).
  fold w1 in Hs. destruct Hi.
  assert (Hp : proc (objs w1 i) = Some (Running AtStartup)).
  { rewrite Hs, with_obj_same. reflexivity. }
  assert (H2 : w2 = with_obj w1 i (set_kill_thread (objs w1 i) true)).
  { unfold w2. rewrite (terminate_alive i w1 AtStartup Hp). reflexivity. }
  repeat split.
  - rewrite Hs. exact init_cameras0.
  - rewrite Hs. exact init_multi0.
  - rewrite Hs, with_obj_same. exact init_counter0.
  - rewrite Hs, (with_obj_other _ _ _ _ Hij). apply init_others0. exact Hij.
  - rewrite H2, with_obj_same. reflexivity.
  - rewrite H2. apply with_obj_other. exact Hij.
  - rewrite H2. reflexivity.
  - rewrite H2. reflexivity.
Qed.

(** The second app starts and stops while the first one is running: the
    first one sees two cameras and two handles, and its own flag and counter
    are untouched. *)
Lemma class_level_sharing_witness :
  let w := fst (run (fun s => s) [] [EvInitialize 0]
                    (boot steady_clock two_apps_args)) in
  let w2 := state_of (terminate 1 (state_of (initialize 1 w))) in
  length (cameras w) = 1%nat
  /\ length (cameras w2) = 2%nat
  /\ curl_multiobj w2 = [0%nat; 1%nat]
  /\ kill_thread (objs w2 1) = true
  /\ kill_thread (objs w2 0) = false
  /\ num_curlobj (objs w2 0) = 1%Z.
Proof.
  intros w w2.
  assert (Hne : 0%nat <> 1%nat) by discriminate.
  assert (Hf : fresh_handles w).
  { unfold fresh_handles. vm_compute. repeat constructor. }
  destruct (class_level_sharing w 1 0 Hne Hf)
    as (Hc & Hm & _ & Ho1 & Hk & Ho2 & Hc2 & Hm2).
  fold w2 in Hk, Ho2, Hc2, Hm2.
  split; [reflexivity|].
  split; [rewrite Hc2, Hc; reflexivity|].
  split; [rewrite Hm2, Hm; reflexivity|].
  split; [exact Hk|].
  split; [rewrite Ho2, Ho1; reflexivity | rewrite Ho2, Ho1; reflexivity].
Defined.

(* ===================================================================== *)
(** ** The worker: losing a camera and arming it again                     *)
(* ===================================================================== *)

Lemma length_list_set {A} (l : list A) (i : nat) (x : A) :
  length (list_set l i x) = length l.
Proof.
  revert i. induction l as [|y l IH]; intros [|i]; simpl; try reflexivity.
  rewrite IH. reflexivity.
Qed.

Lemma nth_error_list_set_same {A} (l : list A) (i : nat) (x y : A) :
  nth_error l i = Some y -> nth_error (list_set l i x) i = Some x.
Proof.
  revert i. induction l as [|z l IH]; intros [|i]; simpl; try discriminate.
  - reflexivity.
  - apply IH.
Qed.

Lemma nth_error_list_set_other {A} (l : list A) (i j : nat) (x : A) :
  j <> i -> nth_error (list_set l i x) j = nth_error l j.
Proof.
  revert i j. induction l as [|z l IH]; intros [|i] [|j] H; simpl;
    try reflexivity; try congruence.
  apply IH. congruence.
Qed.

Lemma list_set_twice {A} (l : list A) (i : nat) (x y : A) :
  list_set (list_set l i x) i y = list_set l i y.
Proof.
  revert i. induction l as [|z l IH]; intros [|i]; simpl; try reflexivity.
  rewrite IH. reflexivity.
Qed.

Lemma find_first_nth {A} (p : A -> bool) (l : list A) (i : nat) (x : A) :
  find_first p l = Some (i, x) -> nth_error l i = Some x /\ p x = true.
Proof.
  revert i. induction l as [|y l IH]; intros i; simpl; [discriminate|].
  destruct (p y) eqn:E.
  - intros [= <- <-]. split; [reflexivity | exact E].
  - destruct (find_first p l) as [[k z]|]; [|discriminate].
    intros [= <- <-]. apply IH. reflexivity.
Qed.

Lemma next_camera_found (h : handle) (w : World) (ic : nat * DahuaCamera) :
  find_first (curlobj_is h) (cameras w) = Some ic ->
  next_camera h w = Result [] w (inr ic).
Proof. intros H. unfold next_camera. rewrite bind_get, H. reflexivity. Qed.

Lemma next_camera_missing (h : handle) (w : World) :
  find_first (curlobj_is h) (cameras w) = None ->
  next_camera h w = Result [] w (inl StopIteration).
Proof. intros H. unfold next_camera. rewrite bind_get, H. reflexivity. Qed.

Lemma disconnect_camera_at
  (w : World) (pos : nat) (c : DahuaCamera) (reason : disconnect_reason) :
  nth_error (cameras w) pos = Some c ->
  disconnect_camera pos reason w =
  Result [Log (LogOnDisconnect (host (camera c)) reason)]
         (ticked (with_cameras w
                    (list_set (cameras w) pos (lost c (clock w (ticks w))))))
         (inr tt).
Proof.
  intros Hc. unfold disconnect_camera, update_camera, on_camera, on_disconnect,
    time_time. unfold bind, get, put, emit, ret. cbn. rewrite Hc. cbn.
  rewrite (nth_error_list_set_same (cameras w) pos (set_connected c (Some false)) c Hc).
  cbn.
  rewrite list_set_twice. reflexivity.
Qed.

Lemma Qltb_true (x y : Q) : (x < y)%Q -> Qltb x y = true.
Proof.
  intros H. unfold Qltb. destruct (Qle_bool y x) eqn:E; [|reflexivity].
  apply Qle_bool_iff in E. apply Qlt_not_le in H. contradiction.
Qed.

Lemma Qltb_false (x y : Q) : (y <= x)%Q -> Qltb x y = false.
Proof.
  intros H. unfold Qltb. apply Qle_bool_iff in H. rewrite H. reflexivity.
Qed.

(** *** The rounding of the deadline *)

Lemma round_half_even_floor (y : Q) :
  (Qnum y / Zpos (Qden y) <= round_half_even y)%Z.
Proof.
  unfold round_half_even.
  destruct (2 * (Qnum y mod Z.pos (Qden y)) ?= Z.pos (Qden y))%Z; try lia.
  destruct (Z.even _); lia.
Qed.

Lemma round_half_even_pos (y : Q) : (1 <= y)%Q -> (1 <= round_half_even y)%Z.
Proof.
  intros H. eapply Z.le_trans; [|apply round_half_even_floor].
  unfold Qle in H. cbn in H.
  apply Z.div_le_lower_bound; lia.
Qed.

(** The rounded integer is within one half of the rational. *)
Lemma round_half_even_near (y : Q) :
  (y - (1 # 2) <= inject_Z (round_half_even y))%Q
  /\ (inject_Z (round_half_even y) <= y + (1 # 2))%Q.
Proof.
  destruct y as [n d]. unfold round_half_even. cbn [Qnum Qden].
  pose proof (Z.div_mod n (Z.pos d) ltac:(lia)) as Hdm.
  pose proof (Z.mod_pos_bound n (Z.pos d) ltac:(lia)) as Hr.
  set (q := (n / Z.pos d)%Z) in *. set (r := (n mod Z.pos d)%Z) in *.
  assert (G : forall m : Z,
            (2 * (n - m * Z.pos d) <= Z.pos d)%Z ->
            (2 * (m * Z.pos d - n) <= Z.pos d)%Z ->
            ((n # d) - (1 # 2) <= inject_Z m)%Q
            /\ (inject_Z m <= (n # d) + (1 # 2))%Q).
  { intros m H1 H2. unfold Qle, Qminus, Qplus, Qopp, inject_Z. cbn.
    rewrite Pos2Z.inj_mul. change (Z.neg d) with (- Z.pos d)%Z.
    clear Hdm Hr. split; lia. }
  clearbody q r.
  assert (E1 : (n - q * Z.pos d = r)%Z) by (rewrite Hdm; ring).
  assert (E2 : (q * Z.pos d - n = - r)%Z) by (rewrite Hdm; ring).
  assert (E3 : (n - (q + 1) * Z.pos d = r - Z.pos d)%Z) by (rewrite Hdm; ring).
  assert (E4 : ((q + 1) * Z.pos d - n = Z.pos d - r)%Z) by (rewrite Hdm; ring).
  destruct (2 * r ?= Z.pos d)%Z eqn:C.
  - apply Z.compare_eq in C.
    destruct (Z.even q); apply G; rewrite ?E1, ?E2, ?E3, ?E4; lia.
  - change (2 * r < Z.pos d)%Z in C. apply G; rewrite ?E1, ?E2; lia.
  - change (2 * r > Z.pos d)%Z in C. apply G; rewrite ?E3, ?E4; lia.
Qed.

Lemma Qpow2_pos (k : Z) : (0 < 2 ^ k)%Q.
Proof. apply Qpower_0_lt. reflexivity. Qed.

Lemma Qpow2_inject (a : Z) : (0 <= a)%Z -> (inject_Z (2 ^ a) == 2 ^ a)%Q.
Proof. intros H. rewrite (Zpower_Qpower 2 a H). reflexivity. Qed.

(** [binade] gives the power of two at or below a positive rational. *)
Lemma binade_lower (x : Q) : (0 < x)%Q -> (2 ^ binade x <= x)%Q.
Proof.
  intros Hx. unfold binade.
  set (a := Z.log2 (Qnum x)). set (b := Z.log2 (Z.pos (Qden x))).
  destruct (Qle_bool (2 ^ (a - b)) x) eqn:E.
  - apply Qle_bool_iff. exact E.
  - assert (Hn : (0 < Qnum x)%Z).
    { unfold Qlt in Hx. cbn in Hx. lia. }
    destruct (Z.log2_spec (Qnum x) Hn) as [Ha _].
    destruct (Z.log2_spec (Z.pos (Qden x)) (Pos2Z.is_pos _)) as [_ Hb].
    fold a in Ha. fold b in Hb.
    assert (Ha0 : (0 <= a)%Z) by apply Z.log2_nonneg.
    assert (Hb0 : (0 <= b)%Z) by apply Z.log2_nonneg.
    replace (a - b - 1)%Z with (a - (b + 1))%Z by lia.
    rewrite Qpower_minus by discriminate.
    rewrite <- (Qpow2_inject a Ha0), <- (Qpow2_inject (b + 1)) by lia.
    apply Qle_shift_div_r.
    { change 0%Q with (inject_Z 0). rewrite <- Zlt_Qlt. lia. }
    destruct x as [n d]. unfold Qle, Qmult, inject_Z. cbn [Qnum Qden] in *.
    rewrite Z.mul_1_r, Pos.mul_1_r.
    apply Z.le_trans with (n * Z.pos d)%Z.
    + apply Z.mul_le_mono_nonneg_r; lia.
    + apply Z.mul_le_mono_nonneg_l; lia.
Qed.

(** And the next power of two is above it. *)
Lemma binade_upper (x : Q) : (0 < x)%Q -> (x < 2 ^ (binade x + 1))%Q.
Proof.
  intros Hx. unfold binade.
  set (a := Z.log2 (Qnum x)). set (b := Z.log2 (Z.pos (Qden x))).
  destruct (Qle_bool (2 ^ (a - b)) x) eqn:E.
  - assert (Hn : (0 < Qnum x)%Z).
    { unfold Qlt in Hx. cbn in Hx. lia. }
    destruct (Z.log2_spec (Qnum x) Hn) as [_ Ha].
    destruct (Z.log2_spec (Z.pos (Qden x)) (Pos2Z.is_pos _)) as [Hb _].
    fold a in Ha. fold b in Hb.
    assert (Ha0 : (0 <= a)%Z) by apply Z.log2_nonneg.
    assert (Hb0 : (0 <= b)%Z) by apply Z.log2_nonneg.
    replace (a - b + 1)%Z with ((a + 1) - b)%Z by lia.
    rewrite Qpower_minus by discriminate.
    rewrite <- (Qpow2_inject (a + 1)), <- (Qpow2_inject b) by lia.
    apply Qlt_shift_div_l.
    { change 0%Q with (inject_Z 0). rewrite <- Zlt_Qlt. lia. }
    destruct x as [n d]. unfold Qlt, Qmult, inject_Z. cbn [Qnum Qden] in *.
    rewrite Z.mul_1_r, Pos.mul_1_r.
    apply Z.le_lt_trans with (n * Z.pos d)%Z.
    + apply Z.mul_le_mono_nonneg_l; lia.
    + apply Z.mul_lt_mono_pos_r; lia.
  - replace (a - b - 1 + 1)%Z with (a - b)%Z by lia.
    apply Qnot_le_lt. intros H. apply Qle_bool_iff in H. congruence.
Qed.

Lemma Qabs_of_pos (x : Q) : (0 < x)%Q -> Qabs x = x.
Proof.
  intros Hx. destruct x as [[|n|n] d]; try reflexivity; discriminate Hx.
Qed.

(** A positive rational rounds to a positive double. *)
Lemma round_binary64_pos (x : Q) : (0 < x)%Q -> (0 < round_binary64 x)%Q.
Proof.
  intros Hx. unfold round_binary64.
  destruct (Qeq_bool x 0) eqn:E.
  { apply Qeq_bool_iff in E. rewrite E in Hx. discriminate Hx. }
  rewrite (Qabs_of_pos x Hx). set (ulp := (2 ^ (binade x - 52))%Q).
  assert (Hulp : (0 < ulp)%Q) by apply Qpow2_pos.
  assert (Hle : (ulp <= x)%Q).
  { apply Qle_trans with (2 ^ binade x)%Q; [|apply binade_lower, Hx].
    apply Qpower_le_compat_l; [lia | discriminate]. }
  assert (Hy : (1 <= x / ulp)%Q).
  { apply Qle_shift_div_l; [exact Hulp|]. rewrite Qmult_1_l. exact Hle. }
  apply round_half_even_pos in Hy.
  rewrite Qred_correct.
  apply Qmult_lt_0_compat; [|exact Hulp].
  change 0%Q with (inject_Z 0). rewrite <- Zlt_Qlt. lia.
Qed.

(** The double of a positive rational is a significand between [2^52] and
    [2^53] times the unit in the last place of its binade. *)
Lemma round_binary64_significand (x : Q) :
  (0 < x)%Q ->
  let m := round_half_even (x / 2 ^ (binade x - 52))%Q in
  (round_binary64 x == inject_Z m * 2 ^ (binade x - 52))%Q
  /\ (2 ^ 52 <= m <= 2 ^ 53)%Z.
Proof.
  intros Hx m. split.
  - unfold round_binary64.
    destruct (Qeq_bool x 0) eqn:E.
    { apply Qeq_bool_iff in E. rewrite E in Hx. discriminate Hx. }
    rewrite (Qabs_of_pos x Hx), Qred_correct. reflexivity.
  - subst m. set (ulp := (2 ^ (binade x - 52))%Q).
    assert (Hulp : (0 < ulp)%Q) by apply Qpow2_pos.
    assert (Hnz : ~ (ulp == 0)%Q).
    { intros H0. rewrite H0 in Hulp. discriminate Hulp. }
    assert (Hlo : (ulp * inject_Z (2 ^ 52) <= x)%Q).
    { apply Qle_trans with (2 ^ binade x)%Q; [|apply binade_lower, Hx].
      rewrite (Qpow2_inject 52) by lia.
      unfold ulp. rewrite <- Qpower_plus by discriminate.
      replace (binade x - 52 + 52)%Z with (binade x) by lia. apply Qle_refl. }
    assert (Hhi : (x < ulp * inject_Z (2 ^ 53))%Q).
    { apply Qlt_le_trans with (2 ^ (binade x + 1))%Q; [apply binade_upper, Hx|].
      rewrite (Qpow2_inject 53) by lia.
      unfold ulp. rewrite <- Qpower_plus by discriminate.
      replace (binade x - 52 + 53)%Z with (binade x + 1)%Z by lia.
      apply Qle_refl. }
    assert (Hy1 : (inject_Z (2 ^ 52) <= x / ulp)%Q).
    { apply Qle_shift_div_l; [exact Hulp|]. rewrite Qmult_comm. exact Hlo. }
    assert (Hy2 : (x / ulp < inject_Z (2 ^ 53))%Q).
    { apply Qlt_shift_div_r; [exact Hulp|]. rewrite Qmult_comm. exact Hhi. }
    set (y := (x / ulp)%Q) in *.
    pose proof (round_half_even_floor y) as Hfl.
    assert (Hf1 : (2 ^ 52 <= Qnum y / Z.pos (Qden y))%Z).
    { apply Z.div_le_lower_bound; [lia|].
      unfold Qle, inject_Z in Hy1. cbn [Qnum Qden] in Hy1. lia. }
    assert (Hf2 : (Qnum y / Z.pos (Qden y) < 2 ^ 53)%Z).
    { apply Z.div_lt_upper_bound; [lia|].
      unfold Qlt, inject_Z in Hy2. cbn [Qnum Qden] in Hy2. lia. }
    split; [lia|].
    unfold round_half_even in *.
    destruct (2 * (Qnum y mod Z.pos (Qden y)) ?= Z.pos (Qden y))%Z; try lia.
    destruct (Z.even _); lia.
Qed.

(** The double is within the relative distance [2^-53] of the rational. *)
Lemma round_binary64_near (x : Q) :
  (0 < x)%Q ->
  (x * (1 - (1 # 9007199254740992)) <= round_binary64 x)%Q
  /\ (round_binary64 x <= x * (1 + (1 # 9007199254740992)))%Q.
Proof.
  intros Hx. unfold round_binary64.
  destruct (Qeq_bool x 0) eqn:E.
  { apply Qeq_bool_iff in E. rewrite E in Hx. discriminate Hx. }
  rewrite (Qabs_of_pos x Hx). set (ulp := (2 ^ (binade x - 52))%Q).
  assert (Hulp : (0 < ulp)%Q) by apply Qpow2_pos.
  assert (Hle : (ulp * (4503599627370496 # 1) <= x)%Q).
  { apply Qle_trans with (2 ^ binade x)%Q; [|apply binade_lower, Hx].
    change (4503599627370496 # 1)%Q with (2 ^ 52)%Q.
    unfold ulp. rewrite <- Qpower_plus by discriminate.
    replace (binade x - 52 + 52)%Z with (binade x) by lia. apply Qle_refl. }
  destruct (round_half_even_near (x / ulp)%Q) as [H1 H2].
  set (m := inject_Z (round_half_even (x / ulp)%Q)) in *.
  rewrite Qred_correct.
  assert (Hy : (x / ulp * ulp == x)%Q).
  { field. intros H0. rewrite H0 in Hulp. discriminate Hulp. }
  assert (A1 : (x - (1 # 2) * ulp <= m * ulp)%Q).
  { rewrite <- Hy at 1.
    setoid_replace (x / ulp * ulp - (1 # 2) * ulp)%Q
      with ((x / ulp - (1 # 2)) * ulp)%Q by ring.
    apply Qmult_le_r; assumption. }
  assert (A2 : (m * ulp <= x + (1 # 2) * ulp)%Q).
  { rewrite <- Hy at 1.
    setoid_replace (x / ulp * ulp + (1 # 2) * ulp)%Q
      with ((x / ulp + (1 # 2)) * ulp)%Q by ring.
    apply Qmult_le_r; assumption. }
  split; lra.
Qed.

Lemma float_add_pos (t : Q) : (0 <= t)%Q -> (0 < float_add t 5)%Q.
Proof.
  intros H. apply round_binary64_pos. lra.
Qed.

(** The sum of 100 and 5 is exact.  The sum of [9007199242158083 * 2^-22]
    and 5 crosses [2^31], where the spacing of the doubles goes from
    [2^-22] to [2^-21]: the exact sum is half way between two doubles and
    the deadline is the upper one, [4503599631564802 * 2^-21]. *)
Example float_add_examples :
  float_add 100 5 = 105%Q
  /\ (float_add (9007199242158083 # 4194304) 5
      == 4503599631564802 # 2097152)%Q
  /\ ((9007199242158083 # 4194304) + 5
      < float_add (9007199242158083 # 4194304) 5)%Q.
Proof. vm_compute. repeat split. Qed.

(** A deadline computed from a non-negative clock reading is a true value. *)
Lemma deadline_truthy (t : Q) :
  (0 <= t)%Q -> truthy (Some (float_add t 5)) = true.
Proof.
  intros H. unfold truthy.
  destruct (Qeq_bool (float_add t 5) 0) eqn:E; [|reflexivity].
  apply Qeq_bool_iff in E. pose proof (float_add_pos t H) as Hp.
  rewrite E in Hp. discriminate Hp.
Qed.

Lemma handle_in_In (h : handle) (m : list handle) :
  handle_in h m = true <-> In h m.
Proof.
  unfold handle_in. rewrite existsb_exists. split.
  - intros (x & Hx & E). apply Nat.eqb_eq in E. subst. exact Hx.
  - intros H. exists h. split; [exact H | apply Nat.eqb_refl].
Qed.

Lemma handle_in_filtered (h : handle) (m : list handle) :
  handle_in h (filter (fun h' => negb (Nat.eqb h h')) m) = false.
Proof.
  destruct (handle_in h _) eqn:E; [|reflexivity].
  apply handle_in_In, filter_In in E. destruct E as [_ E].
  rewrite Nat.eqb_refl in E. discriminate E.
Qed.

Lemma sweep_body_not_due (w : World) (pos : nat) (c : DahuaCamera) (d : Q) :
  nth_error (cameras w) pos = Some c ->
  reconnect c = Some d ->
  truthy (Some d) = true ->
  (clock w (ticks w) <= d)%Q ->
  sweep_body pos w = Result [] (ticked w) (inr tt).
Proof.
  intros Hc Hr Ht Hle. unfold sweep_body. rewrite bind_get, Hc, Hr, Ht.
  unfold bind, time_time. rewrite (Qltb_false _ _ Hle). reflexivity.
Qed.

Lemma sweep_body_due
  (w : World) (pos : nat) (c : DahuaCamera) (d : Q) (h : handle) :
  nth_error (cameras w) pos = Some c ->
  reconnect c = Some d ->
  truthy (Some d) = true ->
  (d < clock w (ticks w))%Q ->
  curlobj c = Some h ->
  In h (curl_multiobj w) ->
  sweep_body pos w =
  Result [RemoveHandle h; AddHandle h]
         (with_cameras (with_multi (ticked w) (readded h (curl_multiobj w)))
            (list_set (cameras w) pos (set_reconnect c None)))
         (inr tt).
Proof.
  intros Hc Hr Ht Hlt Hh Hin. unfold sweep_body. rewrite bind_get, Hc, Hr, Ht.
  unfold bind at 1. unfold time_time at 1. rewrite (Qltb_true _ _ Hlt), Hh.
  apply handle_in_In in Hin.
  unfold remove_handle, add_handle, update_camera, on_camera.
  unfold bind, get, put, emit, ret. cbn -[handle_in]. rewrite Hin.
  cbn -[handle_in]. rewrite handle_in_filtered. cbn. rewrite Hc. reflexivity.
Qed.

Lemma error_body_at
  (w : World) (pos : nat) (c : DahuaCamera)
  (h : handle) (errorno : Z) (errorstr : text) :
  find_first (curlobj_is h) (cameras w) = Some (pos, c) ->
  error_body (h, errorno, errorstr) w =
  if truthy (reconnect c) then Result [] w (inr tt)
  else disconnect_camera pos (ReasonError errorstr errorno) w.
Proof.
  intros Hf. unfold error_body.
  rewrite (bind_total _ _ w (pos, c)) by (rewrite (next_camera_found h w _ Hf); reflexivity).
  rewrite (next_camera_found h w _ Hf). cbn [effects state_of fst snd app].
  destruct (truthy (reconnect c)); [reflexivity|].
  destruct (disconnect_camera _ _ w); reflexivity.
Qed.

Lemma success_body_at
  (w : World) (pos : nat) (c : DahuaCamera)
  (h : handle) (error : list (handle * Z * text)) :
  find_first (curlobj_is h) (cameras w) = Some (pos, c) ->
  success_body error h w =
  if truthy (reconnect c) then Result [] w (inr tt)
  else disconnect_camera pos (ReasonSuccess error) w.
Proof.
  intros Hf. unfold success_body.
  rewrite (bind_total _ _ w (pos, c)) by (rewrite (next_camera_found h w _ Hf); reflexivity).
  rewrite (next_camera_found h w _ Hf). cbn [effects state_of fst snd app].
  destruct (truthy (reconnect c)); [reflexivity|].
  destruct (disconnect_camera _ _ w); reflexivity.
Qed.

Example at_deadline_world_clock :
  ticks at_deadline_world = 5%nat
  /\ List.map reconnect (cameras at_deadline_world) = [Some (105 # 1)]
  /\ Qeq (clock at_deadline_world (ticks at_deadline_world)) (105 # 1).
Proof. vm_compute. repeat split. Qed.

(** The sweep compares with [<]: at a clock reading equal to the deadline
    the camera is left waiting. *)
Lemma sweep_at_deadline_waits :
  ~ rearmed_when_deadline_reached at_deadline_world 0%nat.
Proof.
  intros H.
  destruct (H (lost (registered (camera docstring_camera) 0%nat) (100 # 1)) (105 # 1))
    as (c' & Hn & Hr).
  - vm_compute. reflexivity.
  - vm_compute. reflexivity.
  - vm_compute. discriminate.
  - vm_compute in Hn. injection Hn as <-. discriminate Hr.
Qed.

(** C5.  A camera that is not waiting already and whose handle is reported
    finished, in the error list or in the success list, at a clock reading
    [T] that is not negative, is marked disconnected and gets the deadline
    [D], the sum of [T] and 5 as double precision gives it: the double
    nearest to [T + 5], within the relative distance [2^-53] of it.  The
    call touches no handle.  The delay is the constant 5 whatever happened
    before: there is no retry counter and no back-off.  At every later sweep
    whose clock reading is at most [D] the camera and the stack are left
    alone; at a sweep whose reading is greater than [D] the handle is
    removed and added again and the deadline is cleared.  While the camera
    waits, a further report on its handle changes nothing. *)
Theorem reconnect_timing
  (w : World) (pos : nat) (c : DahuaCamera) (h : handle)
  (errorno : Z) (errorstr : text) (error : list (handle * Z * text)) :
  find_first (curlobj_is h) (cameras w) = Some (pos, c) ->
  truthy (reconnect c) = false ->
  (0 <= clock w (ticks w))%Q ->
  let T := clock w (ticks w) in
  let D := float_add T 5 in
  let armed := ticked (with_cameras w (list_set (cameras w) pos (lost c T))) in
  error_body (h, errorno, errorstr) w
  = Result [Log (LogOnDisconnect (host (camera c)) (ReasonError errorstr errorno))]
           armed (inr tt)
  /\ success_body error h w
     = Result [Log (LogOnDisconnect (host (camera c)) (ReasonSuccess error))]
              armed (inr tt)
  /\ nth_error (cameras armed) pos = Some (lost c T)
  /\ reconnect (lost c T) = Some D
  /\ ((T + 5) * (1 - (1 # 9007199254740992)) <= D)%Q
  /\ (D <= (T + 5) * (1 + (1 # 9007199254740992)))%Q
  /\ curl_multiobj armed = curl_multiobj w
  /\ forall (w' : World) (c' : DahuaCamera),
       nth_error (cameras w') pos = Some c' ->
       reconnect c' = Some D ->
       ((clock w' (ticks w') <= D)%Q ->
          sweep_body pos w' = Result [] (ticked w') (inr tt))
       /\
       ((D < clock w' (ticks w'))%Q ->
          forall h', curlobj c' = Some h' -> In h' (curl_multiobj w') ->
          sweep_body pos w'
          = Result [RemoveHandle h'; AddHandle h']
              (with_cameras
                 (with_multi (ticked w') (readded h' (curl_multiobj w')))
                 (list_set (cameras w') pos (set_reconnect c' None)))
              (inr tt))
       /\
       (forall h' errorno' errorstr' error',
          find_first (curlobj_is h') (cameras w') = Some (pos, c') ->
          error_body (h', errorno', errorstr') w' = Result [] w' (inr tt)
          /\ success_body error' h' w' = Result [] w' (inr tt)).
Proof.
  intros Hf Hfalse Hclock T D armed.
  destruct (find_first_nth _ _ _ _ Hf) as [Hnth _].
  assert (Hpos : (0 < T + 5)%Q) by (unfold T; lra).
  split.
  { rewrite (error_body_at w pos c h errorno errorstr Hf), Hfalse.
    apply disconnect_camera_at. exact Hnth. }
  split.
  { rewrite (success_body_at w pos c h error Hf), Hfalse.
    apply disconnect_camera_at. exact Hnth. }
  split.
  { unfold armed, ticked. cbn [cameras with_ticks with_cameras].
    apply (nth_error_list_set_same _ _ _ c Hnth). }
  split; [reflexivity|].
  split; [exact (proj1 (round_binary64_near (T + 5)%Q Hpos))|].
  split; [exact (proj2 (round_binary64_near (T + 5)%Q Hpos))|].
  split; [reflexivity|].
  intros w' c' Hn' Hr'. split; [|split].
  - intros Hle.
    apply (sweep_body_not_due w' pos c' D Hn' Hr' (deadline_truthy T Hclock) Hle).
  - intros Hlt h' Hh' Hin'.
    apply (sweep_body_due w' pos c' D h' Hn' Hr'
             (deadline_truthy T Hclock) Hlt Hh' Hin').
  - intros h' errorno' errorstr' error' Hf'.
    rewrite (error_body_at w' pos c' h' errorno' errorstr' Hf').
    rewrite (success_body_at w' pos c' h' error' Hf').
    rewrite Hr'. unfold D. rewrite (deadline_truthy T Hclock).
    split; reflexivity.
Qed.

Lemma reconnect_timing_witness :
  let w := before_failure_world in
  let c := registered (camera docstring_camera) 0%nat in
  error_body (0%nat, 7%Z, txt "Couldn't connect to server") w
  = Result [Log (LogOnDisconnect (host (camera c))
                   (ReasonError (txt "Couldn't connect to server") 7%Z))]
           (ticked (with_cameras w
                      (list_set (cameras w) 0%nat (lost c (clock w (ticks w))))))
           (inr tt).
Proof.
  intros w c.
  refine (proj1 (reconnect_timing w 0%nat c 0%nat 7%Z
                   (txt "Couldn't connect to server") [] _ _ _)).
  - vm_compute. reflexivity.
  - reflexivity.
  - vm_compute. discriminate.
Defined.

(* ===================================================================== *)
(** ** Relating the state before and after a computation                   *)
(* ===================================================================== *)

Section Respects.

Context {S : Type} (R : S -> S -> Prop).
Hypothesis R_refl : forall s, R s s.
Hypothesis R_trans : forall s1 s2 s3, R s1 s2 -> R s2 s3 -> R s1 s3.

Lemma respects_ret {A} (a : A) : respects R (ret a).
Proof. intros s. apply R_refl. Qed.

Lemma respects_raise {A} (e : exn) : respects R (@raise S A e).
Proof. intros s. apply R_refl. Qed.

Lemma respects_emit (e : effect) : respects R (emit e).
Proof. intros s. apply R_refl. Qed.

Lemma respects_getitem (d : dict) (k : text) : respects R (getitem d k).
Proof.
  unfold getitem. destruct (dict_get d k); [apply respects_ret | apply respects_raise].
Qed.

Lemma respects_bind {A B} (m : M S A) (k : A -> M S B) :
  respects R m -> (forall a, respects R (k a)) -> respects R (bind m k).
Proof.
  intros Hm Hk s. unfold bind. specialize (Hm s).
  destruct (m s) as [es s1 [e|a]]; cbn [state_of] in *; [exact Hm|].
  specialize (Hk a s1). destruct (k a s1) as [es' s2 v]. cbn [state_of] in *.
  eapply R_trans; eassumption.
Qed.

Lemma respects_bind_get {B} (k : S -> M S B) :
  (forall s, R s (state_of (k s s))) -> respects R (bind get k).
Proof. intros H s. rewrite bind_get. apply H. Qed.

Lemma respects_for_each {A} (xs : list A) (body : A -> M S unit) :
  (forall x, In x xs -> respects R (body x)) -> respects R (for_each xs body).
Proof.
  induction xs as [|x xs IH]; intros H; cbn [for_each].
  - apply respects_ret.
  - apply respects_bind.
    + apply H. left. reflexivity.
    + intros _. apply IH. intros y Hy. apply H. right. exact Hy.
Qed.

Lemma respects_try_except {A} (m : M S A) (handler : exn -> M S A) :
  respects R m -> (forall e, respects R (handler e)) ->
  respects R (try_except m handler).
Proof.
  intros Hm Hh s. unfold try_except. specialize (Hm s).
  destruct (m s) as [es s1 [e|a]]; cbn [state_of] in *; [|exact Hm].
  specialize (Hh e s1). destruct (handler e s1) as [es' s2 v].
  cbn [state_of] in *. eapply R_trans; eassumption.
Qed.

End Respects.

(** *** What the write callback may change of a camera: [connected] only *)

Lemma same_but_connected_refl (s : DahuaCamera) : same_but_connected s s.
Proof. repeat split. Qed.

Lemma same_but_connected_trans (s1 s2 s3 : DahuaCamera) :
  same_but_connected s1 s2 -> same_but_connected s2 s3 ->
  same_but_connected s1 s3.
Proof.
  intros (A1 & B1 & C1) (A2 & B2 & C2). repeat split; congruence.
Qed.

Lemma on_alarm_respects (state : dict) :
  respects same_but_connected (on_alarm state).
Proof.
  unfold on_alarm. apply respects_bind_get. intros s.
  apply (respects_bind same_but_connected same_but_connected_trans).
  - apply respects_getitem, same_but_connected_refl.
  - intros code.
    apply (respects_bind same_but_connected same_but_connected_trans).
    + apply respects_getitem, same_but_connected_refl.
    + intros action.
      apply (respects_for_each same_but_connected
               same_but_connected_refl same_but_connected_trans).
      intros item _.
      apply (respects_bind same_but_connected same_but_connected_trans).
      * apply respects_emit, same_but_connected_refl.
      * intros _. apply respects_emit, same_but_connected_refl.
Qed.

Lemma parse_event_respects (alarm : dict) :
  respects same_but_connected (parse_event alarm).
Proof.
  unfold parse_event. apply respects_bind_get. intros s.
  apply (respects_bind same_but_connected same_but_connected_trans).
  - apply respects_getitem, same_but_connected_refl.
  - intros code. destruct (negb _).
    + apply respects_ret, same_but_connected_refl.
    + apply on_alarm_respects.
Qed.

Lemma parse_pairs_respects
  (unicode_lower : text -> text) (keyvals : list text) :
  forall alarm : dict,
  respects same_but_connected
    (@parse_pairs unicode_lower DahuaCamera keyvals alarm).
Proof.
  induction keyvals as [|keyval rest IH]; intros alarm; cbn [parse_pairs].
  - apply respects_ret, same_but_connected_refl.
  - destruct (split (txt "=") keyval) as [|k [|v [|x more]]];
      try (apply respects_raise, same_but_connected_refl).
    apply IH.
Qed.

Lemma on_connect_respects : respects same_but_connected on_connect.
Proof.
  unfold on_connect. apply respects_bind_get. intros s. repeat split.
Qed.

Lemma on_disconnect_respects (reason : disconnect_reason) :
  respects same_but_connected (on_disconnect reason).
Proof.
  unfold on_disconnect. apply respects_bind_get. intros s. repeat split.
Qed.

Lemma receive_line_respects (unicode_lower : text -> text) (line : text) :
  respects same_but_connected (receive_line unicode_lower line).
Proof.
  unfold receive_line.
  apply (respects_bind same_but_connected same_but_connected_trans).
  - destruct (text_eqb _ _).
    + apply on_connect_respects.
    + apply respects_ret, same_but_connected_refl.
  - intros _. destruct (negb _).
    + apply respects_ret, same_but_connected_refl.
    + apply (respects_try_except same_but_connected same_but_connected_trans).
      * apply (respects_bind same_but_connected same_but_connected_trans).
        -- apply parse_pairs_respects.
        -- intros alarm. apply parse_event_respects.
      * intros e. apply respects_emit, same_but_connected_refl.
Qed.

Lemma on_receive_respects (unicode_lower : text -> text) (data : list byte) :
  respects same_but_connected (on_receive unicode_lower data).
Proof.
  unfold on_receive.
  apply (respects_for_each same_but_connected
           same_but_connected_refl same_but_connected_trans).
  intros line _. apply receive_line_respects.
Qed.

(* ===================================================================== *)
(** ** The worker: one relation through all its steps                      *)
(* ===================================================================== *)

Lemma disconnect_camera_none
  (w : World) (pos : nat) (reason : disconnect_reason) :
  nth_error (cameras w) pos = None ->
  disconnect_camera pos reason w = Result [] (ticked w) (inr tt).
Proof.
  intros Hn. unfold disconnect_camera, update_camera, on_camera, time_time.
  unfold bind, get, put, emit, ret. cbn. rewrite Hn. cbn. rewrite Hn.
  reflexivity.
Qed.

(** A relation that the three places where the worker writes go along
    with (a method of a camera that changes [connected] at most, the marking
    of a lost camera, the sweep of one camera) holds between the worlds
    before and after every part of [thread_process]. *)
Section WorkerRespects.

Variable R : World -> World -> Prop.
Hypothesis R_refl : forall w, R w w.
Hypothesis R_trans : forall w1 w2 w3, R w1 w2 -> R w2 w3 -> R w1 w3.
Hypothesis R_on_camera :
  forall pos m, respects same_but_connected m -> respects R (on_camera pos m).
Hypothesis R_disconnect :
  forall pos reason, respects R (disconnect_camera pos reason).
Hypothesis R_sweep_body : forall pos, respects R (sweep_body pos).

Lemma success_body_respects (error : list (handle * Z * text)) (h : handle) :
  respects R (success_body error h).
Proof.
  intros w.
  destruct (find_first (curlobj_is h) (cameras w)) as [[pos c]|] eqn:Hf.
  - rewrite (success_body_at w pos c h error Hf).
    destruct (truthy (reconnect c)).
    + apply R_refl.
    + apply R_disconnect.
  - unfold success_body.
    rewrite (bind_raise _ _ w StopIteration (next_camera_missing h w Hf)).
    apply R_refl.
Qed.

Lemma error_body_respects (item : handle * Z * text) :
  respects R (error_body item).
Proof.
  destruct item as [[h errorno] errorstr]. intros w.
  destruct (find_first (curlobj_is h) (cameras w)) as [[pos c]|] eqn:Hf.
  - rewrite (error_body_at w pos c h errorno errorstr Hf).
    destruct (truthy (reconnect c)).
    + apply R_refl.
    + apply R_disconnect.
  - unfold error_body.
    rewrite (bind_raise _ _ w StopIteration (next_camera_missing h w Hf)).
    apply R_refl.
Qed.

Lemma reconcile_finished_respects (inp : curl_input) :
  respects R (reconcile_finished inp).
Proof.
  unfold reconcile_finished. apply (respects_bind R R_trans).
  - apply (respects_for_each R R_refl R_trans).
    intros h _. apply success_body_respects.
  - intros _. apply (respects_for_each R R_refl R_trans).
    intros item _. apply error_body_respects.
Qed.

Lemma sweep_respects : respects R sweep.
Proof.
  unfold sweep. apply respects_bind_get. intros w.
  apply (respects_for_each R R_refl R_trans).
  intros pos _. apply R_sweep_body.
Qed.

Lemma reconcile_respects (inp : curl_input) : respects R (reconcile inp).
Proof.
  unfold reconcile. apply (respects_bind R R_trans).
  - apply reconcile_finished_respects.
  - intros _. apply sweep_respects.
Qed.

Lemma perform_respects (unicode_lower : text -> text) (inp : curl_input) :
  respects R (perform unicode_lower inp).
Proof.
  unfold perform. apply (respects_bind R R_trans).
  - apply (respects_for_each R R_refl R_trans).
    intros hd _. apply respects_bind_get. intros w.
    destruct (find_first _ _) as [[pos c]|].
    + apply R_on_camera, on_receive_respects.
    + apply R_refl.
  - intros _. apply respects_ret, R_refl.
Qed.

Lemma get_obj_respects (i : nat) : respects R (get_obj i).
Proof.
  unfold get_obj. apply respects_bind_get. intros w. apply R_refl.
Qed.

Lemma thread_process_respects
  (unicode_lower : text -> text) (hass_attrs : list string)
  (i : nat) (at_ : pc) (inp : curl_input) :
  respects R (thread_process unicode_lower hass_attrs i at_ inp).
Proof.
  unfold thread_process. apply (respects_bind R R_trans).
  { apply get_obj_respects. }
  intros self. destruct at_.
  - destruct (kill_thread self); [apply respects_ret, R_refl|].
    apply (respects_bind R R_trans); [apply perform_respects|].
    intros rn. destruct (negb _); apply respects_ret, R_refl.
  - destruct (kill_thread self).
    + apply (respects_bind R R_trans).
      * apply respects_emit, R_refl.
      * intros _. apply respects_ret, R_refl.
    + destruct (Z.eqb _ _); [|apply respects_ret, R_refl].
      apply (respects_bind R R_trans).
      * unfold call_on_timer. destruct (existsb _ _).
        -- apply respects_emit, R_refl.
        -- apply respects_raise, R_refl.
      * intros _. apply respects_ret, R_refl.
  - destruct (kill_thread self); [apply respects_ret, R_refl|].
    apply (respects_bind R R_trans); [apply perform_respects|].
    intros rn. apply (respects_bind R R_trans).
    + destruct (negb _); [apply reconcile_respects | apply respects_ret, R_refl].
    + intros _. destruct (negb _); apply respects_ret, R_refl.
Qed.

End WorkerRespects.

(** *** The handles of the cameras never change *)

Lemma same_handles_refl (w : World) : same_handles w w.
Proof. reflexivity. Qed.

Lemma same_handles_trans (w1 w2 w3 : World) :
  same_handles w1 w2 -> same_handles w2 w3 -> same_handles w1 w3.
Proof. unfold same_handles. congruence. Qed.

Lemma map_list_set_same {A B} (f : A -> B) (l : list A) (i : nat) (c c' : A) :
  nth_error l i = Some c -> f c' = f c ->
  List.map f (list_set l i c') = List.map f l.
Proof.
  revert i. induction l as [|x l IH]; intros [|i]; simpl; try discriminate.
  - intros [= ->] ->. reflexivity.
  - intros H1 H2. rewrite (IH i H1 H2). reflexivity.
Qed.

Lemma on_camera_same_handles (pos : nat) (m : M DahuaCamera unit) :
  respects same_but_connected m -> respects same_handles (on_camera pos m).
Proof.
  intros Hm w. unfold on_camera, same_handles.
  destruct (nth_error (cameras w) pos) as [c|] eqn:Hn; [|reflexivity].
  specialize (Hm c). destruct (m c) as [es c' v]. cbn [state_of] in *.
  destruct Hm as (_ & Hc & _). cbn [cameras with_cameras].
  apply (map_list_set_same curlobj _ _ c c' Hn Hc).
Qed.

Lemma disconnect_same_handles (pos : nat) (reason : disconnect_reason) :
  respects same_handles (disconnect_camera pos reason).
Proof.
  intros w. unfold same_handles.
  destruct (nth_error (cameras w) pos) as [c|] eqn:Hn.
  - rewrite (disconnect_camera_at w pos c reason Hn).
    cbn [state_of ticked with_ticks with_cameras cameras].
    apply (map_list_set_same curlobj _ _ c _ Hn). reflexivity.
  - rewrite (disconnect_camera_none w pos reason Hn). reflexivity.
Qed.

(** *** The loops over the reports end without an exception *)

Lemma find_first_known (h : handle) (l : list DahuaCamera) :
  In (Some h) (List.map curlobj l) ->
  exists pos c, find_first (curlobj_is h) l = Some (pos, c).
Proof.
  induction l as [|x l IH]; cbn [List.map In find_first]; [intros []|].
  intros Hin. destruct (curlobj_is h x) eqn:E.
  - exists 0%nat, x. reflexivity.
  - destruct Hin as [Hx | Hin].
    + unfold curlobj_is in E. rewrite Hx, Nat.eqb_refl in E. discriminate E.
    + destruct (IH Hin) as (pos & c & ->). exists (S pos), c. reflexivity.
Qed.

Lemma success_body_total
  (error : list (handle * Z * text)) (h : handle) (w : World) :
  knows w h -> value (success_body error h w) = inr tt.
Proof.
  intros Hk. destruct (find_first_known h (cameras w) Hk) as (pos & c & Hf).
  rewrite (success_body_at w pos c h error Hf).
  destruct (truthy (reconnect c)); [reflexivity|].
  destruct (find_first_nth _ _ _ _ Hf) as [Hn _].
  rewrite (disconnect_camera_at w pos c _ Hn). reflexivity.
Qed.

Lemma error_body_total (item : handle * Z * text) (w : World) :
  knows w (fst (fst item)) -> value (error_body item w) = inr tt.
Proof.
  destruct item as [[h errorno] errorstr]. cbn [fst]. intros Hk.
  destruct (find_first_known h (cameras w) Hk) as (pos & c & Hf).
  rewrite (error_body_at w pos c h errorno errorstr Hf).
  destruct (truthy (reconnect c)); [reflexivity|].
  destruct (find_first_nth _ _ _ _ Hf) as [Hn _].
  rewrite (disconnect_camera_at w pos c _ Hn). reflexivity.
Qed.

(** A loop whose body keeps [I] and does not raise where [I] holds. *)
Lemma for_each_inv {S A} (I : S -> Prop) (xs : list A) (body : A -> M S unit) :
  (forall x s, In x xs -> I s ->
     value (body x s) = inr tt /\ I (state_of (body x s))) ->
  forall s, I s ->
    value (for_each xs body s) = inr tt /\ I (state_of (for_each xs body s)).
Proof.
  induction xs as [|x xs IH]; intros Hb s Hs; cbn [for_each].
  - split; [reflexivity | exact Hs].
  - destruct (Hb x s (or_introl eq_refl) Hs) as [Hv Hi].
    rewrite (bind_total _ _ s tt Hv). cbn [value state_of].
    apply IH; [|exact Hi]. intros y s' Hy. apply Hb. right. exact Hy.
Qed.

Lemma reconcile_finished_total (inp : curl_input) (w : World) :
  (forall h, In h (in_success inp) -> knows w h) ->
  (forall item, In item (in_error inp) -> knows w (fst (fst item))) ->
  value (reconcile_finished inp w) = inr tt.
Proof.
  intros Hs He. unfold reconcile_finished.
  set (I := fun s : World => same_handles w s).
  assert (H1 : value (for_each (in_success inp) (success_body (in_error inp)) w) = inr tt
               /\ I (state_of (for_each (in_success inp)
                                 (success_body (in_error inp)) w))).
  { apply (for_each_inv I); [|apply same_handles_refl].
    intros h s Hh Hi. split.
    - apply success_body_total. unfold knows. rewrite Hi. apply Hs, Hh.
    - apply (same_handles_trans w s _ Hi).
      apply (success_body_respects same_handles same_handles_refl
               disconnect_same_handles). }
  destruct H1 as [Hv Hi]. rewrite (bind_total _ _ w tt Hv). cbn [value].
  apply (for_each_inv I); [|exact Hi].
  intros item s Hin Hi'. split.
  - apply error_body_total. unfold knows. rewrite Hi'. apply He, Hin.
  - apply (same_handles_trans w s _ Hi').
    apply (error_body_respects same_handles same_handles_refl
             disconnect_same_handles).
Qed.

(* ===================================================================== *)
(** ** The worker: one camera's failure and the other cameras              *)
(* ===================================================================== *)

Lemma keeps_camera_refl (j : nat) (B : DahuaCamera) (w : World) :
  keeps_camera j B w w.
Proof. intros H. repeat split. exact H. Qed.

Lemma keeps_camera_trans (j : nat) (B : DahuaCamera) (w1 w2 w3 : World) :
  keeps_camera j B w1 w2 -> keeps_camera j B w2 w3 -> keeps_camera j B w1 w3.
Proof.
  intros H12 H23 H1. destruct (H12 H1) as (H2 & M2 & C2 & O2).
  destruct (H23 H2) as (H3 & M3 & C3 & O3).
  repeat split; congruence.
Qed.

Lemma curlobj_is_true (h : handle) (c : DahuaCamera) :
  curlobj_is h c = true -> curlobj c = Some h.
Proof.
  unfold curlobj_is. destruct (curlobj c) as [h'|]; [|discriminate].
  intros H. apply Nat.eqb_eq in H. congruence.
Qed.

Lemma disconnect_keeps
  (j : nat) (B : DahuaCamera) (w : World) (pos : nat) (c : DahuaCamera)
  (h : handle) (reason : disconnect_reason) :
  find_first (curlobj_is h) (cameras w) = Some (pos, c) ->
  curlobj B <> Some h ->
  keeps_camera j B w (state_of (disconnect_camera pos reason w)).
Proof.
  intros Hf Hne HB. destruct (find_first_nth _ _ _ _ Hf) as [Hnth Hp].
  apply curlobj_is_true in Hp.
  rewrite (disconnect_camera_at w pos c reason Hnth).
  cbn [state_of ticked with_ticks with_cameras cameras curl_multiobj].
  assert (Hj : j <> pos).
  { intros ->. rewrite Hnth in HB. injection HB as ->. contradiction. }
  rewrite (nth_error_list_set_other _ _ _ _ Hj).
  rewrite !(map_list_set_same _ _ _ c _ Hnth) by reflexivity.
  repeat split. exact HB.
Qed.

Lemma success_body_keeps
  (j : nat) (B : DahuaCamera) (error : list (handle * Z * text)) (h : handle) :
  curlobj B <> Some h ->
  respects (keeps_camera j B) (success_body error h).
Proof.
  intros Hne w.
  destruct (find_first (curlobj_is h) (cameras w)) as [[pos c]|] eqn:Hf.
  - rewrite (success_body_at w pos c h error Hf).
    destruct (truthy (reconnect c)).
    + apply keeps_camera_refl.
    + apply (disconnect_keeps j B w pos c h _ Hf Hne).
  - unfold success_body.
    rewrite (bind_raise _ _ w StopIteration (next_camera_missing h w Hf)).
    apply keeps_camera_refl.
Qed.

Lemma error_body_keeps
  (j : nat) (B : DahuaCamera) (item : handle * Z * text) :
  curlobj B <> Some (fst (fst item)) ->
  respects (keeps_camera j B) (error_body item).
Proof.
  destruct item as [[h errorno] errorstr]. cbn [fst]. intros Hne w.
  destruct (find_first (curlobj_is h) (cameras w)) as [[pos c]|] eqn:Hf.
  - rewrite (error_body_at w pos c h errorno errorstr Hf).
    destruct (truthy (reconnect c)).
    + apply keeps_camera_refl.
    + apply (disconnect_keeps j B w pos c h _ Hf Hne).
  - unfold error_body.
    rewrite (bind_raise _ _ w StopIteration (next_camera_missing h w Hf)).
    apply keeps_camera_refl.
Qed.

(** C7.  Processing the handles that [info_read()] reports as finished
    (lines 119-133) leaves every camera [B] whose handle is not among them
    exactly as it was: its connected flag and its deadline, hence its phase,
    and its configuration and handle, hence what its write callback does
    with the bytes it receives.  The stack is not touched, and of the
    reported cameras only the connected flag and the deadline can change.
    This holds whether or not the loops end with an exception, and they end
    without one when every reported handle is the handle of a camera. *)
Theorem failure_isolation
  (w : World) (inp : curl_input) (j : nat) (B : DahuaCamera) :
  nth_error (cameras w) j = Some B ->
  (forall h, In h (in_success inp) -> curlobj B <> Some h) ->
  (forall item, In item (in_error inp) -> curlobj B <> Some (fst (fst item))) ->
  let w' := state_of (reconcile_finished inp w) in
  nth_error (cameras w') j = Some B
  /\ curl_multiobj w' = curl_multiobj w
  /\ List.map camera (cameras w') = List.map camera (cameras w)
  /\ List.map curlobj (cameras w') = List.map curlobj (cameras w)
  /\ ((forall h, In h (in_success inp) -> knows w h) ->
      (forall item, In item (in_error inp) -> knows w (fst (fst item))) ->
      value (reconcile_finished inp w) = inr tt).
Proof.
  intros HB Hs He w'. subst w'.
  rewrite <- !and_assoc. split; [rewrite !and_assoc|apply reconcile_finished_total].
  assert (H : respects (keeps_camera j B) (reconcile_finished inp)).
  { unfold reconcile_finished.
    apply (respects_bind _ (keeps_camera_trans j B)).
    - apply (respects_for_each _ (keeps_camera_refl j B) (keeps_camera_trans j B)).
      intros h Hh. apply success_body_keeps. apply Hs. exact Hh.
    - intros _.
      apply (respects_for_each _ (keeps_camera_refl j B) (keeps_camera_trans j B)).
      intros item Hi. apply error_body_keeps. apply He. exact Hi. }
  exact (H w HB).
Qed.

Lemma failure_isolation_witness :
  let w' := state_of (reconcile_finished connect_failed two_cameras_world) in
  List.map connected (cameras w') = [Some false; Some true]
  /\ nth_error (cameras w') 1 = nth_error (cameras two_cameras_world) 1
  /\ curl_multiobj w' = curl_multiobj two_cameras_world.
Proof.
  intros w'.
  assert (HB : nth_error (cameras two_cameras_world) 1
               = Some (set_connected (registered
                         (nth 0 (two_apps_args 1) (camera docstring_camera)) 1%nat)
                         (Some true)))
    by (vm_compute; reflexivity).
  destruct (failure_isolation two_cameras_world connect_failed 1 _ HB)
    as (H1 & H2 & _ & _ & _).
  - intros h [].
  - intros item [<- | []]. discriminate.
  - fold w' in H1, H2. split; [vm_compute; reflexivity|].
    split; [rewrite H1, HB; reflexivity | exact H2].
Defined.

(* ===================================================================== *)
(** ** The worker: what holds in every reachable world                     *)
(* ===================================================================== *)

(** The camera of [at_deadline_world] is waiting for its deadline and its
    handle has been on the stack all along. *)
Lemma handle_held_while_pending :
  ~ (forall c, In c (cameras at_deadline_world) ->
               state_invariant_claim at_deadline_world c).
Proof.
  intros H.
  destruct (H (lost (registered (camera docstring_camera) 0%nat) (100 # 1)))
    as [_ [Hreg _]].
  - vm_compute. left. reflexivity.
  - destruct Hreg as [Hc | Hs].
    + exists 0%nat. split; [reflexivity | vm_compute; left; reflexivity].
    + vm_compute in Hc. discriminate Hc.
    + vm_compute in Hs. discriminate Hs.
Qed.

Lemma ok_step_refl (w : World) : ok_step w w.
Proof. intros H. exact H. Qed.

Lemma ok_step_trans (w1 w2 w3 : World) :
  ok_step w1 w2 -> ok_step w2 w3 -> ok_step w1 w3.
Proof. unfold ok_step. auto. Qed.

Lemma camera_ok_stack (w w' : World) (c : DahuaCamera) :
  (forall h, In h (curl_multiobj w) -> In h (curl_multiobj w')) ->
  camera_ok w c -> camera_ok w' c.
Proof.
  intros Hm ((h & Hh & Hin) & Hd). split; [|exact Hd].
  exists h. split; [exact Hh | apply Hm, Hin].
Qed.

Lemma camera_ok_fields (w : World) (c c' : DahuaCamera) :
  curlobj c' = curlobj c -> reconnect c' = reconnect c ->
  camera_ok w c -> camera_ok w c'.
Proof.
  intros Hc Hr ((h & Hh & Hin) & Hd). split.
  - exists h. split; [congruence | exact Hin].
  - intros d E. apply Hd. congruence.
Qed.

Lemma Forall_list_set {A} (P : A -> Prop) (l : list A) (i : nat) (x : A) :
  Forall P l -> P x -> Forall P (list_set l i x).
Proof.
  intros Hl Hx. revert i. induction Hl as [|y l Hy Hl IH]; intros [|i]; simpl.
  - constructor.
  - constructor.
  - constructor; assumption.
  - constructor; [assumption | apply IH].
Qed.

(** Changes of [ticks] and [objs] do not matter. *)
Lemma world_ok_ext (w w' : World) :
  cameras w' = cameras w ->
  curl_multiobj w' = curl_multiobj w ->
  curl_objects w' = curl_objects w ->
  clock w' = clock w ->
  world_ok w -> world_ok w'.
Proof.
  intros Hc Hm Ho Hk (H1 & H2 & H3). unfold world_ok, fresh_handles.
  rewrite Hc, Hm, Ho, Hk. split; [|split; assumption].
  eapply Forall_impl; [|exact H1]. intros c. apply camera_ok_stack.
  intros h. rewrite Hm. auto.
Qed.

(** Replacing one camera by a camera that is in order. *)
Lemma world_ok_set_camera (w : World) (pos : nat) (c' : DahuaCamera) :
  world_ok w -> camera_ok w c' ->
  world_ok (with_cameras w (list_set (cameras w) pos c')).
Proof.
  intros (H1 & H2 & H3) Hc. split; [|split; assumption].
  cbn [cameras with_cameras]. apply Forall_list_set.
  - eapply Forall_impl; [|exact H1]. intros c. apply camera_ok_stack. auto.
  - revert Hc. apply camera_ok_stack. auto.
Qed.

Lemma world_ok_camera (w : World) (pos : nat) (c : DahuaCamera) :
  world_ok w -> nth_error (cameras w) pos = Some c -> camera_ok w c.
Proof.
  intros (H1 & _) Hn. rewrite Forall_forall in H1. apply H1.
  eapply nth_error_In. exact Hn.
Qed.

Lemma on_camera_ok (pos : nat) (m : M DahuaCamera unit) :
  respects same_but_connected m -> respects ok_step (on_camera pos m).
Proof.
  intros Hm w Hok. unfold on_camera.
  destruct (nth_error (cameras w) pos) as [c|] eqn:Hn; [|exact Hok].
  specialize (Hm c). destruct (m c) as [es c' v]. cbn [state_of] in *.
  destruct Hm as (_ & Hc & Hr).
  apply world_ok_set_camera; [exact Hok|].
  apply (camera_ok_fields w c c' Hc Hr). apply (world_ok_camera w pos c Hok Hn).
Qed.

Lemma ticked_ok (w : World) : world_ok w -> world_ok (ticked w).
Proof. apply world_ok_ext; reflexivity. Qed.

Lemma disconnect_camera_ok (pos : nat) (reason : disconnect_reason) :
  respects ok_step (disconnect_camera pos reason).
Proof.
  intros w Hok. destruct (nth_error (cameras w) pos) as [c|] eqn:Hn.
  - rewrite (disconnect_camera_at w pos c reason Hn). cbn [state_of].
    apply ticked_ok. apply world_ok_set_camera; [exact Hok|].
    destruct (world_ok_camera w pos c Hok Hn) as (Hreg & _).
    split; [exact Hreg|].
    intros d [= <-]. destruct Hok as (_ & _ & Hclock).
    apply float_add_pos, Hclock.
  - rewrite (disconnect_camera_none w pos reason Hn). apply ticked_ok, Hok.
Qed.

Lemma In_readded (h x : handle) (m : list handle) :
  In x m -> In x (readded h m).
Proof.
  intros Hx. unfold readded. apply in_or_app.
  destruct (Nat.eq_dec h x) as [-> | Hne].
  - right. left. reflexivity.
  - left. apply filter_In. split; [exact Hx|].
    apply Nat.eqb_neq in Hne. rewrite Hne. reflexivity.
Qed.

Lemma readded_fresh (n : nat) (h : handle) (m : list handle) :
  In h m -> Forall (fun x => (x < n)%nat) m ->
  Forall (fun x => (x < n)%nat) (readded h m).
Proof.
  intros Hh Hm. rewrite Forall_forall in *. intros x Hx.
  unfold readded in Hx. apply in_app_or in Hx. destruct Hx as [Hx | [<- | []]].
  - apply filter_In in Hx. apply Hm, Hx.
  - apply Hm, Hh.
Qed.

Lemma sweep_body_ok (pos : nat) : respects ok_step (sweep_body pos).
Proof.
  intros w Hok.
  destruct (nth_error (cameras w) pos) as [c|] eqn:Hn.
  2:{ unfold sweep_body. rewrite bind_get, Hn. exact Hok. }
  destruct (reconnect c) as [d|] eqn:Hr.
  2:{ unfold sweep_body. rewrite bind_get, Hn, Hr. exact Hok. }
  destruct (truthy (Some d)) eqn:Ht.
  2:{ unfold sweep_body. rewrite bind_get, Hn, Hr, Ht. exact Hok. }
  destruct (Qlt_le_dec d (clock w (ticks w))) as [Hlt | Hle].
  - destruct (world_ok_camera w pos c Hok Hn) as ((h & Hh & Hin) & Hd).
    rewrite (sweep_body_due w pos c d h Hn Hr Ht Hlt Hh Hin). cbn [state_of].
    destruct Hok as (H1 & H2 & H3).
    split; [|split].
    + cbn [cameras with_cameras]. apply Forall_list_set.
      * eapply Forall_impl; [|exact H1]. intros c0. apply camera_ok_stack.
        intros x. apply In_readded.
      * split.
        -- exists h. split; [exact Hh | apply In_readded, Hin].
        -- intros d0 E. discriminate E.
    + unfold fresh_handles. cbn. apply readded_fresh; assumption.
    + exact H3.
  - rewrite (sweep_body_not_due w pos c d Hn Hr Ht Hle). apply ticked_ok, Hok.
Qed.

Lemma thread_process_ok
  (unicode_lower : text -> text) (hass_attrs : list string)
  (i : nat) (at_ : pc) (inp : curl_input) :
  respects ok_step (thread_process unicode_lower hass_attrs i at_ inp).
Proof.
  apply (thread_process_respects ok_step ok_step_refl ok_step_trans
           on_camera_ok disconnect_camera_ok sweep_body_ok).
Qed.

Lemma with_obj_ok (w : World) (i : nat) (o : DahuaMQTT) :
  world_ok w -> world_ok (with_obj w i o).
Proof. apply world_ok_ext; reflexivity. Qed.

Lemma worker_step_ok
  (unicode_lower : text -> text) (hass_attrs : list string)
  (i : nat) (inp : curl_input) (w : World) :
  world_ok w -> world_ok (fst (worker_step unicode_lower hass_attrs i inp w)).
Proof.
  intros Hok. unfold worker_step.
  destruct (proc (objs w i)) as [[at_ | died]|]; try exact Hok.
  pose proof (thread_process_ok unicode_lower hass_attrs i at_ inp w Hok) as H.
  destruct (thread_process unicode_lower hass_attrs i at_ inp w) as [es w' v].
  cbn [state_of fst] in *. apply with_obj_ok, H.
Qed.

Lemma nth_error_registered_from (h0 : handle) (cfgs : list CameraConfig) :
  forall c, In c (registered_from h0 cfgs) ->
  exists k, (k < length cfgs)%nat
            /\ curlobj c = Some (h0 + k)%nat /\ reconnect c = None.
Proof.
  revert h0. induction cfgs as [|cfg cfgs IH]; intros h0 c; cbn [registered_from].
  - intros [].
  - intros [<- | Hin].
    + exists 0%nat. cbn. rewrite Nat.add_0_r. repeat split. lia.
    + destruct (IH (S h0) c Hin) as (k & Hk & Hc & Hr).
      exists (S k). cbn [length]. rewrite Hc, Hr.
      repeat split; [lia | f_equal; lia].
Qed.

Lemma initialize_ok (i : nat) (w : World) :
  world_ok w -> world_ok (state_of (initialize i w)).
Proof.
  intros Hok. pose proof Hok as (H1 & H2 & H3).
  destruct (initialize_fresh i w H2) as (_ & _ & w1 & Hi & ->).
  apply with_obj_ok. destruct Hi. split; [|split].
  - rewrite init_cameras0. apply Forall_app. split.
    + eapply Forall_impl; [|exact H1]. intros c. apply camera_ok_stack.
      intros h Hh. rewrite init_multi0. apply in_or_app. left. exact Hh.
    + apply Forall_forall. intros c Hc.
      destruct (nth_error_registered_from _ _ c Hc) as (k & Hk & Hh & Hr).
      split.
      * exists (length (curl_objects w) + k)%nat. split; [exact Hh|].
        rewrite init_multi0. apply in_or_app. right. apply in_seq. lia.
      * intros d E. rewrite Hr in E. discriminate E.
  - exact init_fresh0.
  - rewrite init_clock0. exact H3.
Qed.

Lemma terminate_ok (i : nat) (w : World) :
  world_ok w -> world_ok (state_of (terminate i w)).
Proof.
  intros Hok. destruct (proc (objs w i)) as [[at_ | died]|] eqn:Hp.
  - rewrite (terminate_alive i w at_ Hp). apply with_obj_ok, Hok.
  - unfold terminate. rewrite get_obj_bind, Hp. exact Hok.
  - unfold terminate. rewrite get_obj_bind, Hp. exact Hok.
Qed.

Lemma apply_event_ok
  (unicode_lower : text -> text) (hass_attrs : list string)
  (ev : event) (w : World) :
  world_ok w -> world_ok (fst (apply_event unicode_lower hass_attrs ev w)).
Proof.
  intros Hok. destruct ev as [i | i | i inp]; cbn [apply_event].
  - pose proof (initialize_ok i w Hok) as H.
    destruct (initialize i w). exact H.
  - pose proof (terminate_ok i w Hok) as H.
    destruct (terminate i w). exact H.
  - apply worker_step_ok, Hok.
Qed.

Lemma run_ok
  (unicode_lower : text -> text) (hass_attrs : list string) (evs : list event) :
  forall w, world_ok w -> world_ok (fst (run unicode_lower hass_attrs evs w)).
Proof.
  induction evs as [|ev evs IH]; intros w Hok; cbn [run].
  - exact Hok.
  - pose proof (apply_event_ok unicode_lower hass_attrs ev w Hok) as H1.
    destruct (apply_event unicode_lower hass_attrs ev w) as [w1 es1].
    cbn [fst] in H1. specialize (IH w1 H1).
    destruct (run unicode_lower hass_attrs evs w1) as [w2 es2]. exact IH.
Qed.

Lemma boot_ok (clk : nat -> Q) (args : nat -> list CameraConfig) :
  (forall k, (0 <= clk k)%Q) -> world_ok (boot clk args).
Proof.
  intros H. split; [|split].
  - constructor.
  - constructor.
  - exact H.
Qed.

(** *** Every handle on the stack is the handle of a camera *)

Lemma known_step_refl (w : World) : known_step w w.
Proof. intros H. exact H. Qed.

Lemma known_step_trans (w1 w2 w3 : World) :
  known_step w1 w2 -> known_step w2 w3 -> known_step w1 w3.
Proof. unfold known_step. auto. Qed.

Lemma stack_known_ext (w w' : World) :
  same_handles w w' -> curl_multiobj w' = curl_multiobj w ->
  stack_known w -> stack_known w'.
Proof.
  unfold stack_known, knows, same_handles. intros Hh Hm H.
  rewrite Hm, Hh. exact H.
Qed.

Lemma on_camera_known (pos : nat) (m : M DahuaCamera unit) :
  respects same_but_connected m -> respects known_step (on_camera pos m).
Proof.
  intros Hm w. unfold known_step. apply stack_known_ext.
  - apply (on_camera_same_handles pos m Hm w).
  - unfold on_camera. destruct (nth_error (cameras w) pos); [|reflexivity].
    destruct (m d); reflexivity.
Qed.

Lemma disconnect_camera_known (pos : nat) (reason : disconnect_reason) :
  respects known_step (disconnect_camera pos reason).
Proof.
  intros w. unfold known_step. apply stack_known_ext.
  - apply (disconnect_same_handles pos reason w).
  - destruct (nth_error (cameras w) pos) as [c|] eqn:Hn.
    + rewrite (disconnect_camera_at w pos c reason Hn). reflexivity.
    + rewrite (disconnect_camera_none w pos reason Hn). reflexivity.
Qed.

Lemma Qltb_lt (x y : Q) : Qltb x y = true -> (x < y)%Q.
Proof.
  unfold Qltb. destruct (Qle_bool y x) eqn:E; [discriminate|]. intros _.
  apply Qnot_le_lt. intros H. apply Qle_bool_iff in H. congruence.
Qed.

(** The three ways a sweep of one camera can leave the world: as it was,
    with one more clock reading, or with the camera armed again. *)
Lemma sweep_body_state (pos : nat) (w : World) :
  state_of (sweep_body pos w) = w
  \/ state_of (sweep_body pos w) = ticked w
  \/ exists c h,
       nth_error (cameras w) pos = Some c
       /\ curlobj c = Some h
       /\ In h (curl_multiobj w)
       /\ state_of (sweep_body pos w)
          = with_cameras (with_multi (ticked w) (readded h (curl_multiobj w)))
              (list_set (cameras w) pos (set_reconnect c None)).
Proof.
  destruct (nth_error (cameras w) pos) as [c|] eqn:Hn.
  2:{ left. unfold sweep_body. rewrite bind_get, Hn. reflexivity. }
  destruct (reconnect c) as [d|] eqn:Hr.
  2:{ left. unfold sweep_body. rewrite bind_get, Hn, Hr. reflexivity. }
  destruct (truthy (Some d)) eqn:Ht.
  2:{ left. unfold sweep_body. rewrite bind_get, Hn, Hr, Ht. reflexivity. }
  destruct (Qltb d (clock w (ticks w))) eqn:Hq.
  2:{ right. left. unfold sweep_body. rewrite bind_get, Hn, Hr, Ht.
      unfold bind, time_time. rewrite Hq. reflexivity. }
  destruct (curlobj c) as [h|] eqn:Hh.
  2:{ right. left. unfold sweep_body. rewrite bind_get, Hn, Hr, Ht.
      unfold bind at 1. unfold time_time at 1. rewrite Hq, Hh. reflexivity. }
  destruct (handle_in h (curl_multiobj w)) eqn:Hin.
  - right. right. exists c, h. apply handle_in_In in Hin.
    repeat split; try assumption.
    rewrite (sweep_body_due w pos c d h Hn Hr Ht (Qltb_lt _ _ Hq) Hh Hin).
    reflexivity.
  - right. left. unfold sweep_body. rewrite bind_get, Hn, Hr, Ht.
    unfold bind at 1. unfold time_time at 1. rewrite Hq, Hh.
    unfold remove_handle. rewrite bind_assoc, bind_get.
    cbn [curl_multiobj with_ticks]. rewrite Hin. reflexivity.
Qed.

Lemma In_readded_inv (h x : handle) (m : list handle) :
  In h m -> In x (readded h m) -> In x m.
Proof.
  intros Hh Hx. unfold readded in Hx. apply in_app_or in Hx.
  destruct Hx as [Hx | [<- | []]]; [|exact Hh].
  apply filter_In in Hx. apply Hx.
Qed.

Lemma sweep_body_known (pos : nat) : respects known_step (sweep_body pos).
Proof.
  intros w Hk.
  destruct (sweep_body_state pos w) as [-> | [-> | (c & h & Hn & Hh & Hin & ->)]].
  - exact Hk.
  - exact Hk.
  - unfold stack_known, knows in *. cbn [cameras curl_multiobj with_cameras].
    rewrite (map_list_set_same curlobj _ _ c _ Hn) by reflexivity.
    rewrite Forall_forall in *. intros x Hx. apply Hk.
    apply (In_readded_inv h x _ Hin Hx).
Qed.

Lemma registered_from_handles (h0 : handle) (cfgs : list CameraConfig) :
  List.map curlobj (registered_from h0 cfgs)
  = List.map Some (seq h0 (length cfgs)).
Proof.
  revert h0. induction cfgs as [|cfg cfgs IH]; intros h0; cbn; [reflexivity|].
  rewrite IH. reflexivity.
Qed.

Lemma initialize_known (i : nat) (w : World) :
  fresh_handles w -> stack_known w -> stack_known (state_of (initialize i w)).
Proof.
  intros Hf Hk.
  destruct (initialize_fresh i w Hf) as (_ & _ & w1 & Hi & ->).
  destruct Hi. unfold stack_known, knows in *.
  cbn [cameras curl_multiobj with_obj].
  rewrite init_cameras0, init_multi0, map_app, registered_from_handles.
  apply Forall_app. split.
  - eapply Forall_impl; [|exact Hk]. cbn beta. intros h Hh.
    apply in_or_app. left. exact Hh.
  - apply Forall_forall. intros h Hh. apply in_or_app. right.
    apply in_map. exact Hh.
Qed.

Lemma apply_event_known
  (unicode_lower : text -> text) (hass_attrs : list string)
  (ev : event) (w : World) :
  world_ok w -> stack_known w ->
  stack_known (fst (apply_event unicode_lower hass_attrs ev w)).
Proof.
  intros Hok Hk. destruct ev as [i | i | i inp]; cbn [apply_event].
  - pose proof (initialize_known i w (proj1 (proj2 Hok)) Hk) as H.
    destruct (initialize i w). exact H.
  - destruct (proc (objs w i)) as [[at_ | died]|] eqn:Hp.
    + rewrite (terminate_alive i w at_ Hp). exact Hk.
    + unfold terminate. rewrite get_obj_bind, Hp. exact Hk.
    + unfold terminate. rewrite get_obj_bind, Hp. exact Hk.
  - unfold worker_step.
    destruct (proc (objs w i)) as [[at_ | died]|]; try exact Hk.
    pose proof (thread_process_respects known_step known_step_refl
                  known_step_trans on_camera_known disconnect_camera_known
                  sweep_body_known unicode_lower hass_attrs i at_ inp w Hk) as H.
    destruct (thread_process unicode_lower hass_attrs i at_ inp w) as [es w' v].
    exact H.
Qed.

Lemma run_known
  (unicode_lower : text -> text) (hass_attrs : list string) (evs : list event) :
  forall w, world_ok w -> stack_known w ->
  stack_known (fst (run unicode_lower hass_attrs evs w)).
Proof.
  induction evs as [|ev evs IH]; intros w Hok Hk; cbn [run].
  - exact Hk.
  - pose proof (apply_event_ok unicode_lower hass_attrs ev w Hok) as H1.
    pose proof (apply_event_known unicode_lower hass_attrs ev w Hok Hk) as H2.
    destruct (apply_event unicode_lower hass_attrs ev w) as [w1 es1].
    cbn [fst] in H1, H2. specialize (IH w1 H1 H2).
    destruct (run unicode_lower hass_attrs evs w1) as [w2 es2]. exact IH.
Qed.

(** In a world reached from the start, the loops over the reports of
    [info_read()] end without an exception whenever [info_read()] reports
    handles that are on the stack: the failure of one camera does not stop
    the worker. *)
Lemma reconcile_never_raises
  (unicode_lower : text -> text) (hass_attrs : list string)
  (clk : nat -> Q) (args : nat -> list CameraConfig) (evs : list event)
  (inp : curl_input) :
  (forall k, (0 <= clk k)%Q) ->
  let w := fst (run unicode_lower hass_attrs evs (boot clk args)) in
  (forall h, In h (in_success inp) -> In h (curl_multiobj w)) ->
  (forall item, In item (in_error inp) -> In (fst (fst item)) (curl_multiobj w)) ->
  value (reconcile_finished inp w) = inr tt.
Proof.
  intros Hclk w Hs He.
  assert (Hk : stack_known w).
  { apply run_known; [apply boot_ok, Hclk | constructor]. }
  unfold stack_known in Hk. rewrite Forall_forall in Hk.
  apply reconcile_finished_total.
  - intros h Hh. apply Hk, Hs, Hh.
  - intros item Hi. apply Hk, He, Hi.
Qed.

(** C6.  In every world that a run of [initialize], [terminate] and worker
    steps reaches from the start, with a clock that is never negative, and
    for every camera of the list: the deadline is set if and only if the
    camera is waiting to reconnect, and the handle of the camera is on the
    stack, whatever its phase.  The handle stays registered while the camera
    waits; it is removed and added again in one go when the deadline has
    passed. *)
Theorem state_invariant
  (unicode_lower : text -> text) (hass_attrs : list string)
  (clk : nat -> Q) (args : nat -> list CameraConfig) (evs : list event) :
  (forall k, (0 <= clk k)%Q) ->
  let w := fst (run unicode_lower hass_attrs evs (boot clk args)) in
  forall c, In c (cameras w) ->
    (reconnect c <> None <-> phase_of c = PendingReconnect)
    /\ registered_handle w c.
Proof.
  intros Hclk w c Hc.
  assert (Hok : world_ok w) by (apply run_ok, boot_ok, Hclk).
  destruct Hok as (H1 & _). rewrite Forall_forall in H1.
  destruct (H1 c Hc) as (Hreg & Hd). split; [|exact Hreg].
  unfold phase_of. split.
  - intros Hne. destruct (reconnect c) as [d|] eqn:Hr; [|congruence].
    specialize (Hd d eq_refl).
    assert (Ht : truthy (Some d) = true).
    { unfold truthy. destruct (Qeq_bool d 0) eqn:E; [|reflexivity].
      apply Qeq_bool_iff in E. lra. }
    rewrite Ht. reflexivity.
  - destruct (truthy (reconnect c)) eqn:Ht.
    + intros _ E. rewrite E in Ht. discriminate Ht.
    + destruct (connected c) as [[|]|]; discriminate.
Qed.

Lemma steady_clock_nonneg (k : nat) : (0 <= steady_clock k)%Q.
Proof.
  unfold steady_clock.
  assert (H : (0 <= inject_Z (Z.of_nat k))%Q).
  { unfold Qle. cbn. lia. }
  lra.
Qed.

(** The waiting camera of [at_deadline_world]: deadline set, phase
    [PendingReconnect], handle on the stack. *)
Lemma state_invariant_witness :
  let c := lost (registered (camera docstring_camera) 0%nat) (100 # 1) in
  (reconnect c <> None <-> phase_of c = PendingReconnect)
  /\ registered_handle at_deadline_world c.
Proof.
  intros c.
  refine (state_invariant (fun s => s) [] steady_clock one_camera_args _
            steady_clock_nonneg c _).
  vm_compute. left. reflexivity.
Defined.

(* ===================================================================== *)
(** ** More on the write callback                                          *)
(* ===================================================================== *)

Lemma parse_pairs_pure
  (unicode_lower : text -> text) (keyvals : list text) :
  forall (alarm : dict) (s : DahuaCamera),
    effects (parse_pairs unicode_lower keyvals alarm s) = []
    /\ state_of (parse_pairs unicode_lower keyvals alarm s) = s.
Proof.
  induction keyvals as [|keyval rest IH]; intros alarm s; cbn [parse_pairs].
  - split; reflexivity.
  - destruct (split (txt "=") keyval) as [|k [|v [|x more]]];
      try (split; reflexivity).
    apply IH.
Qed.

Lemma on_alarm_state (state : dict) (s : DahuaCamera) :
  state_of (on_alarm state s) = s.
Proof.
  unfold on_alarm. rewrite bind_get. unfold getitem.
  destruct (dict_get state (txt "code")) as [code|]; [|reflexivity].
  rewrite bind_ret_l.
  destruct (dict_get state (txt "action")) as [action|]; [|reflexivity].
  rewrite bind_ret_l. apply publish_loop_state.
Qed.

Lemma parse_event_state (alarm : dict) (s : DahuaCamera) :
  state_of (parse_event alarm s) = s.
Proof.
  unfold parse_event. rewrite bind_get. unfold getitem.
  destruct (dict_get alarm (txt "code")) as [code|]; [|reflexivity].
  rewrite bind_ret_l. destruct (negb _); [reflexivity|].
  apply on_alarm_state.
Qed.

(** Reading an event line, well formed or not, leaves the camera alone. *)
Lemma event_line_state
  (unicode_lower : text -> text) (line : text) (s : DahuaCamera) :
  state_of
    (try_except
       (alarm <- parse_pairs unicode_lower (split (txt ";") line) [] ;;
        parse_event alarm)
       (fun ex => emit (Log (LogFailedToParse ex))) s) = s.
Proof.
  unfold try_except, bind.
  destruct (parse_pairs_pure unicode_lower (split (txt ";") line) [] s) as [_ Hs].
  destruct (parse_pairs unicode_lower (split (txt ";") line) [] s)
    as [es s1 [e|alarm]]; cbn [state_of] in Hs; subst s1.
  - reflexivity.
  - pose proof (parse_event_state alarm s) as Hp.
    destruct (parse_event alarm s) as [es' s2 [e|[]]]; cbn [state_of] in Hp;
      subst s2; reflexivity.
Qed.

Lemma receive_line_state
  (unicode_lower : text -> text) (line : text) (s : DahuaCamera) :
  state_of (receive_line unicode_lower line s)
  = if text_eqb line status_line then set_connected s (Some true) else s.
Proof.
  unfold receive_line, status_line.
  destruct (text_eqb line (txt "HTTP/1.1 200 OK")) eqn:E.
  - rewrite (bind_total on_connect _ s tt (on_connect_total s)).
    cbn [state_of].
    change (state_of (on_connect s)) with (set_connected s (Some true)).
    destruct (negb _); [reflexivity|]. apply event_line_state.
  - rewrite bind_ret_l. destruct (negb _); [reflexivity|].
    apply event_line_state.
Qed.

Lemma receive_lines_state
  (unicode_lower : text -> text) (lines : list text) :
  forall s : DahuaCamera,
  state_of (for_each lines (receive_line unicode_lower) s)
  = if existsb (fun line => text_eqb line status_line) lines
    then set_connected s (Some true) else s.
Proof.
  induction lines as [|line lines IH]; intros s; cbn [for_each existsb].
  - reflexivity.
  - rewrite (bind_total _ _ s tt (receive_line_total unicode_lower line s)).
    cbn [state_of]. rewrite IH, receive_line_state.
    destruct (text_eqb line status_line); cbn [orb].
    + destruct (existsb _ lines); reflexivity.
    + reflexivity.
Qed.

(** X1.  No exception leaves [on_receive], whatever bytes arrive: invalid
    UTF-8 is dropped by the decoder and every error met while an event line
    is read is caught and logged. *)
Theorem on_receive_never_raises
  (unicode_lower : text -> text) (data : list byte) (s : DahuaCamera) :
  value (on_receive unicode_lower data s) = inr tt.
Proof. unfold on_receive. apply receive_lines_total. Qed.

(** X2.  [on_receive] changes nothing of the camera but [connected], and it
    sets [connected] to [True] exactly when one of the lines of the chunk is
    the status line, whole and alone on its line. *)
Theorem on_receive_marks_connected
  (unicode_lower : text -> text) (data : list byte) (s : DahuaCamera) :
  state_of (on_receive unicode_lower data s)
  = if existsb (fun line => text_eqb line status_line)
         (split crlf (decode_utf8_ignore data))
    then set_connected s (Some true) else s.
Proof. unfold on_receive. apply receive_lines_state. Qed.

Lemma receive_line_ignored
  (unicode_lower : text -> text) (line : text) (s : DahuaCamera) :
  text_eqb line status_line = false ->
  startswith line (txt "Code=") = false ->
  receive_line unicode_lower line s = Result [] s (inr tt).
Proof.
  unfold receive_line, status_line. intros -> ->. reflexivity.
Qed.

(** X3.  A chunk none of whose lines is the status line or begins with the
    event marker has no effect at all: headers, boundaries, keep-alive and
    the continuation lines of an event are passed over in silence. *)
Theorem on_receive_ignores_other_lines
  (unicode_lower : text -> text) (data : list byte) (s : DahuaCamera) :
  (forall line, In line (split crlf (decode_utf8_ignore data)) ->
     text_eqb line status_line = false
     /\ startswith line (txt "Code=") = false) ->
  on_receive unicode_lower data s = Result [] s (inr tt).
Proof.
  unfold on_receive. generalize (split crlf (decode_utf8_ignore data)).
  intros lines. induction lines as [|line lines IH]; intros H; cbn [for_each].
  - reflexivity.
  - destruct (H line (or_introl eq_refl)) as [H1 H2].
    rewrite (bind_silent _ _ s (receive_line_ignored unicode_lower line s H1 H2)).
    apply IH. intros l Hl. apply H. right. exact Hl.
Qed.

Lemma on_receive_ignores_other_lines_witness :
  on_receive (fun s => s)
    (bytes "--myboundary" ++ crlf_bytes ++ bytes "Content-Type: text/plain"
     ++ crlf_bytes ++ bytes "Content-Length: 39" ++ crlf_bytes ++ crlf_bytes
     ++ bytes "Heartbeat")
    docstring_camera
  = Result [] docstring_camera (inr tt).
Proof.
  apply on_receive_ignores_other_lines.
  intros line Hl. vm_compute in Hl.
  repeat (destruct Hl as [<- | Hl]; [split; vm_compute; reflexivity|]).
  destruct Hl.
Defined.

(* ===================================================================== *)
(** ** The effects of a chunk, line by line                                *)
(* ===================================================================== *)

Lemma parse_pairs_indep
  (unicode_lower : text -> text) (S : Type) (keyvals : list text) :
  forall (alarm : dict) (s : S),
    parse_pairs unicode_lower keyvals alarm s
    = Result [] s (value (parse_pairs unicode_lower keyvals alarm tt)).
Proof.
  induction keyvals as [|keyval rest IH]; intros alarm s; cbn [parse_pairs].
  - reflexivity.
  - destruct (split (txt "=") keyval) as [|k [|v [|x more]]];
      try reflexivity.
    apply IH.
Qed.

Lemma publish_loop_effects (self : DahuaCamera) (items : dict) (s : DahuaCamera) :
  for_each items
    (fun item =>
       emit (Log (LogPublishing (host (camera self))
                    (strip (txt "/") (fst item)) (snd item))) ;;
       emit (Publish (strip (txt "/") (fst item)) (snd item))) s
  = Result (publish_effects (camera self) items) s (inr tt).
Proof.
  induction items as [|item items IH]; cbn [for_each].
  - reflexivity.
  - unfold bind at 1. unfold bind at 1. unfold emit at 1 2. cbv beta iota.
    rewrite IH. reflexivity.
Qed.

Lemma on_alarm_closed (state : dict) (code : text) (s : DahuaCamera) :
  dict_get state (txt "code") = Some code ->
  on_alarm state s
  = match dict_get state (txt "action") with
    | None => Result [] s (inl (KeyError (txt "action")))
    | Some action =>
      Result (publish_effects (camera s)
                (dict_set (dict_set [] (topic (camera s)) (json_dumps state))
                          (topic (camera s) ++ code) action))
             s (inr tt)
    end.
Proof.
  intros Hc. destruct (dict_get state (txt "action")) as [action|] eqn:Ha.
  - rewrite (on_alarm_unfold s state code action Hc Ha).
    apply publish_loop_effects.
  - apply (on_alarm_without_action s state code Hc Ha).
Qed.

Lemma parse_event_closed (alarm : dict) (s : DahuaCamera) :
  parse_event alarm s
  = Result (fst (parse_event_outcome (camera s) alarm)) s
           (snd (parse_event_outcome (camera s) alarm)).
Proof.
  unfold parse_event_outcome.
  destruct (dict_get alarm (txt "code")) as [code|] eqn:Hc.
  - rewrite (parse_event_unfold s alarm code Hc).
    destruct (text_in code _); [|reflexivity].
    rewrite (on_alarm_closed alarm code s Hc).
    destruct (dict_get alarm (txt "action")); reflexivity.
  - unfold parse_event, getitem. rewrite bind_get, Hc. reflexivity.
Qed.

Lemma event_line_closed
  (unicode_lower : text -> text) (line : text) (s : DahuaCamera) :
  try_except
    (alarm <- parse_pairs unicode_lower (split (txt ";") line) [] ;;
     parse_event alarm)
    (fun ex => emit (Log (LogFailedToParse ex))) s
  = Result (event_line_effects unicode_lower (camera s) line) s (inr tt).
Proof.
  unfold try_except, bind, event_line_effects.
  rewrite (parse_pairs_indep unicode_lower DahuaCamera).
  destruct (value (parse_pairs unicode_lower (split (txt ";") line) [] tt))
    as [ex|alarm].
  - reflexivity.
  - rewrite parse_event_closed.
    destruct (parse_event_outcome (camera s) alarm) as [es [ex|[]]];
      reflexivity.
Qed.

Lemma receive_line_closed
  (unicode_lower : text -> text) (line : text) (s : DahuaCamera) :
  effects (receive_line unicode_lower line s)
  = line_effects unicode_lower (camera s) line.
Proof.
  unfold receive_line, line_effects, status_line.
  destruct (text_eqb line (txt "HTTP/1.1 200 OK")).
  - rewrite (bind_total on_connect _ s tt (on_connect_total s)).
    cbn [effects].
    change (effects (on_connect s)) with [Log (LogOnConnect (host (camera s)))].
    change (state_of (on_connect s)) with (set_connected s (Some true)).
    f_equal. destruct (startswith line (txt "Code=")); cbn [negb].
    + rewrite event_line_closed. reflexivity.
    + reflexivity.
  - rewrite bind_ret_l. cbn [app].
    destruct (startswith line (txt "Code=")); cbn [negb].
    + rewrite event_line_closed. reflexivity.
    + reflexivity.
Qed.

Lemma receive_lines_effects
  (unicode_lower : text -> text) (s : DahuaCamera) (lines : list text) :
  forall s1 : DahuaCamera,
    camera s1 = camera s ->
    effects (for_each lines (receive_line unicode_lower) s1)
    = flat_map (fun line => effects (receive_line unicode_lower line s)) lines.
Proof.
  induction lines as [|line lines IH]; intros s1 H1; cbn [for_each flat_map].
  - reflexivity.
  - rewrite (bind_total _ _ s1 tt (receive_line_total unicode_lower line s1)).
    cbn [effects]. rewrite IH.
    + rewrite !receive_line_closed, H1. reflexivity.
    + destruct (receive_line_respects unicode_lower line s1) as (Hc & _).
      rewrite Hc. exact H1.
Qed.

(** X4.  What a sequence of chunks makes the camera log and publish is the
    concatenation, chunk after chunk and line after line in the order of
    arrival, of what each line does by itself: nothing is carried from one
    line or one chunk to the next, and a line is treated the same whether or
    not the camera has been marked connected before. *)
Theorem deliver_effects_line_by_line
  (unicode_lower : text -> text) (chunks : list (list byte)) (s : DahuaCamera) :
  effects (deliver unicode_lower chunks s)
  = flat_map
      (fun chunk =>
         flat_map (fun line => effects (receive_line unicode_lower line s))
                  (split crlf (decode_utf8_ignore chunk)))
      chunks.
Proof.
  unfold deliver.
  assert (G : forall s1, camera s1 = camera s ->
    effects (for_each chunks (on_receive unicode_lower) s1)
    = flat_map
        (fun chunk =>
           flat_map (fun line => effects (receive_line unicode_lower line s))
                    (split crlf (decode_utf8_ignore chunk)))
        chunks).
  { induction chunks as [|chunk chunks IH]; intros s1 H1;
      cbn [for_each flat_map].
    - reflexivity.
    - rewrite (bind_total _ _ s1 tt).
      + cbn [effects]. rewrite IH.
        * f_equal. unfold on_receive.
          apply receive_lines_effects. exact H1.
        * destruct (on_receive_respects unicode_lower chunk s1) as (Hc & _).
          rewrite Hc. exact H1.
      + unfold on_receive. apply receive_lines_total. }
  apply G. reflexivity.
Qed.

(* ===================================================================== *)
(** ** The record of an event line                                         *)
(* ===================================================================== *)

Lemma dict_get_set (d : dict) (k v k' : text) :
  dict_get (dict_set d k v) k'
  = if text_eqb k k' then Some v else dict_get d k'.
Proof.
  induction d as [|[k0 v0] d IH]; cbn [dict_set dict_get].
  - reflexivity.
  - destruct (text_eqb k0 k) eqn:E0; cbn [dict_get].
    + apply text_eqb_eq in E0. subst k0.
      destruct (text_eqb k k'); reflexivity.
    + rewrite IH. destruct (text_eqb k0 k') eqn:E1; [|reflexivity].
      apply text_eqb_eq in E1. subst k'.
      destruct (text_eqb k k0) eqn:E2; [|reflexivity].
      apply text_eqb_eq in E2. subst k0.
      rewrite text_eqb_refl in E0. discriminate E0.
Qed.

Lemma parse_pairs_well_formed
  (unicode_lower : text -> text) (S : Type) (keyvals : list text)
  (pairs : list (text * text)) :
  Forall2 splits_as keyvals pairs ->
  forall (alarm : dict) (s : S),
    parse_pairs unicode_lower keyvals alarm s
    = Result [] s (inr (build_alarm unicode_lower pairs alarm)).
Proof.
  induction 1 as [|keyval p keyvals pairs Hp _ IH]; intros alarm s.
  - reflexivity.
  - cbn [parse_pairs]. unfold splits_as in Hp. rewrite Hp.
    rewrite IH. reflexivity.
Qed.

Lemma last_value_from (unicode_lower : text -> text) (k : text)
  (pairs : list (text * text)) :
  forall acc : option text,
    fold_left (fun acc p =>
                 if text_eqb (lower unicode_lower (fst p)) k
                 then Some (snd p) else acc) pairs acc
    = match last_value unicode_lower k pairs with
      | Some v => Some v
      | None => acc
      end.
Proof.
  unfold last_value.
  induction pairs as [|p pairs IH]; intros acc; cbn [fold_left].
  - reflexivity.
  - rewrite (IH (if text_eqb (lower unicode_lower (fst p)) k
                 then Some (snd p) else acc)).
    rewrite (IH (if text_eqb (lower unicode_lower (fst p)) k
                 then Some (snd p) else None)).
    destruct (fold_left _ pairs None) as [v|]; [reflexivity|].
    destruct (text_eqb (lower unicode_lower (fst p)) k); reflexivity.
Qed.

Lemma build_alarm_get (unicode_lower : text -> text) (k : text)
  (pairs : list (text * text)) :
  forall alarm : dict,
    dict_get (build_alarm unicode_lower pairs alarm) k
    = match last_value unicode_lower k pairs with
      | Some v => Some v
      | None => dict_get alarm k
      end.
Proof.
  intros alarm. rewrite <- last_value_from. revert alarm.
  unfold build_alarm.
  induction pairs as [|p pairs IH]; intros alarm; cbn [fold_left].
  - reflexivity.
  - rewrite IH, dict_get_set. reflexivity.
Qed.

(** X5.  When every segment of an event line is a key, one equals sign and a
    value, the loop over the segments does not raise, and the record it
    builds maps each lower-cased key to the value of the LAST segment with
    that key: [Code=A;code=B] gives the record whose [code] is [B]. *)
Theorem parse_pairs_last_wins
  (unicode_lower : text -> text) (keyvals : list text)
  (pairs : list (text * text)) (s : DahuaCamera) :
  Forall2 splits_as keyvals pairs ->
  exists alarm : dict,
    parse_pairs unicode_lower keyvals [] s = Result [] s (inr alarm)
    /\ forall k, dict_get alarm k = last_value unicode_lower k pairs.
Proof.
  intros H. exists (build_alarm unicode_lower pairs []). split.
  - apply parse_pairs_well_formed. exact H.
  - intros k. rewrite build_alarm_get.
    destruct (last_value unicode_lower k pairs); reflexivity.
Qed.

Lemma parse_pairs_last_wins_witness :
  exists alarm : dict,
    parse_pairs (fun s => s)
      (split (txt ";") (txt "Code=A;action=Start;code=B")) [] docstring_camera
    = Result [] docstring_camera (inr alarm)
    /\ dict_get alarm (txt "code") = Some (txt "B")
    /\ dict_get alarm (txt "Code") = None.
Proof.
  destruct (parse_pairs_last_wins (fun s => s)
              (split (txt ";") (txt "Code=A;action=Start;code=B"))
              [(txt "Code", txt "A"); (txt "action", txt "Start");
               (txt "code", txt "B")]
              docstring_camera) as (alarm & Hp & Hg).
  - vm_compute. repeat constructor.
  - exists alarm. split; [exact Hp|]. split; rewrite Hg; vm_compute; reflexivity.
Defined.

(** X6.  An event line whose segments are all well formed is settled by the
    record it spells: a code outside the whitelist does nothing at all; a
    whitelisted code with an action is logged and published, once per item
    of [mqtt_data]; a whitelisted code without an action is reported as a
    parse failure, with the [KeyError] of [on_alarm], and nothing is
    published.  The camera is unchanged and no exception gets out. *)
Theorem event_line_outcome
  (unicode_lower : text -> text) (line : text)
  (pairs : list (text * text)) (code : text) (s : DahuaCamera) :
  startswith line (txt "Code=") = true ->
  Forall2 splits_as (split (txt ";") line) pairs ->
  last_value unicode_lower (txt "code") pairs = Some code ->
  receive_line unicode_lower line s
  = if text_in code (split (txt ",") (events (camera s))) then
      match last_value unicode_lower (txt "action") pairs with
      | Some action =>
        Result
          (publish_effects (camera s)
             (dict_set
                (dict_set [] (topic (camera s))
                   (json_dumps (build_alarm unicode_lower pairs [])))
                (topic (camera s) ++ code) action))
          s (inr tt)
      | None =>
        Result [Log (LogFailedToParse (KeyError (txt "action")))] s (inr tt)
      end
    else Result [] s (inr tt).
Proof.
  intros Hs Hw Hc. unfold receive_line.
  rewrite (code_line_not_status line Hs), bind_ret_l, Hs. cbn [negb].
  rewrite event_line_closed. unfold event_line_effects.
  rewrite (parse_pairs_well_formed unicode_lower unit _ pairs Hw).
  cbn [value]. unfold parse_event_outcome.
  rewrite !build_alarm_get, Hc.
  destruct (text_in code _); [|reflexivity].
  destruct (last_value unicode_lower (txt "action") pairs); reflexivity.
Qed.

Lemma event_line_outcome_witness :
  receive_line (fun s => s) (txt "Code=VideoMotion;index=0") docstring_camera
  = Result [Log (LogFailedToParse (KeyError (txt "action")))]
           docstring_camera (inr tt).
Proof.
  apply (event_line_outcome (fun s => s) (txt "Code=VideoMotion;index=0")
           [(txt "Code", txt "VideoMotion"); (txt "index", txt "0")]
           (txt "VideoMotion") docstring_camera).
  - vm_compute. reflexivity.
  - vm_compute. repeat constructor.
  - vm_compute. reflexivity.
Defined.

(* ===================================================================== *)
(** ** Where a camera publishes                                            *)
(* ===================================================================== *)

Lemma publishes_app (es es' : list effect) :
  publishes (es ++ es') = publishes es ++ publishes es'.
Proof.
  induction es as [|e es IH]; [reflexivity|].
  destruct e; cbn [app publishes]; rewrite IH; reflexivity.
Qed.

Lemma publishes_publish_effects (cfg : CameraConfig) (items : dict) :
  publishes (publish_effects cfg items)
  = List.map (fun item => (strip (txt "/") (fst item), snd item)) items.
Proof.
  unfold publish_effects.
  induction items as [|item items IH]; [reflexivity|].
  cbn [flat_map List.map app publishes]. rewrite IH. reflexivity.
Qed.

(** Every topic published by [parse_event] is the camera's own topic or its
    own topic followed by a whitelisted code, stripped. *)
Lemma parse_event_outcome_topics
  (cfg : CameraConfig) (alarm : dict) (t p : text) :
  In (t, p) (publishes (fst (parse_event_outcome cfg alarm))) ->
  own_topic cfg t.
Proof.
  unfold parse_event_outcome, own_topic.
  destruct (dict_get alarm (txt "code")) as [code|]; [|intros []].
  destruct (text_in code (split (txt ",") (events cfg))) eqn:Hin; [|intros []].
  destruct (dict_get alarm (txt "action")) as [action|]; [|intros []].
  cbn [fst]. rewrite publishes_publish_effects, mqtt_data_items.
  apply text_in_In in Hin.
  destruct code as [|c code]; cbn [List.map fst snd In].
  - intros [H|[]]. left. congruence.
  - intros [H|[H|[]]].
    + left. congruence.
    + right. exists (c :: code). split; [exact Hin | congruence].
Qed.

Lemma line_effects_topics
  (unicode_lower : text -> text) (cfg : CameraConfig) (line t p : text) :
  In (t, p) (publishes (line_effects unicode_lower cfg line)) ->
  own_topic cfg t.
Proof.
  unfold line_effects. rewrite publishes_app. intros H.
  apply in_app_or in H. destruct H as [H|H].
  - destruct (text_eqb line status_line); destruct H.
  - destruct (startswith line (txt "Code=")); [|destruct H].
    unfold event_line_effects in H.
    destruct (value (parse_pairs unicode_lower (split (txt ";") line) [] tt))
      as [ex|alarm]; [destruct H|].
    pose proof (parse_event_outcome_topics cfg alarm t p) as G.
    destruct (parse_event_outcome cfg alarm) as [es [ex|[]]]; cbn [fst] in G.
    + rewrite publishes_app in H. apply in_app_or in H.
      destruct H as [H|H]; [exact (G H) | destruct H].
    + exact (G H).
Qed.

Lemma on_receive_topics
  (unicode_lower : text -> text) (data : list byte) (s : DahuaCamera)
  (t p : text) :
  In (t, p) (publishes (effects (on_receive unicode_lower data s))) ->
  own_topic (camera s) t.
Proof.
  unfold on_receive.
  rewrite (receive_lines_effects unicode_lower s _ s eq_refl).
  generalize (split crlf (decode_utf8_ignore data)). intros lines.
  induction lines as [|line lines IH]; cbn [flat_map]; [intros []|].
  rewrite publishes_app. intros H. apply in_app_or in H.
  destruct H as [H|H]; [|exact (IH H)].
  rewrite receive_line_closed in H.
  exact (line_effects_topics unicode_lower (camera s) line t p H).
Qed.

(** X7.  Whatever bytes a camera receives, every publish call that
    [on_receive] makes goes to the camera's own topic or to its own topic
    followed by a code of its own whitelist (slashes at the ends removed): no
    chunk can make it publish under another topic, nor a code that is not
    whitelisted. *)
Theorem on_receive_publishes_own_topics
  (unicode_lower : text -> text) (data : list byte) (s : DahuaCamera)
  (t p : text) :
  In (t, p) (publishes (effects (on_receive unicode_lower data s))) ->
  own_topic (camera s) t.
Proof. apply on_receive_topics. Qed.

Lemma on_receive_publishes_own_topics_witness :
  own_topic (camera docstring_camera) (txt "cameras/1VideoMotion").
Proof.
  apply (on_receive_publishes_own_topics (fun s => s)
           (bytes "Code=VideoMotion;action=Start;index=0")
           docstring_camera (txt "cameras/1VideoMotion") (txt "Start")).
  vm_compute. right. left. reflexivity.
Defined.

Lemma lstrip_head (chars s : text) (c : char) (rest : text) :
  lstrip chars s = c :: rest -> char_in c chars = false.
Proof.
  induction s as [|x s IH]; cbn [lstrip]; [discriminate|].
  destruct (char_in x chars) eqn:E; [exact IH|].
  intros H. injection H as <- _. exact E.
Qed.

Lemma lstrip_suffix (chars s : text) :
  exists pre, s = pre ++ lstrip chars s.
Proof.
  induction s as [|x s (pre & IH)]; cbn [lstrip].
  - exists []. reflexivity.
  - destruct (char_in x chars).
    + exists (x :: pre). cbn [app]. f_equal. exact IH.
    + exists []. reflexivity.
Qed.

Lemma rstrip_prefix (chars s : text) :
  exists suf, s = rstrip chars s ++ suf.
Proof.
  unfold rstrip. destruct (lstrip_suffix chars (rev s)) as (pre & H).
  exists (rev pre). rewrite <- rev_app_distr, <- H, rev_involutive.
  reflexivity.
Qed.

Lemma strip_first (chars s : text) (c : char) (rest : text) :
  strip chars s = c :: rest -> char_in c chars = false.
Proof.
  unfold strip. intros H.
  destruct (rstrip_prefix chars (lstrip chars s)) as (suf & E).
  rewrite H in E. cbn [app] in E.
  exact (lstrip_head chars s c (rest ++ suf) E).
Qed.

Lemma strip_last (chars s : text) (c : char) (pre : text) :
  strip chars s = pre ++ [c] -> char_in c chars = false.
Proof.
  unfold strip, rstrip. intros H.
  apply (f_equal (@rev char)) in H.
  rewrite rev_involutive, rev_app_distr in H. cbn [rev app] in H.
  exact (lstrip_head chars _ c (rev pre) H).
Qed.

(** X8.  No topic that [on_receive] publishes to begins or ends with a
    slash, however the camera's topic and the event's code are written. *)
Theorem published_topics_have_no_outer_slash
  (unicode_lower : text -> text) (data : list byte) (s : DahuaCamera)
  (t p : text) :
  In (t, p) (publishes (effects (on_receive unicode_lower data s))) ->
  (forall rest, t <> txt "/" ++ rest) /\ (forall pre, t <> pre ++ txt "/").
Proof.
  intros H. apply on_receive_topics in H.
  assert (G : exists x, t = strip (txt "/") x).
  { destruct H as [H|(code & _ & H)]; eauto. }
  destruct G as (x & ->). split.
  - intros rest E. apply strip_first in E. vm_compute in E. discriminate E.
  - intros pre E. apply strip_last in E. vm_compute in E. discriminate E.
Qed.

Lemma published_topics_have_no_outer_slash_witness :
  (forall rest, txt "cameras/1/VideoMotion" <> txt "/" ++ rest)
  /\ (forall pre, txt "cameras/1/VideoMotion" <> pre ++ txt "/").
Proof.
  apply (published_topics_have_no_outer_slash (fun s => s)
           (bytes "Code=VideoMotion;action=Start;index=0")
           (DahuaCamera_init
              {| host := txt "192.168.0.1"; port := txt "80";
                 user := txt "user"; pass := txt "pass";
                 topic := txt "/cameras/1/"; events := txt "VideoMotion" |})
           (txt "cameras/1/VideoMotion") (txt "Start")).
  vm_compute. right. left. reflexivity.
Defined.

(* ===================================================================== *)
(** ** Stopping the worker                                                 *)
(* ===================================================================== *)

(** With the flag set, a live worker reads nothing from libcurl: from the
    tests of the two inner loops it goes to [select], and from there out. *)
Lemma killed_step
  (unicode_lower : text -> text) (hass_attrs : list string)
  (w : World) (i : nat) (at_ : pc) (inp : curl_input) :
  proc (objs w i) = Some (Running at_) ->
  kill_thread (objs w i) = true ->
  worker_step unicode_lower hass_attrs i inp w
  = (with_obj w i
       (set_proc (objs w i)
          (match at_ with AtSelect => Finished None | _ => Running AtSelect end)),
     match at_ with AtSelect => [Log LogThreadExited] | _ => [] end).
Proof.
  intros Hp Hk. unfold worker_step. rewrite Hp.
  unfold thread_process. rewrite get_obj_bind, Hk.
  destruct at_; reflexivity.
Qed.

Lemma flag_stays_refl (j : nat) (w : World) : flag_stays j w w.
Proof. intros H. exact H. Qed.

Lemma flag_stays_trans (j : nat) (w1 w2 w3 : World) :
  flag_stays j w1 w2 -> flag_stays j w2 w3 -> flag_stays j w1 w3.
Proof. unfold flag_stays. auto. Qed.

Lemma flag_stays_objs (j : nat) (w w' : World) :
  objs w' j = objs w j -> flag_stays j w w'.
Proof. intros E H. rewrite E. exact H. Qed.

Lemma on_camera_flag (j pos : nat) (m : M DahuaCamera unit) :
  respects (flag_stays j) (on_camera pos m).
Proof.
  intros w. apply flag_stays_objs. unfold on_camera.
  destruct (nth_error (cameras w) pos) as [c|]; [|reflexivity].
  destruct (m c); reflexivity.
Qed.

Lemma disconnect_camera_flag (j pos : nat) (reason : disconnect_reason) :
  respects (flag_stays j) (disconnect_camera pos reason).
Proof.
  intros w. apply flag_stays_objs.
  destruct (nth_error (cameras w) pos) as [c|] eqn:Hn.
  - rewrite (disconnect_camera_at w pos c reason Hn). reflexivity.
  - rewrite (disconnect_camera_none w pos reason Hn). reflexivity.
Qed.

Lemma sweep_body_flag (j pos : nat) : respects (flag_stays j) (sweep_body pos).
Proof.
  intros w. apply flag_stays_objs.
  destruct (sweep_body_state pos w) as [-> | [-> | (c & h & _ & _ & _ & ->)]];
    reflexivity.
Qed.

Lemma worker_step_flag
  (unicode_lower : text -> text) (hass_attrs : list string)
  (j i : nat) (inp : curl_input) (w : World) :
  flag_stays j w (fst (worker_step unicode_lower hass_attrs i inp w)).
Proof.
  unfold worker_step.
  destruct (proc (objs w i)) as [[at_ | died]|]; try apply flag_stays_refl.
  pose proof (thread_process_respects (flag_stays j) (flag_stays_refl j)
                (flag_stays_trans j)
                (fun pos m _ => on_camera_flag j pos m)
                (disconnect_camera_flag j) (sweep_body_flag j)
                unicode_lower hass_attrs i at_ inp w) as H.
  destruct (thread_process unicode_lower hass_attrs i at_ inp w) as [es w' v].
  cbn [state_of fst] in *. intros Hk. specialize (H Hk).
  cbn [objs with_obj]. destruct (Nat.eqb j i) eqn:E; [|exact H].
  apply Nat.eqb_eq in E. subst j. exact H.
Qed.

Lemma terminate_flag (j i : nat) (w : World) :
  flag_stays j w (state_of (terminate i w)).
Proof.
  destruct (proc (objs w i)) as [[at_ | died]|] eqn:Hp.
  - rewrite (terminate_alive i w at_ Hp). cbn [state_of]. intros Hk.
    cbn [objs with_obj]. destruct (Nat.eqb j i); [reflexivity | exact Hk].
  - unfold terminate. rewrite get_obj_bind, Hp. apply flag_stays_refl.
  - unfold terminate. rewrite get_obj_bind, Hp. apply flag_stays_refl.
Qed.

(** No assignment of [initialize] is to [kill_thread], whether the loop
    over the cameras runs to its end or pycurl stops it. *)
Lemma initialize_camera_flag (j i : nat) (cfg : CameraConfig) :
  respects (flag_stays j) (initialize_camera i cfg).
Proof.
  intros w Hk. unfold initialize_camera.
  unfold new_curl, update_camera, on_camera, setopts, add_handle, get_obj, set_obj.
  unfold bind, get, put, ret, emit, raise. cbn -[txt URL_TEMPLATE handle_in].
  rewrite nth_error_app_last. cbn -[txt URL_TEMPLATE handle_in].
  destruct (handle_in _ _); cbn -[txt URL_TEMPLATE]; [exact Hk|].
  destruct (Nat.eqb j i) eqn:E; [|exact Hk].
  apply Nat.eqb_eq in E. subst j. exact Hk.
Qed.

Lemma initialize_flag (j i : nat) (w : World) :
  flag_stays j w (state_of (initialize i w)).
Proof.
  revert w. change (respects (flag_stays j) (initialize i)).
  unfold initialize.
  apply (respects_bind (flag_stays j) (flag_stays_trans j)).
  { intros s. apply flag_stays_refl. }
  intros self. apply (respects_bind (flag_stays j) (flag_stays_trans j)).
  { apply (respects_for_each (flag_stays j) (flag_stays_refl j)
             (flag_stays_trans j)).
    intros cfg _. apply initialize_camera_flag. }
  intros _. apply (respects_bind (flag_stays j) (flag_stays_trans j)).
  { intros s. apply flag_stays_refl. }
  intros _ s Hk. rewrite get_obj_bind. unfold set_obj. rewrite bind_get.
  cbn [put state_of objs with_obj].
  destruct (Nat.eqb j i) eqn:E; [|exact Hk].
  apply Nat.eqb_eq in E. subst j. exact Hk.
Qed.

Lemma run_flag
  (unicode_lower : text -> text) (hass_attrs : list string)
  (j : nat) (evs : list event) :
  forall w, flag_stays j w (fst (run unicode_lower hass_attrs evs w)).
Proof.
  induction evs as [|ev evs IH]; intros w; cbn [run].
  - apply flag_stays_refl.
  - assert (H1 : flag_stays j w
                   (fst (apply_event unicode_lower hass_attrs ev w))).
    { destruct ev as [i | i | i inp]; cbn [apply_event].
      - pose proof (initialize_flag j i w) as H.
        destruct (initialize i w). exact H.
      - pose proof (terminate_flag j i w) as H.
        destruct (terminate i w). exact H.
      - apply worker_step_flag. }
    destruct (apply_event unicode_lower hass_attrs ev w) as [w1 es1].
    cbn [fst] in *. specialize (IH w1).
    destruct (run unicode_lower hass_attrs evs w1) as [w2 es2].
    cbn [fst] in *. exact (flag_stays_trans j w w1 w2 H1 IH).
Qed.

(** X9.  The stop flag is final.  Once [kill_thread] of an object reads as
    set, no call of [initialize] or [terminate] and no iteration of any
    worker sets it back.  A live worker that finds it set when it tests it,
    at the top of any of its three loops, makes no further call of libcurl:
    whatever libcurl would report, it is out of [thread_process], with the
    log line of a regular exit, after at most two tests, and on the way it
    delivers no data, reads no clock and touches neither the cameras nor
    the stack.  The statement is about the tests made with the flag set: an
    iteration that has passed its test before runs to its end first. *)
Theorem stop_flag_stops_worker
  (unicode_lower : text -> text) (hass_attrs : list string)
  (w : World) (i : nat) (at_ : pc) (inp1 inp2 : curl_input) :
  proc (objs w i) = Some (Running at_) ->
  kill_thread (objs w i) = true ->
  (forall evs,
     kill_thread (objs (fst (run unicode_lower hass_attrs evs w)) i) = true)
  /\
  let r := run unicode_lower hass_attrs [EvStep i inp1; EvStep i inp2] w in
  snd r = [Log LogThreadExited]
  /\ proc (objs (fst r) i) = Some (Finished None)
  /\ cameras (fst r) = cameras w
  /\ curl_multiobj (fst r) = curl_multiobj w
  /\ ticks (fst r) = ticks w.
Proof.
  intros Hp Hk. split.
  { intros evs. apply (run_flag unicode_lower hass_attrs i evs w Hk). }
  cbn zeta. cbn [run apply_event].
  rewrite (killed_step unicode_lower hass_attrs w i at_ inp1 Hp Hk).
  set (w2 := with_obj w i _).
  destruct at_.
  - assert (Hp2 : proc (objs w2 i) = Some (Running AtSelect)).
    { unfold w2. rewrite with_obj_same. reflexivity. }
    assert (Hk2 : kill_thread (objs w2 i) = true).
    { unfold w2. rewrite with_obj_same. exact Hk. }
    rewrite (killed_step unicode_lower hass_attrs w2 i AtSelect inp2 Hp2 Hk2).
    cbn [fst snd app]. rewrite with_obj_same. repeat split.
  - assert (Hp2 : proc (objs w2 i) = Some (Finished None)).
    { unfold w2. rewrite with_obj_same. reflexivity. }
    rewrite (finished_worker_stays unicode_lower hass_attrs w2 i None inp2 Hp2).
    cbn [fst snd app]. repeat split. exact Hp2.
  - assert (Hp2 : proc (objs w2 i) = Some (Running AtSelect)).
    { unfold w2. rewrite with_obj_same. reflexivity. }
    assert (Hk2 : kill_thread (objs w2 i) = true).
    { unfold w2. rewrite with_obj_same. exact Hk. }
    rewrite (killed_step unicode_lower hass_attrs w2 i AtSelect inp2 Hp2 Hk2).
    cbn [fst snd app]. rewrite with_obj_same. repeat split.
Qed.

(** The worker of [before_failure_world] stands at the test of its inner
    loop when [terminate] has returned; [select] is not called again. *)
Lemma stop_flag_stops_worker_witness :
  let w := state_of (terminate 0 before_failure_world) in
  let r := run (fun s => s) [] [EvStep 0 connect_failed; EvStep 0 select_failed]
               w in
  snd r = [Log LogThreadExited]
  /\ proc (objs (fst r) 0%nat) = Some (Finished None)
  /\ cameras (fst r) = cameras w
  /\ curl_multiobj (fst r) = curl_multiobj w
  /\ ticks (fst r) = ticks w.
Proof.
  intros w.
  apply (proj2 (stop_flag_stops_worker (fun s => s) [] w 0 AtPerform
                  connect_failed select_failed eq_refl eq_refl)).
Defined.

(* ===================================================================== *)
(** ** Handles and cameras in reachable worlds                             *)
(* ===================================================================== *)

Lemma wired_ext_multi (w w' : World) :
  wired w ->
  NoDup (curl_multiobj w') ->
  curl_objects w' = curl_objects w ->
  List.map (fun c => (camera c, curlobj c)) (cameras w')
  = List.map (fun c => (camera c, curlobj c)) (cameras w) ->
  wired w'.
Proof.
  intros (H1 & H2 & H3) Hm Eo Ec. split; [exact Hm|]. split.
  - assert (E : List.map curlobj (cameras w') = List.map curlobj (cameras w)).
    { transitivity
        (List.map snd (List.map (fun c => (camera c, curlobj c)) (cameras w'))).
      - rewrite map_map. reflexivity.
      - rewrite Ec, map_map. reflexivity. }
    rewrite E. exact H2.
  - intros c h Hin Hh.
    apply (in_map (fun c => (camera c, curlobj c))) in Hin.
    rewrite Ec in Hin. apply in_map_iff in Hin.
    destruct Hin as (c0 & E0 & Hin0). injection E0 as Ecam Ecurl.
    rewrite Eo, <- Ecam. apply (H3 c0 h Hin0). congruence.
Qed.

Lemma wired_ext (w w' : World) :
  wired w ->
  curl_multiobj w' = curl_multiobj w ->
  curl_objects w' = curl_objects w ->
  List.map (fun c => (camera c, curlobj c)) (cameras w')
  = List.map (fun c => (camera c, curlobj c)) (cameras w) ->
  wired w'.
Proof.
  intros Hw Em. apply wired_ext_multi; [exact Hw|].
  rewrite Em. exact (proj1 Hw).
Qed.

Lemma wired_step_refl (w : World) : wired_step w w.
Proof. intros H. exact H. Qed.

Lemma wired_step_trans (w1 w2 w3 : World) :
  wired_step w1 w2 -> wired_step w2 w3 -> wired_step w1 w3.
Proof. unfold wired_step. auto. Qed.

Lemma on_camera_wired (pos : nat) (m : M DahuaCamera unit) :
  respects same_but_connected m -> respects wired_step (on_camera pos m).
Proof.
  intros Hm w Hw. unfold on_camera.
  destruct (nth_error (cameras w) pos) as [c|] eqn:Hn; [|exact Hw].
  pose proof (Hm c) as Hc. destruct (m c) as [es c' v].
  cbn [state_of] in *. apply (wired_ext w); try reflexivity; [exact Hw|].
  cbn [cameras with_cameras].
  apply (map_list_set_same _ _ _ c c' Hn).
  destruct Hc as (E1 & E2 & _). rewrite E1, E2. reflexivity.
Qed.

Lemma disconnect_camera_wired (pos : nat) (reason : disconnect_reason) :
  respects wired_step (disconnect_camera pos reason).
Proof.
  intros w Hw. destruct (nth_error (cameras w) pos) as [c|] eqn:Hn.
  - rewrite (disconnect_camera_at w pos c reason Hn). cbn [state_of].
    apply (wired_ext w); try reflexivity; [exact Hw|].
    cbn [cameras ticked with_ticks with_cameras].
    apply (map_list_set_same _ _ _ c _ Hn). reflexivity.
  - rewrite (disconnect_camera_none w pos reason Hn). cbn [state_of].
    apply (wired_ext w); try reflexivity. exact Hw.
Qed.

Lemma NoDup_readded (h : handle) (m : list handle) :
  NoDup m -> NoDup (readded h m).
Proof.
  intros H. unfold readded. apply NoDup_app.
  - apply NoDup_filter, H.
  - constructor; [intros [] | constructor].
  - intros a Ha [<- | []]. apply filter_In in Ha. destruct Ha as [_ Ha].
    rewrite Nat.eqb_refl in Ha. discriminate Ha.
Qed.

Lemma sweep_body_wired (pos : nat) : respects wired_step (sweep_body pos).
Proof.
  intros w Hw.
  destruct (sweep_body_state pos w) as [-> | [-> | (c & h & Hn & Hh & Hin & ->)]].
  - exact Hw.
  - apply (wired_ext w); try reflexivity. exact Hw.
  - apply (wired_ext_multi w); try reflexivity; [exact Hw | |].
    + cbn [curl_multiobj with_cameras with_multi].
      apply NoDup_readded. exact (proj1 Hw).
    + cbn [cameras with_cameras].
      apply (map_list_set_same _ _ _ c _ Hn). reflexivity.
Qed.

Lemma thread_process_wired
  (unicode_lower : text -> text) (hass_attrs : list string)
  (i : nat) (at_ : pc) (inp : curl_input) :
  respects wired_step (thread_process unicode_lower hass_attrs i at_ inp).
Proof.
  apply (thread_process_respects wired_step wired_step_refl wired_step_trans
           on_camera_wired disconnect_camera_wired sweep_body_wired).
Qed.

Lemma worker_step_wired
  (unicode_lower : text -> text) (hass_attrs : list string)
  (i : nat) (inp : curl_input) (w : World) :
  wired w -> wired (fst (worker_step unicode_lower hass_attrs i inp w)).
Proof.
  intros Hw. unfold worker_step.
  destruct (proc (objs w i)) as [[at_ | died]|]; try exact Hw.
  pose proof (thread_process_wired unicode_lower hass_attrs i at_ inp w Hw) as H.
  destruct (thread_process unicode_lower hass_attrs i at_ inp w) as [es w' v].
  cbn [state_of fst] in *. apply (wired_ext w'); try reflexivity. exact H.
Qed.

Lemma terminate_wired (i : nat) (w : World) :
  wired w -> wired (state_of (terminate i w)).
Proof.
  intros Hw. destruct (proc (objs w i)) as [[at_ | died]|] eqn:Hp.
  - rewrite (terminate_alive i w at_ Hp).
    apply (wired_ext w); try reflexivity. exact Hw.
  - unfold terminate. rewrite get_obj_bind, Hp. exact Hw.
  - unfold terminate. rewrite get_obj_bind, Hp. exact Hw.
Qed.

(** The loop of [initialize] sets, on each handle it makes, the options of
    the entry it makes the handle for. *)
Lemma initialize_loop_options (i : nat) (cfgs : list CameraConfig) :
  forall w, fresh_handles w ->
  curl_objects (state_of (for_each cfgs (initialize_camera i) w))
  = curl_objects w ++ List.map curl_options cfgs.
Proof.
  induction cfgs as [|cfg cfgs IH]; intros w Hf.
  - cbn [for_each ret state_of List.map]. rewrite app_nil_r. reflexivity.
  - pose proof (initialize_camera_fresh i cfg w (fresh_not_registered w Hf)) as H1.
    set (w1 := {| cameras := _; curl_multiobj := _; curl_objects := _;
                  clock := _; ticks := _; objs := _ |}) in H1.
    assert (Hf1 : fresh_handles w1).
    { unfold fresh_handles, w1. cbn [curl_multiobj curl_objects].
      rewrite length_app. cbn [length]. apply Forall_app. split.
      - eapply Forall_impl; [|exact Hf]. cbn beta. intros; lia.
      - constructor; [lia | constructor]. }
    cbn [for_each]. rewrite (bind_total _ _ w tt); rewrite H1; [|reflexivity].
    cbn [state_of]. rewrite (IH w1 Hf1). unfold w1. cbn [curl_objects List.map].
    rewrite <- app_assoc. reflexivity.
Qed.

Lemma registered_from_nth (cfgs : list CameraConfig) :
  forall h0 c, In c (registered_from h0 cfgs) ->
  exists k cfg, nth_error cfgs k = Some cfg /\ c = registered cfg (h0 + k)%nat.
Proof.
  induction cfgs as [|cfg cfgs IH]; intros h0 c; cbn [registered_from In].
  - intros [].
  - intros [<- | H].
    + exists 0%nat, cfg. rewrite Nat.add_0_r. split; reflexivity.
    + destruct (IH (S h0) c H) as (k & cfg' & Hk & ->).
      exists (S k), cfg'. split; [exact Hk|]. f_equal. lia.
Qed.

Lemma NoDup_map_Some (l : list handle) :
  NoDup l -> NoDup (List.map (@Some handle) l).
Proof.
  induction 1 as [|x l Hx _ IH]; cbn [List.map]; constructor; [|exact IH].
  intros H. apply in_map_iff in H. destruct H as (y & E & Hy).
  injection E as ->. exact (Hx Hy).
Qed.

Lemma initialize_wired (i : nat) (w : World) :
  world_ok w -> wired w -> wired (state_of (initialize i w)).
Proof.
  intros (Hc & Hf & _) (H1 & H2 & H3).
  assert (Hold : forall h, In (Some h) (List.map curlobj (cameras w)) ->
                           (h < length (curl_objects w))%nat).
  { intros h Hin. apply in_map_iff in Hin. destruct Hin as (c & Hh & Hin).
    rewrite Forall_forall in Hc. destruct (Hc c Hin) as ((h' & Hh' & Hm) & _).
    unfold fresh_handles in Hf. rewrite Forall_forall in Hf.
    assert (h' = h) by congruence. subst h'. exact (Hf h Hm). }
  pose proof (initialize_loop_options i (args_cameras (objs w i)) w Hf) as Ho.
  destruct (initialize_fresh i w Hf) as (_ & _ & w1 & Hi & Hs).
  assert (Ho1 : curl_objects (state_of (initialize i w))
                = curl_objects w ++ List.map curl_options (args_cameras (objs w i))).
  { rewrite <- Ho. unfold initialize. rewrite get_obj_bind.
    destruct (initialize_loop i (args_cameras (objs w i)) w Hf) as (Hv & _ & _).
    rewrite (bind_total _ _ w tt Hv). reflexivity. }
  rewrite Hs in *. clear Hs Ho. destruct Hi.
  cbn [curl_objects with_obj] in Ho1.
  split; [|split].
  - cbn [curl_multiobj with_obj]. rewrite init_multi0. apply NoDup_app.
    + exact H1.
    + apply seq_NoDup.
    + intros h Hh Hs. apply in_seq in Hs.
      unfold fresh_handles in Hf. rewrite Forall_forall in Hf.
      specialize (Hf h Hh). lia.
  - cbn [cameras with_obj]. rewrite init_cameras0, map_app, registered_from_handles.
    apply NoDup_app.
    + exact H2.
    + apply NoDup_map_Some, seq_NoDup.
    + intros [h|] Hh Hs.
      * apply Hold in Hh. apply in_map_iff in Hs.
        destruct Hs as (h' & E & Hs). injection E as ->.
        apply in_seq in Hs. lia.
      * apply in_map_iff in Hs. destruct Hs as (h' & E & _). discriminate E.
  - intros c h Hin Hh. cbn [cameras curl_objects with_obj] in *.
    rewrite Ho1. rewrite init_cameras0 in Hin. apply in_app_or in Hin.
    destruct Hin as [Hin | Hin].
    + pose proof (H3 c h Hin Hh) as E.
      rewrite nth_error_app1; [exact E|].
      apply nth_error_Some. rewrite E. discriminate.
    + apply registered_from_nth in Hin. destruct Hin as (k & cfg & Hk & ->).
      cbn [registered set_curlobj curlobj camera DahuaCamera_init] in *.
      injection Hh as <-.
      rewrite nth_error_app2 by lia.
      replace (length (curl_objects w) + k - length (curl_objects w))%nat
        with k by lia.
      apply map_nth_error. exact Hk.
Qed.

Lemma apply_event_wired
  (unicode_lower : text -> text) (hass_attrs : list string)
  (ev : event) (w : World) :
  world_ok w -> wired w ->
  wired (fst (apply_event unicode_lower hass_attrs ev w)).
Proof.
  intros Hok Hw. destruct ev as [i | i | i inp]; cbn [apply_event].
  - pose proof (initialize_wired i w Hok Hw) as H.
    destruct (initialize i w). exact H.
  - pose proof (terminate_wired i w Hw) as H.
    destruct (terminate i w). exact H.
  - apply worker_step_wired, Hw.
Qed.

Lemma run_wired
  (unicode_lower : text -> text) (hass_attrs : list string) (evs : list event) :
  forall w, world_ok w -> wired w ->
  wired (fst (run unicode_lower hass_attrs evs w)).
Proof.
  induction evs as [|ev evs IH]; intros w Hok Hw; cbn [run].
  - exact Hw.
  - pose proof (apply_event_ok unicode_lower hass_attrs ev w Hok) as Hok1.
    pose proof (apply_event_wired unicode_lower hass_attrs ev w Hok Hw) as Hw1.
    destruct (apply_event unicode_lower hass_attrs ev w) as [w1 es1].
    cbn [fst] in *. specialize (IH w1 Hok1 Hw1).
    destruct (run unicode_lower hass_attrs evs w1) as [w2 es2]. exact IH.
Qed.

Lemma boot_wired (clk : nat -> Q) (args : nat -> list CameraConfig) :
  wired (boot clk args).
Proof.
  split; [constructor|]. split; [constructor|]. intros c h [].
Qed.

Lemma boot_known (clk : nat -> Q) (args : nat -> list CameraConfig) :
  stack_known (boot clk args).
Proof. constructor. Qed.

(** X10.  In every world the program can reach, the handles on the
    [CurlMulti] stack are the handles of the cameras of the list, each of
    them once: no handle is registered twice, no two cameras share a handle,
    and there are as many handles on the stack as cameras, also while
    cameras fail, wait and are armed again. *)
Theorem reachable_one_handle_per_camera
  (unicode_lower : text -> text) (hass_attrs : list string)
  (clk : nat -> Q) (args : nat -> list CameraConfig) (evs : list event) :
  (forall k, (0 <= clk k)%Q) ->
  one_handle_per_camera (fst (run unicode_lower hass_attrs evs (boot clk args))).
Proof.
  intros Hclk.
  pose proof (run_ok unicode_lower hass_attrs evs _ (boot_ok clk args Hclk)) as Hok.
  pose proof (run_wired unicode_lower hass_attrs evs _
                (boot_ok clk args Hclk) (boot_wired clk args)) as Hw.
  pose proof (run_known unicode_lower hass_attrs evs _
                (boot_ok clk args Hclk) (boot_known clk args)) as Hk.
  set (w := fst (run unicode_lower hass_attrs evs (boot clk args))) in *.
  destruct Hw as (H1 & H2 & _). destruct Hok as (Hc & _ & _).
  assert (Hiff : forall h, In h (curl_multiobj w) <-> knows w h).
  { intros h. split.
    - unfold stack_known in Hk. rewrite Forall_forall in Hk. apply Hk.
    - unfold knows. intros Hin. apply in_map_iff in Hin.
      destruct Hin as (c & Hh & Hin). rewrite Forall_forall in Hc.
      destruct (Hc c Hin) as ((h' & Hh' & Hm) & _).
      assert (h' = h) by congruence. subst h'. exact Hm. }
  split; [exact H1|]. split; [exact H2|]. split; [exact Hiff|].
  assert (Hsome : forall x, In x (List.map curlobj (cameras w)) ->
                            In x (List.map (@Some handle) (curl_multiobj w))).
  { intros x Hx. pose proof Hx as Hx'. apply in_map_iff in Hx.
    destruct Hx as (c & <- & Hin). rewrite Forall_forall in Hc.
    destruct (Hc c Hin) as ((h' & Hh' & Hm) & _). rewrite Hh'.
    apply in_map. exact Hm. }
  apply Nat.le_antisymm.
  - rewrite <- (length_map (@Some handle)), <- (length_map curlobj (cameras w)).
    apply NoDup_incl_length; [apply NoDup_map_Some, H1|].
    intros x Hx. apply in_map_iff in Hx. destruct Hx as (h & <- & Hh).
    apply Hiff, Hh.
  - rewrite <- (length_map (@Some handle)), <- (length_map curlobj (cameras w)).
    apply NoDup_incl_length; [exact H2 | exact Hsome].
Qed.

Lemma reachable_one_handle_per_camera_witness :
  one_handle_per_camera at_deadline_world.
Proof.
  apply (reachable_one_handle_per_camera (fun s => s) [] steady_clock
           one_camera_args), steady_clock_nonneg.
Defined.

(** X11.  In every world the program can reach, the handle of each camera
    carries the URL made by [URL_TEMPLATE] from that camera's own entry and
    the credentials [user:pass] of that entry: handles and configurations
    are never crossed, whatever number of apps and cameras there is. *)
Theorem reachable_options_of_own_camera
  (unicode_lower : text -> text) (hass_attrs : list string)
  (clk : nat -> Q) (args : nat -> list CameraConfig) (evs : list event) :
  (forall k, (0 <= clk k)%Q) ->
  options_of_own_camera
    (fst (run unicode_lower hass_attrs evs (boot clk args))).
Proof.
  intros Hclk.
  exact (proj2 (proj2 (run_wired unicode_lower hass_attrs evs _
                         (boot_ok clk args Hclk) (boot_wired clk args)))).
Qed.

Lemma reachable_options_of_own_camera_witness :
  options_of_own_camera two_cameras_world.
Proof.
  apply (reachable_options_of_own_camera (fun s => s) [] steady_clock
           two_cameras_args), steady_clock_nonneg.
Defined.

(* ===================================================================== *)
(** ** What an iteration of the worker leaves alone                        *)
(* ===================================================================== *)

Lemma Forall2_same_refl (l : list DahuaCamera) :
  Forall2 same_but_connected l l.
Proof.
  induction l; constructor; [apply same_but_connected_refl | assumption].
Qed.

Lemma Forall2_same_trans (l1 l2 l3 : list DahuaCamera) :
  Forall2 same_but_connected l1 l2 -> Forall2 same_but_connected l2 l3 ->
  Forall2 same_but_connected l1 l3.
Proof.
  intros H12. revert l3. induction H12 as [|x y l1 l2 Hxy _ IH]; intros l3 H23.
  - inversion H23. constructor.
  - inversion H23 as [|y' z l2' l3' Hyz H23']; subst. constructor.
    + eapply same_but_connected_trans; eassumption.
    + apply IH, H23'.
Qed.

Lemma Forall2_same_list_set (l : list DahuaCamera) (pos : nat) (c c' : DahuaCamera) :
  nth_error l pos = Some c -> same_but_connected c c' ->
  Forall2 same_but_connected l (list_set l pos c').
Proof.
  revert pos. induction l as [|x l IH]; intros [|pos]; cbn [nth_error list_set];
    try discriminate.
  - intros E H. injection E as ->. constructor; [exact H | apply Forall2_same_refl].
  - intros E H. constructor; [apply same_but_connected_refl | apply (IH pos E H)].
Qed.

Lemma only_connected_refl (w : World) : only_connected w w.
Proof. split; [apply Forall2_same_refl | repeat split]. Qed.

Lemma only_connected_trans (w1 w2 w3 : World) :
  only_connected w1 w2 -> only_connected w2 w3 -> only_connected w1 w3.
Proof.
  intros (A1 & B1 & C1 & D1) (A2 & B2 & C2 & D2). split.
  - eapply Forall2_same_trans; eassumption.
  - repeat split; congruence.
Qed.

Lemma on_camera_only_connected (pos : nat) (m : M DahuaCamera unit) :
  respects same_but_connected m -> respects only_connected (on_camera pos m).
Proof.
  intros Hm w. unfold on_camera.
  destruct (nth_error (cameras w) pos) as [c|] eqn:Hn;
    [|apply only_connected_refl].
  pose proof (Hm c) as Hc. destruct (m c) as [es c' v]. cbn [state_of] in *.
  split; [|repeat split].
  cbn [cameras with_cameras]. apply (Forall2_same_list_set _ _ c c' Hn Hc).
Qed.

Lemma on_camera_total (pos : nat) (m : M DahuaCamera unit) :
  (forall c, value (m c) = inr tt) ->
  forall w, value (on_camera pos m w) = inr tt.
Proof.
  intros Hm w. unfold on_camera.
  destruct (nth_error (cameras w) pos) as [c|]; [|reflexivity].
  specialize (Hm c). destruct (m c) as [es c' v]. exact Hm.
Qed.

(** [perform()] itself never raises: it hands back what libcurl reports. *)
Lemma perform_total
  (unicode_lower : text -> text) (inp : curl_input) (w : World) :
  value (perform unicode_lower inp w) = inr (in_ret inp, in_num_handles inp).
Proof.
  unfold perform. rewrite (bind_total _ _ w tt); [reflexivity|].
  apply for_each_total. intros hd s. rewrite bind_get.
  destruct (find_first _ _) as [[pos c]|]; [|reflexivity].
  apply on_camera_total. intros c0. unfold on_receive.
  apply receive_lines_total.
Qed.

Lemma perform_only_connected
  (unicode_lower : text -> text) (inp : curl_input) :
  respects only_connected (perform unicode_lower inp).
Proof.
  apply (perform_respects only_connected only_connected_refl
           only_connected_trans on_camera_only_connected).
Qed.

(** X12.  The worker looks at [info_read()] only in an iteration of its
    inner loop in which [perform()] counts a number of running handles other
    than the object's own [num_curlobj].  In every other iteration, whatever
    [info_read()] would report, no camera is marked as lost or armed again:
    nothing changes but the [connected] flag of cameras that receive the
    status line, and the clock is not read. *)
Theorem no_reconcile_with_equal_count
  (unicode_lower : text -> text) (hass_attrs : list string)
  (w : World) (i : nat) (at_ : pc) (inp : curl_input) :
  proc (objs w i) = Some (Running at_) ->
  (at_ = AtPerform -> kill_thread (objs w i) = false ->
     in_num_handles inp = num_curlobj (objs w i)) ->
  only_connected w (fst (worker_step unicode_lower hass_attrs i inp w)).
Proof.
  intros Hp Hc. unfold worker_step. rewrite Hp.
  assert (G : only_connected w
                (state_of (thread_process unicode_lower hass_attrs i at_ inp w))).
  { unfold thread_process. rewrite get_obj_bind.
    pose proof (perform_only_connected unicode_lower inp w) as Hperf.
    destruct at_.
    - destruct (kill_thread (objs w i)); [apply only_connected_refl|].
      rewrite (bind_total _ _ w _ (perform_total unicode_lower inp w)).
      cbn [state_of fst]. destruct (negb _); exact Hperf.
    - destruct (kill_thread (objs w i)); [apply only_connected_refl|].
      destruct (Z.eqb _ _); [|apply only_connected_refl].
      unfold call_on_timer. destruct (existsb _ _); apply only_connected_refl.
    - destruct (kill_thread (objs w i)) eqn:Hk; [apply only_connected_refl|].
      rewrite (bind_total _ _ w _ (perform_total unicode_lower inp w)).
      cbn [state_of fst snd]. rewrite (Hc eq_refl eq_refl), Z.eqb_refl.
      cbn [negb]. rewrite bind_ret_l. destruct (negb _); exact Hperf. }
  destruct (thread_process unicode_lower hass_attrs i at_ inp w) as [es w' v].
  exact G.
Qed.

Lemma no_reconcile_with_equal_count_witness :
  only_connected before_failure_world
    (fst (worker_step (fun s => s) [] 0 failure_with_equal_count
            before_failure_world)).
Proof.
  apply (no_reconcile_with_equal_count (fun s => s) [] before_failure_world
           0 AtPerform failure_with_equal_count).
  - vm_compute. reflexivity.
  - intros _ _. vm_compute. reflexivity.
Defined.

(* ===================================================================== *)
(** ** The sweep                                                           *)
(* ===================================================================== *)

Lemma sweep_body_cameras (pos : nat) (w : World) :
  cameras (state_of (sweep_body pos w)) = cameras w
  \/ exists c,
       nth_error (cameras w) pos = Some c
       /\ truthy (reconnect c) = true
       /\ cameras (state_of (sweep_body pos w))
          = list_set (cameras w) pos (set_reconnect c None).
Proof.
  destruct (nth_error (cameras w) pos) as [c|] eqn:Hn.
  2:{ left. unfold sweep_body. rewrite bind_get, Hn. reflexivity. }
  destruct (reconnect c) as [d|] eqn:Hr.
  2:{ left. unfold sweep_body. rewrite bind_get, Hn, Hr. reflexivity. }
  destruct (truthy (Some d)) eqn:Ht.
  2:{ left. unfold sweep_body. rewrite bind_get, Hn, Hr, Ht. reflexivity. }
  destruct (Qltb d (clock w (ticks w))) eqn:Hq.
  2:{ left. unfold sweep_body. rewrite bind_get, Hn, Hr, Ht.
      unfold bind, time_time. rewrite Hq. reflexivity. }
  destruct (curlobj c) as [h|] eqn:Hh.
  2:{ left. unfold sweep_body. rewrite bind_get, Hn, Hr, Ht.
      unfold bind at 1. unfold time_time at 1. rewrite Hq, Hh. reflexivity. }
  destruct (handle_in h (curl_multiobj w)) eqn:Hin.
  - right. exists c. apply handle_in_In in Hin.
    split; [reflexivity|]. split; [rewrite Hr; exact Ht|].
    rewrite (sweep_body_due w pos c d h Hn Hr Ht (Qltb_lt _ _ Hq) Hh Hin).
    reflexivity.
  - left. unfold sweep_body. rewrite bind_get, Hn, Hr, Ht.
    unfold bind at 1. unfold time_time at 1. rewrite Hq, Hh.
    unfold remove_handle. rewrite bind_assoc, bind_get.
    cbn [curl_multiobj with_ticks]. rewrite Hin. reflexivity.
Qed.

Lemma only_rearmed_refl (w : World) : only_rearmed w w.
Proof. intros pos c H. left. exact H. Qed.

Lemma only_rearmed_trans (w1 w2 w3 : World) :
  only_rearmed w1 w2 -> only_rearmed w2 w3 -> only_rearmed w1 w3.
Proof.
  intros H12 H23 pos c H1.
  destruct (H12 pos c H1) as [H2 | (Ht & H2)].
  - exact (H23 pos c H2).
  - destruct (H23 pos _ H2) as [H3 | (Ht' & _)].
    + right. split; assumption.
    + discriminate Ht'.
Qed.

Lemma sweep_body_only_rearmed (pos : nat) :
  respects only_rearmed (sweep_body pos).
Proof.
  intros w p c Hp.
  destruct (sweep_body_cameras pos w) as [-> | (c0 & Hn & Ht & ->)].
  - left. exact Hp.
  - destruct (Nat.eq_dec p pos) as [-> | Hne].
    + assert (c0 = c) by congruence. subst c0. right. split; [exact Ht|].
      apply (nth_error_list_set_same _ _ _ c Hn).
    + left. rewrite (nth_error_list_set_other _ pos p _ Hne). exact Hp.
Qed.

(** X13.  The loop over all the cameras at the end of an iteration changes
    a camera in one way only: a camera that was waiting may lose its
    deadline.  A camera that is not waiting comes out of the loop exactly as
    it went in, and no camera changes its place in the list. *)
Theorem sweep_only_rearms (w : World) (pos : nat) (c : DahuaCamera) :
  nth_error (cameras w) pos = Some c ->
  nth_error (cameras (state_of (sweep w))) pos = Some c
  \/ (truthy (reconnect c) = true
      /\ nth_error (cameras (state_of (sweep w))) pos
         = Some (set_reconnect c None)).
Proof.
  revert pos c. change (only_rearmed w (state_of (sweep w))).
  unfold sweep.
  apply (respects_bind_get only_rearmed). intros s.
  apply (respects_for_each only_rearmed only_rearmed_refl only_rearmed_trans).
  intros p _. apply sweep_body_only_rearmed.
Qed.

Lemma sweep_only_rearms_witness :
  nth_error (cameras (state_of (sweep two_cameras_world))) 1%nat
  = nth_error (cameras two_cameras_world) 1%nat.
Proof.
  destruct (sweep_only_rearms two_cameras_world 1%nat
              (set_connected
                 (registered (nth 1%nat (two_cameras_args 0%nat)
                                  (camera docstring_camera)) 1%nat)
                 (Some true)))
    as [H | (Ht & _)].
  - vm_compute. reflexivity.
  - rewrite H. vm_compute. reflexivity.
  - vm_compute in Ht. discriminate Ht.
Defined.

(* ===================================================================== *)
(** ** The worker stays alive                                              *)
(* ===================================================================== *)

Lemma sweep_body_total (pos : nat) (w : World) :
  world_ok w -> value (sweep_body pos w) = inr tt.
Proof.
  intros Hok.
  destruct (nth_error (cameras w) pos) as [c|] eqn:Hn.
  2:{ unfold sweep_body. rewrite bind_get, Hn. reflexivity. }
  destruct (reconnect c) as [d|] eqn:Hr.
  2:{ unfold sweep_body. rewrite bind_get, Hn, Hr. reflexivity. }
  destruct (truthy (Some d)) eqn:Ht.
  2:{ unfold sweep_body. rewrite bind_get, Hn, Hr, Ht. reflexivity. }
  destruct (Qlt_le_dec d (clock w (ticks w))) as [Hlt | Hle].
  - destruct (world_ok_camera w pos c Hok Hn) as ((h & Hh & Hin) & _).
    rewrite (sweep_body_due w pos c d h Hn Hr Ht Hlt Hh Hin). reflexivity.
  - rewrite (sweep_body_not_due w pos c d Hn Hr Ht Hle). reflexivity.
Qed.

Lemma sweep_total (w : World) : world_ok w -> value (sweep w) = inr tt.
Proof.
  intros Hok. unfold sweep. rewrite bind_get.
  apply (for_each_inv world_ok); [|exact Hok].
  intros pos s _ Hs. split.
  - apply sweep_body_total, Hs.
  - apply (sweep_body_ok pos s Hs).
Qed.

Lemma perform_ok (unicode_lower : text -> text) (inp : curl_input) :
  respects ok_step (perform unicode_lower inp).
Proof.
  apply (perform_respects ok_step ok_step_refl ok_step_trans on_camera_ok).
Qed.

Lemma perform_known (unicode_lower : text -> text) (inp : curl_input) :
  respects known_step (perform unicode_lower inp).
Proof.
  apply (perform_respects known_step known_step_refl known_step_trans
           on_camera_known).
Qed.

Lemma reconcile_finished_ok (inp : curl_input) :
  respects ok_step (reconcile_finished inp).
Proof.
  apply (reconcile_finished_respects ok_step ok_step_refl ok_step_trans
           disconnect_camera_ok).
Qed.

Lemma reconcile_total (inp : curl_input) (w : World) :
  world_ok w -> stack_known w ->
  (forall h, In h (in_success inp) -> In h (curl_multiobj w)) ->
  (forall item, In item (in_error inp) -> In (fst (fst item)) (curl_multiobj w)) ->
  value (reconcile inp w) = inr tt.
Proof.
  intros Hok Hk Hs He. unfold reconcile.
  unfold stack_known in Hk. rewrite Forall_forall in Hk.
  rewrite (bind_total _ _ w tt).
  - cbn [value]. apply sweep_total. apply (reconcile_finished_ok inp w Hok).
  - apply reconcile_finished_total.
    + intros h Hh. apply Hk, Hs, Hh.
    + intros item Hi. apply Hk, He, Hi.
Qed.

Lemma thread_process_total
  (unicode_lower : text -> text) (hass_attrs : list string)
  (w : World) (i : nat) (at_ : pc) (inp : curl_input) :
  world_ok w -> stack_known w ->
  (forall h, In h (in_success inp) -> In h (curl_multiobj w)) ->
  (forall item, In item (in_error inp) -> In (fst (fst item)) (curl_multiobj w)) ->
  in_select inp <> (-1)%Z ->
  exists next,
    value (thread_process unicode_lower hass_attrs i at_ inp w) = inr next
    /\ ((exists at', next = Running at')
        \/ (kill_thread (objs w i) = true /\ next = Finished None)).
Proof.
  intros Hok Hk Hs He Hsel. unfold thread_process. rewrite get_obj_bind.
  destruct at_.
  - destruct (kill_thread (objs w i)).
    + eexists. split; [reflexivity|]. left. eexists. reflexivity.
    + rewrite (bind_total _ _ w _ (perform_total unicode_lower inp w)).
      cbn [value fst]. destruct (negb _); eexists; (split; [reflexivity|]);
        left; eexists; reflexivity.
  - destruct (kill_thread (objs w i)).
    + eexists. split; [reflexivity|]. right. split; reflexivity.
    + apply Z.eqb_neq in Hsel. rewrite Hsel.
      eexists. split; [reflexivity|]. left. eexists. reflexivity.
  - destruct (kill_thread (objs w i)).
    + eexists. split; [reflexivity|]. left. eexists. reflexivity.
    + rewrite (bind_total _ _ w _ (perform_total unicode_lower inp w)).
      cbn [value fst snd].
      set (w1 := state_of (perform unicode_lower inp w)).
      assert (Hok1 : world_ok w1) by apply (perform_ok unicode_lower inp w Hok).
      assert (Hk1 : stack_known w1) by apply (perform_known unicode_lower inp w Hk).
      assert (Hm1 : curl_multiobj w1 = curl_multiobj w).
      { apply (perform_only_connected unicode_lower inp w). }
      assert (Hv : value ((if negb (in_num_handles inp =? num_curlobj (objs w i))%Z
                           then reconcile inp else ret tt) w1) = inr tt).
      { destruct (negb _); [|reflexivity].
        apply reconcile_total; try assumption; rewrite Hm1; assumption. }
      rewrite (bind_total _ _ w1 tt Hv). cbn [value].
      destruct (negb (in_ret inp =? E_CALL_MULTI_PERFORM)%Z); eexists;
        (split; [reflexivity|]); left; eexists; reflexivity.
Qed.

(** X14.  In a world the program can reach, no exception ends a live worker
    as long as [select] does not return -1 and the handles that
    [info_read()] reports are handles of the stack: the lookups by handle
    find their camera, and a handle that is armed again is on the stack to
    be removed.  After the iteration the worker is still in its loop, unless
    [terminate] has set the stop flag and the worker has left the loop in
    the regular way. *)
Theorem worker_survives
  (unicode_lower : text -> text) (hass_attrs : list string)
  (clk : nat -> Q) (args : nat -> list CameraConfig) (evs : list event)
  (i : nat) (at_ : pc) (inp : curl_input) :
  (forall k, (0 <= clk k)%Q) ->
  let w := fst (run unicode_lower hass_attrs evs (boot clk args)) in
  proc (objs w i) = Some (Running at_) ->
  (forall h, In h (in_success inp) -> In h (curl_multiobj w)) ->
  (forall item, In item (in_error inp) -> In (fst (fst item)) (curl_multiobj w)) ->
  in_select inp <> (-1)%Z ->
  let w' := fst (worker_step unicode_lower hass_attrs i inp w) in
  (exists at', proc (objs w' i) = Some (Running at'))
  \/ (kill_thread (objs w i) = true
      /\ proc (objs w' i) = Some (Finished None)).
Proof.
  intros Hclk w Hp Hs He Hsel.
  assert (Hok : world_ok w) by (apply run_ok, boot_ok, Hclk).
  assert (Hk : stack_known w).
  { apply run_known; [apply boot_ok, Hclk | constructor]. }
  destruct (thread_process_total unicode_lower hass_attrs w i at_ inp
              Hok Hk Hs He Hsel) as (next & Hv & Hnext).
  cbn zeta. unfold worker_step. rewrite Hp.
  destruct (thread_process unicode_lower hass_attrs i at_ inp w) as [es w1 v].
  cbn [value] in Hv. subst v. cbn [fst]. rewrite with_obj_same.
  destruct Hnext as [(at' & ->) | (Hkill & ->)].
  - left. exists at'. reflexivity.
  - right. split; [exact Hkill | reflexivity].
Qed.

Lemma worker_survives_witness :
  let w' := fst (worker_step (fun s => s) [] 0 connect_failed
                   before_failure_world) in
  (exists at', proc (objs w' 0%nat) = Some (Running at'))
  \/ (kill_thread (objs before_failure_world 0%nat) = true
      /\ proc (objs w' 0%nat) = Some (Finished None)).
Proof.
  apply (worker_survives (fun s => s) [] steady_clock one_camera_args
           [EvInitialize 0; EvStep 0 quiet_input; EvStep 0 quiet_input]
           0 AtPerform connect_failed).
  - apply steady_clock_nonneg.
  - vm_compute. reflexivity.
  - intros h [].
  - intros item [<- | []]. vm_compute. left. reflexivity.
  - discriminate.
Defined.

(* ===================================================================== *)
(** ** What a parse failure can be                                         *)
(* ===================================================================== *)

Lemma strip_prefix_inv (p s rest : text) :
  strip_prefix p s = Some rest -> s = p ++ rest.
Proof.
  revert s. induction p as [|x p IH]; intros s; cbn [strip_prefix app].
  - intros [= ->]. reflexivity.
  - destruct s as [|y s]; [discriminate|].
    destruct (N.eqb x y) eqn:E; [|discriminate].
    apply N.eqb_eq in E. subst y. intros H. rewrite (IH s H). reflexivity.
Qed.

(** A character that is not the separator goes to the first piece. *)
Lemma split_char_miss (d c : char) (s : text) :
  N.eqb d c = false -> split [d] (c :: s) = cons_head c (split [d] s).
Proof.
  intros H. rewrite split_cons. cbn [strip_prefix]. rewrite H. reflexivity.
Qed.

Lemma split_char_hit (d : char) (s : text) :
  split [d] (d :: s) = [] :: split [d] s.
Proof.
  rewrite split_cons. cbn [strip_prefix]. rewrite N.eqb_refl. reflexivity.
Qed.

(** The first segment of a line that begins with the event marker begins
    with the marker. *)
Lemma split_semicolon_code (rest : text) :
  exists a more,
    split (txt ";") (txt "Code=" ++ rest) = (txt "Code=" ++ a) :: more.
Proof.
  change (txt ";") with [59]. change (txt "Code=") with [67; 111; 100; 101; 61].
  cbn [app]. rewrite !split_char_miss by reflexivity.
  match goal with
  | |- context [split ?sep rest] =>
    pose proof (split_not_nil sep rest) as Hne;
    destruct (split sep rest) as [|a more]
  end.
  - exfalso. apply Hne. reflexivity.
  - exists a, more. reflexivity.
Qed.

(** The key of a segment that begins with the event marker is [Code]. *)
Lemma split_equals_code (a : text) :
  split (txt "=") (txt "Code=" ++ a) = txt "Code" :: split (txt "=") a.
Proof.
  change (txt "=") with [61]. change (txt "Code=") with [67; 111; 100; 101; 61].
  change (txt "Code") with [67; 111; 100; 101].
  cbn [app]. rewrite !split_char_miss by reflexivity.
  rewrite split_char_hit. reflexivity.
Qed.

Lemma parse_pairs_keeps_key
  (unicode_lower : text -> text) (k : text) (keyvals : list text) :
  forall alarm d,
    dict_get alarm k <> None ->
    value (parse_pairs unicode_lower keyvals alarm tt) = inr d ->
    dict_get d k <> None.
Proof.
  induction keyvals as [|keyval rest IH]; intros alarm d Hk; cbn [parse_pairs].
  - intros [= <-]. exact Hk.
  - destruct (split (txt "=") keyval) as [|key [|val [|x more]]];
      try discriminate.
    apply IH. rewrite dict_get_set.
    destruct (text_eqb _ k); [discriminate | exact Hk].
Qed.

(** The loop over the pairs raises nothing but the [ValueError] of an
    unpacking that does not find two parts. *)
Lemma parse_pairs_raises
  (unicode_lower : text -> text) (keyvals : list text) :
  forall alarm ex,
    value (parse_pairs unicode_lower keyvals alarm tt) = inl ex ->
    exists n, ex = ValueError 2 n /\ n <> 2%nat.
Proof.
  induction keyvals as [|keyval rest IH]; intros alarm ex; cbn [parse_pairs].
  - discriminate.
  - destruct (split (txt "=") keyval) as [|key [|val [|x more]]].
    + intros [= <-]. exists 0%nat. split; [reflexivity | discriminate].
    + intros [= <-]. exists 1%nat. split; [reflexivity | discriminate].
    + apply IH.
    + intros [= <-]. eexists. split; [reflexivity|]. cbn [length]. lia.
Qed.

(** The record of a line that begins with the event marker has a [code]. *)
Lemma event_line_has_code
  (unicode_lower : text -> text) (line : text) (alarm : dict) :
  startswith line (txt "Code=") = true ->
  value (parse_pairs unicode_lower (split (txt ";") line) [] tt) = inr alarm ->
  dict_get alarm (txt "code") <> None.
Proof.
  unfold startswith. intros Hs.
  destruct (strip_prefix (txt "Code=") line) as [rest|] eqn:E; [|discriminate].
  apply strip_prefix_inv in E. subst line.
  destruct (split_semicolon_code rest) as (a & more & ->).
  cbn [parse_pairs]. rewrite split_equals_code.
  destruct (split (txt "=") a) as [|val [|x more']]; try discriminate.
  apply parse_pairs_keeps_key. rewrite dict_get_set.
  replace (text_eqb (lower unicode_lower (txt "Code")) (txt "code"))
    with true by (vm_compute; reflexivity).
  discriminate.
Qed.

Lemma event_line_failures
  (unicode_lower : text -> text) (cfg : CameraConfig) (line : text) (ex : exn) :
  startswith line (txt "Code=") = true ->
  In (Log (LogFailedToParse ex)) (event_line_effects unicode_lower cfg line) ->
  (exists n, ex = ValueError 2 n /\ n <> 2%nat)
  \/ ex = KeyError (txt "action").
Proof.
  intros Hs. unfold event_line_effects.
  pose proof (parse_pairs_raises unicode_lower (split (txt ";") line) []) as Hr.
  pose proof (event_line_has_code unicode_lower line) as Hc.
  destruct (value (parse_pairs unicode_lower (split (txt ";") line) [] tt))
    as [ex0|alarm].
  - intros [[= <-] | []]. left. apply Hr. reflexivity.
  - specialize (Hc alarm Hs eq_refl). unfold parse_event_outcome.
    destruct (dict_get alarm (txt "code")) as [code|]; [|congruence].
    destruct (text_in code _); [|intros []].
    destruct (dict_get alarm (txt "action")) as [action|].
    + unfold publish_effects. intros H. apply in_flat_map in H.
      destruct H as (item & _ & [H | [H | []]]); discriminate H.
    + intros [[= <-] | []]. right. reflexivity.
Qed.

(** X15.  The only failures that [on_receive] can meet and log while it
    reads an event line are the [ValueError] of a segment that does not
    split into a key and a value, and the [KeyError] of a whitelisted event
    without [action].  The lookup of [code] in [parse_event] never fails
    there, since the line begins with that key. *)
Theorem parse_failures_are_of_two_kinds
  (unicode_lower : text -> text) (data : list byte) (s : DahuaCamera)
  (ex : exn) :
  In (Log (LogFailedToParse ex)) (effects (on_receive unicode_lower data s)) ->
  (exists n, ex = ValueError 2 n /\ n <> 2%nat)
  \/ ex = KeyError (txt "action").
Proof.
  unfold on_receive.
  rewrite (receive_lines_effects unicode_lower s _ s eq_refl).
  intros H. apply in_flat_map in H. destruct H as (line & _ & H).
  rewrite receive_line_closed in H. unfold line_effects in H.
  apply in_app_or in H. destruct H as [H | H].
  - destruct (text_eqb line status_line); [|destruct H].
    destruct H as [H | []]. discriminate H.
  - destruct (startswith line (txt "Code=")) eqn:Hs; [|destruct H].
    exact (event_line_failures unicode_lower (camera s) line ex Hs H).
Qed.

Lemma parse_failures_are_of_two_kinds_witness :
  (exists n, ValueError 2 1 = ValueError 2 n /\ n <> 2%nat)
  \/ ValueError 2 1 = KeyError (txt "action").
Proof.
  apply (parse_failures_are_of_two_kinds (fun s => s)
           (bytes "Code=VideoMotion;action" ++ crlf_bytes
            ++ bytes "Code=VideoMotion;action=Start")
           docstring_camera (ValueError 2 1)).
  vm_compute. left. reflexivity.
Defined.

(* ===================================================================== *)
(** ** Starting an app in a reachable world                                *)
(* ===================================================================== *)

(** X16.  In every world the program can reach, [initialize] runs to its
    end: pycurl refuses none of the handles, since each one is new to the
    stack.  The handles are added in the order of the configuration, the
    log line of the start comes after the last of them, the worker starts
    at the top of [thread_process], and the stop flag of the object is left
    as it is: [initialize] does not set it back. *)
Theorem initialize_completes
  (unicode_lower : text -> text) (hass_attrs : list string)
  (clk : nat -> Q) (args : nat -> list CameraConfig) (evs : list event)
  (i : nat) :
  (forall k, (0 <= clk k)%Q) ->
  let w := fst (run unicode_lower hass_attrs evs (boot clk args)) in
  let r := initialize i w in
  value r = inr tt
  /\ effects r
     = List.map AddHandle
         (seq (length (curl_objects w)) (length (args_cameras (objs w i))))
       ++ [Log LogStartingThread]
  /\ proc (objs (state_of r) i) = Some (Running AtStartup)
  /\ kill_thread (objs (state_of r) i) = kill_thread (objs w i).
Proof.
  intros Hclk w r.
  assert (Hok : world_ok w) by (apply run_ok, boot_ok, Hclk).
  destruct Hok as (_ & Hf & _).
  destruct (initialize_fresh i w Hf) as (Hv & He & w1 & Hi & Hs).
  fold r in Hv, He, Hs. split; [exact Hv|]. split; [exact He|].
  rewrite Hs, with_obj_same. split; [reflexivity|].
  destruct Hi. unfold kill_thread. cbn [set_proc kill_thread_attr].
  rewrite init_kill0. reflexivity.
Qed.

Lemma initialize_completes_witness :
  let w := fst (run (fun s => s) [] [EvInitialize 0; EvStep 0 quiet_input]
                    (boot steady_clock two_apps_args)) in
  let r := initialize 1 w in
  value r = inr tt
  /\ effects r = [AddHandle 1%nat; Log LogStartingThread]
  /\ proc (objs (state_of r) 1%nat) = Some (Running AtStartup)
  /\ kill_thread (objs (state_of r) 1%nat) = false.
Proof.
  exact (initialize_completes (fun s => s) [] steady_clock two_apps_args
           [EvInitialize 0; EvStep 0 quiet_input] 1 steady_clock_nonneg).
Defined.

(* ===================================================================== *)
(** ** Where the worker publishes                                          *)
(* ===================================================================== *)

Lemma effects_bind {S A B} (m : M S A) (k : A -> M S B) (s : S) :
  effects (bind m k s)
  = effects (m s)
    ++ match value (m s) with
       | inr a => effects (k a (state_of (m s)))
       | inl _ => []
       end.
Proof.
  unfold bind. destruct (m s) as [es s1 [e|a]]; cbn [effects value state_of].
  - rewrite app_nil_r. reflexivity.
  - destruct (k a s1); reflexivity.
Qed.

Lemma quiet_ret {S A} (a : A) : quiet (@ret S A a).
Proof. intros s. reflexivity. Qed.

Lemma quiet_raise {S A} (e : exn) : quiet (@raise S A e).
Proof. intros s. reflexivity. Qed.

Lemma quiet_bind {S A B} (m : M S A) (k : A -> M S B) :
  quiet m -> (forall a, quiet (k a)) -> quiet (bind m k).
Proof.
  intros Hm Hk s. rewrite effects_bind, publishes_app, Hm.
  destruct (value (m s)); [reflexivity | apply Hk].
Qed.

Lemma quiet_bind_get {S B} (k : S -> M S B) :
  (forall x, quiet (k x)) -> quiet (bind get k).
Proof. intros H s. rewrite bind_get. apply H. Qed.

Lemma quiet_for_each {S A} (xs : list A) (body : A -> M S unit) :
  (forall x, quiet (body x)) -> quiet (for_each xs body).
Proof.
  intros H. induction xs as [|x xs IH]; cbn [for_each].
  - apply quiet_ret.
  - apply quiet_bind; [apply H | intros _; exact IH].
Qed.

Lemma quiet_on_camera (pos : nat) (m : M DahuaCamera unit) :
  quiet m -> quiet (on_camera pos m).
Proof.
  intros Hm w. unfold on_camera.
  destruct (nth_error (cameras w) pos) as [c|]; [|reflexivity].
  specialize (Hm c). destruct (m c) as [es c' v]. exact Hm.
Qed.

Lemma quiet_disconnect_camera (pos : nat) (reason : disconnect_reason) :
  quiet (disconnect_camera pos reason).
Proof.
  intros w. destruct (nth_error (cameras w) pos) as [c|] eqn:Hn.
  - rewrite (disconnect_camera_at w pos c reason Hn). reflexivity.
  - rewrite (disconnect_camera_none w pos reason Hn). reflexivity.
Qed.

Lemma quiet_next_camera (h : handle) : quiet (next_camera h).
Proof.
  unfold next_camera. apply quiet_bind_get. intros w.
  destruct (find_first _ _); [apply quiet_ret | apply quiet_raise].
Qed.

Lemma quiet_remove_handle (c : option handle) : quiet (remove_handle c).
Proof.
  destruct c as [h|]; [|apply quiet_raise]. cbn [remove_handle].
  apply quiet_bind_get. intros w. destruct (handle_in _ _).
  - intros s. reflexivity.
  - apply quiet_raise.
Qed.

Lemma quiet_add_handle (c : option handle) : quiet (add_handle c).
Proof.
  destruct c as [h|]; [|apply quiet_raise]. cbn [add_handle].
  apply quiet_bind_get. intros w. destruct (handle_in _ _).
  - apply quiet_raise.
  - intros s. reflexivity.
Qed.

Lemma quiet_sweep_body (pos : nat) : quiet (sweep_body pos).
Proof.
  unfold sweep_body. apply quiet_bind_get. intros w.
  destruct (nth_error (cameras w) pos) as [c|]; [|apply quiet_ret].
  destruct (reconnect c) as [d|]; [|apply quiet_ret].
  destruct (truthy (Some d)); [|apply quiet_ret].
  apply quiet_bind; [intros s; reflexivity|]. intros now.
  destruct (Qltb d now); [|apply quiet_ret].
  apply quiet_bind; [apply quiet_remove_handle|]. intros _.
  apply quiet_bind; [apply quiet_add_handle|]. intros _.
  unfold update_camera. apply quiet_on_camera. intros s. reflexivity.
Qed.

(** Marking cameras as lost and arming them again publishes nothing. *)
Lemma quiet_reconcile (inp : curl_input) : quiet (reconcile inp).
Proof.
  unfold reconcile, reconcile_finished, sweep.
  apply quiet_bind; [apply quiet_bind|].
  - apply quiet_for_each. intros h. unfold success_body.
    apply quiet_bind; [apply quiet_next_camera|]. intros ic.
    destruct (truthy _); [apply quiet_ret | apply quiet_disconnect_camera].
  - intros _. apply quiet_for_each. intros [[h errorno] errorstr].
    unfold error_body.
    apply quiet_bind; [apply quiet_next_camera|]. intros ic.
    destruct (truthy _); [apply quiet_ret | apply quiet_disconnect_camera].
  - intros _. apply quiet_bind_get. intros w.
    apply quiet_for_each. apply quiet_sweep_body.
Qed.

Lemma Forall2_same_nth (l l' : list DahuaCamera) (pos : nat) (c : DahuaCamera) :
  Forall2 same_but_connected l l' ->
  nth_error l' pos = Some c ->
  exists c0, nth_error l pos = Some c0 /\ same_but_connected c0 c.
Proof.
  intros H. revert pos. induction H as [|x y l l' Hxy _ IH]; intros [|pos];
    cbn [nth_error]; try discriminate.
  - intros [= <-]. exists x. split; [reflexivity | exact Hxy].
  - apply IH.
Qed.

Lemma on_receive_effects_config
  (unicode_lower : text -> text) (data : list byte) (c c' : DahuaCamera) :
  camera c' = camera c ->
  effects (on_receive unicode_lower data c')
  = effects (on_receive unicode_lower data c).
Proof.
  intros E. unfold on_receive.
  rewrite (receive_lines_effects unicode_lower c _ c' E).
  rewrite (receive_lines_effects unicode_lower c _ c eq_refl).
  reflexivity.
Qed.

(** Each publish call made while [perform()] runs is made by the write
    callback of the camera whose handle has the data, on that data. *)
Lemma perform_loop_topics
  (unicode_lower : text -> text) (w : World) (inp : curl_input)
  (items : list (handle * list byte)) :
  (forall x, In x items -> In x (in_received inp)) ->
  forall wk, only_connected w wk ->
  forall t p,
    In (t, p)
       (publishes
          (effects
             (for_each items
                (fun hd =>
                   w0 <- get ;;
                   match find_first (curlobj_is (fst hd)) (cameras w0) with
                   | Some (pos, _) =>
                     on_camera pos (on_receive unicode_lower (snd hd))
                   | None => ret tt
                   end) wk))) ->
    published_for_receiver unicode_lower w inp t p.
Proof.
  induction items as [|[h data] items IH]; intros Hin wk Hk t p;
    cbn [for_each].
  - intros [].
  - assert (Hv : value
                   ((w0 <- get ;;
                     match find_first (curlobj_is h) (cameras w0) with
                     | Some (pos, _) => on_camera pos (on_receive unicode_lower data)
                     | None => ret tt
                     end) wk) = inr tt).
    { rewrite bind_get. destruct (find_first _ _) as [[pos c]|]; [|reflexivity].
      apply on_camera_total. intros c0. unfold on_receive.
      apply receive_lines_total. }
    assert (Hstep : only_connected wk
                      (state_of
                         ((w0 <- get ;;
                           match find_first (curlobj_is h) (cameras w0) with
                           | Some (pos, _) =>
                             on_camera pos (on_receive unicode_lower data)
                           | None => ret tt
                           end) wk))).
    { rewrite bind_get. destruct (find_first _ _) as [[pos c]|].
      - apply on_camera_only_connected, on_receive_respects.
      - apply only_connected_refl. }
    cbn [fst snd]. rewrite (bind_total _ _ wk tt Hv). cbn [effects].
    rewrite publishes_app. intros H.
    apply in_app_or in H. destruct H as [H | H].
    + rewrite bind_get in H.
      destruct (find_first (curlobj_is h) (cameras wk)) as [[pos c]|] eqn:Hf;
        [|destruct H].
      destruct (find_first_nth _ _ _ _ Hf) as [Hn Hc].
      unfold on_camera in H. rewrite Hn in H.
      assert (H' : In (t, p) (publishes (effects (on_receive unicode_lower data c)))).
      { destruct (on_receive unicode_lower data c) as [es c' v]. exact H. }
      clear H.
      destruct (Forall2_same_nth _ _ pos c (proj1 Hk) Hn)
        as (c0 & Hn0 & Ecam & Ecurl & _).
      rewrite (on_receive_effects_config unicode_lower data c0 c Ecam) in H'.
      exists h, data, c0. split; [apply Hin; left; reflexivity|].
      split; [exact (nth_error_In _ _ Hn0)|]. split.
      { rewrite <- Ecurl. exact (curlobj_is_true h c Hc). }
      split; [exact H'|].
      exact (on_receive_topics unicode_lower data c0 t p H').
    + eapply (IH (fun x Hx => Hin x (or_intror Hx))); [|exact H].
      exact (only_connected_trans w wk _ Hk Hstep).
Qed.

(** X17.  Every publish call of an iteration of the worker is caused by a
    chunk of that iteration: it is one of the calls that [on_receive] of
    the camera holding the handle of the chunk makes on that very chunk, and
    so goes to that camera's topic or to it followed by a code of that
    camera's whitelist.  The bookkeeping of lost and re-armed cameras
    publishes nothing, and a chunk that makes its own camera publish
    nothing, a heartbeat say, makes no camera publish. *)
Theorem worker_publishes_for_receivers
  (unicode_lower : text -> text) (hass_attrs : list string)
  (w : World) (i : nat) (inp : curl_input) (t p : text) :
  In (t, p)
     (publishes (snd (worker_step unicode_lower hass_attrs i inp w))) ->
  published_for_receiver unicode_lower w inp t p.
Proof.
  unfold worker_step.
  destruct (proc (objs w i)) as [[at_ | died]|]; try (intros []).
  assert (G : In (t, p)
                (publishes
                   (effects (thread_process unicode_lower hass_attrs i at_ inp w))) ->
              published_for_receiver unicode_lower w inp t p).
  { assert (Hperf : forall t p,
              In (t, p) (publishes (effects (perform unicode_lower inp w))) ->
              published_for_receiver unicode_lower w inp t p).
    { intros t0 p0. unfold perform. rewrite effects_bind, publishes_app.
      intros H. apply in_app_or in H. destruct H as [H | H].
      - apply (perform_loop_topics unicode_lower w inp (in_received inp)
                 (fun x Hx => Hx) w (only_connected_refl w) t0 p0 H).
      - destruct (value _); cbn in H; destruct H. }
    unfold thread_process. rewrite get_obj_bind. destruct at_.
    - destruct (kill_thread (objs w i)); [intros []|].
      rewrite effects_bind, publishes_app. intros H.
      apply in_app_or in H. destruct H as [H | H]; [exact (Hperf t p H)|].
      destruct (value _) as [e|rn]; [cbn in H; destruct H|].
      destruct (negb _); cbn in H; destruct H.
    - destruct (kill_thread (objs w i)); [intros H; cbn in H; destruct H|].
      destruct (Z.eqb _ _); [|intros H; cbn in H; destruct H].
      unfold call_on_timer. destruct (existsb _ _); intros H; cbn in H;
        destruct H.
    - destruct (kill_thread (objs w i)); [intros []|].
      rewrite effects_bind, publishes_app. intros H.
      apply in_app_or in H. destruct H as [H | H]; [exact (Hperf t p H)|].
      destruct (value _) as [e|rn]; [cbn in H; destruct H|].
      rewrite effects_bind, publishes_app in H.
      apply in_app_or in H. destruct H as [H | H].
      + destruct (negb (snd rn =? num_curlobj (objs w i))%Z).
        * rewrite quiet_reconcile in H. destruct H.
        * cbn in H; destruct H.
      + destruct (value _) as [e|[]]; [cbn in H; destruct H|].
        destruct (negb _); cbn in H; destruct H. }
  destruct (thread_process unicode_lower hass_attrs i at_ inp w) as [es w' v].
  exact G.
Qed.

(** Two cameras: the first receives an event, the second a heartbeat.  The
    one publish to [cameras/1VideoMotion] is traced to the chunk of the
    first. *)
Lemma worker_publishes_for_receivers_witness :
  published_for_receiver (fun s => s) two_cameras_world
    {| in_received :=
         [(0%nat, bytes "Code=VideoMotion;action=Start;index=0");
          (1%nat, bytes "Heartbeat")];
       in_ret := 0%Z; in_num_handles := 2%Z;
       in_success := []; in_error := []; in_select := 1%Z |}
    (txt "cameras/1VideoMotion") (txt "Start").
Proof.
  apply (worker_publishes_for_receivers (fun s => s) [] two_cameras_world 0).
  vm_compute. right. left. reflexivity.
Defined.
